(** * GPS Quest: the quest progression controller and its waypoints

    A shallow embedding of the navigation core of the GPS Quest lens:
    [Place] / [GeoLocationPlace] (the waypoint objects),
    [NavigationDataComponent] (the controller that owns the ordered list
    of waypoints, the selected waypoint and the per-frame [update]) and
    [ManualPlaceList] (registration of the authored waypoints).

    Waypoints are JavaScript objects compared by identity and mutated in
    place, so the model keeps a heap of [Place] objects addressed by
    [PlaceRef]; the controller stores references only.  Events are
    recorded as the list of invocations an operation performs, in order;
    subscribers are taken not to call back into the controller. *)

From Stdlib Require Import ZArith QArith Qabs Bool String Ascii.
From stdpp Require Import gmap list strings.

Local Open Scope Z_scope.
Local Open Scope nat_scope.

(** ** Numbers

    TypeScript's [number] is modelled by the rationals: finite values
    only, no NaN and no infinities.  The controller and the waypoints
    only compare distances. *)

Definition Qlt_bool (a b : Q) : bool := negb (Qle_bool b a).

(** ** Data model *)

Record GeoPosition := mkGeoPosition {
  latitude : Q;
  longitude : Q;
  altitude : Q
}.

(** Object identity of a waypoint. *)
Abbreviation PlaceRef := positive.

(** A [GeoLocationPlace] instance.  [distanceToActivate] is the own
    property of that name read dynamically by the controller
    ([(selectedPlace as any).distanceToActivate]); the class stores its
    radius in [distanceToVisit] and its constructor never creates such a
    property. *)
Record Place := mkPlace {
  _name : string;
  _visited : bool;
  geoPosition : GeoPosition;
  distanceToVisit : Q;
  distanceToActivate : option Q
}.

Inductive NavigationStatus :=
  | LocationNotSelected
  | Initializing
  | InProgress
  | Succeeded.

#[global] Instance NavigationStatus_eq_dec : EqDecision NavigationStatus.
Proof. solve_decision. Defined.

(** The field [selectedPlace : Place | null] has no initialiser, so it
    starts out [undefined]. *)
Inductive Selected :=
  | SelUndefined
  | SelNull
  | SelPlace (p : PlaceRef).

#[global] Instance Selected_eq_dec : EqDecision Selected.
Proof. solve_decision. Defined.

Inductive Event :=
  | NavigationStarted (place : option PlaceRef)
  | ArrivedAtPlace (place : PlaceRef)
  | PlacesUpdated
  | AllPlacesVisited.

#[global] Instance Event_eq_dec : EqDecision Event.
Proof. solve_decision. Defined.

(** The heap of waypoint objects together with the fields of the one
    [NavigationDataComponent]. *)
Record World := mkWorld {
  heap : gmap PlaceRef Place;
  _places : list PlaceRef;
  _status : NavigationStatus;
  selectedPlace : Selected;
  placesVisited : gmap PlaceRef bool;
  placesAt : gmap PlaceRef bool;
  emittedAllVisited : bool;
  hasArrivedAtSelectedPlace : bool
}.

Inductive UserPositionStatus :=
  | GeoLocalizationUnavailable
  | GeoLocalizationAvailable.

#[global] Instance UserPositionStatus_eq_dec : EqDecision UserPositionStatus.
Proof. solve_decision. Defined.

Record vec3 := mkVec3 { x : Q; y : Q; z : Q }.

(** The part of the host's [Transform] that the projection reads. *)
Record Transform := mkTransform {
  back : vec3;
  getWorldPosition : vec3
}.

(** What the getters of the user position tracker answer during one
    frame.  The tracker class is not part of the modelled sources; its
    answers are inputs of every operation that consults it. *)
Record UserPosition := mkUserPosition {
  getGeoPosition : option GeoPosition;
  getBearing : Q;
  status : UserPositionStatus;
  getRelativeTransform : Transform;
  getDistanceTo : PlaceRef → option Q
}.

(** ** Field access on the heap *)

Definition visited (w : World) (p : PlaceRef) : bool :=
  match heap w !! p with
  | Some o => _visited o
  | None => false
  end.

Definition with_visited (b : bool) (o : Place) : Place :=
  mkPlace (_name o) b (geoPosition o) (distanceToVisit o) (distanceToActivate o).

Definition set_heap (h : gmap PlaceRef Place) (w : World) : World :=
  mkWorld h (_places w) (_status w) (selectedPlace w) (placesVisited w)
          (placesAt w) (emittedAllVisited w) (hasArrivedAtSelectedPlace w).

Definition set_visited (p : PlaceRef) (b : bool) (w : World) : World :=
  set_heap (alter (with_visited b) p (heap w)) w.

Definition set_places (l : list PlaceRef) (w : World) : World :=
  mkWorld (heap w) l (_status w) (selectedPlace w) (placesVisited w)
          (placesAt w) (emittedAllVisited w) (hasArrivedAtSelectedPlace w).

Definition set_status (s : NavigationStatus) (w : World) : World :=
  mkWorld (heap w) (_places w) s (selectedPlace w) (placesVisited w)
          (placesAt w) (emittedAllVisited w) (hasArrivedAtSelectedPlace w).

Definition set_selectedPlace (s : Selected) (w : World) : World :=
  mkWorld (heap w) (_places w) (_status w) s (placesVisited w)
          (placesAt w) (emittedAllVisited w) (hasArrivedAtSelectedPlace w).

Definition set_placesVisited (m : gmap PlaceRef bool) (w : World) : World :=
  mkWorld (heap w) (_places w) (_status w) (selectedPlace w) m
          (placesAt w) (emittedAllVisited w) (hasArrivedAtSelectedPlace w).

Definition set_placesAt (m : gmap PlaceRef bool) (w : World) : World :=
  mkWorld (heap w) (_places w) (_status w) (selectedPlace w) (placesVisited w)
          m (emittedAllVisited w) (hasArrivedAtSelectedPlace w).

Definition set_emittedAllVisited (b : bool) (w : World) : World :=
  mkWorld (heap w) (_places w) (_status w) (selectedPlace w) (placesVisited w)
          (placesAt w) b (hasArrivedAtSelectedPlace w).

Definition set_hasArrivedAtSelectedPlace (b : bool) (w : World) : World :=
  mkWorld (heap w) (_places w) (_status w) (selectedPlace w) (placesVisited w)
          (placesAt w) (emittedAllVisited w) b.

(** ** Operations with an event log *)

Definition Op := World → World * list Event.

Definition skip : Op := λ w, (w, []).
Definition invoke (e : Event) : Op := λ w, (w, [e]).
Definition modify (f : World → World) : Op := λ w, (f w, []).
Definition andThen (a b : Op) : Op := λ w,
  let r1 := a w in
  let r2 := b r1.1 in
  (r2.1, r1.2 ++ r2.2).

Notation "a >>> b" := (andThen a b) (at level 65, right associativity).

(** ** Array helpers with JavaScript's out-of-range behaviour *)

(** [Array.prototype.indexOf]: the first index, or -1. *)
Definition indexOf (l : list PlaceRef) (p : PlaceRef) : Z :=
  match list_find (λ q, q = p) l with
  | Some (i, _) => Z.of_nat i
  | None => (-1)%Z
  end.

(** [a[i]] for an integer [i]: [undefined] below zero and past the end. *)
Definition at_index (l : list PlaceRef) (i : Z) : option PlaceRef :=
  if (i <? 0)%Z then None else l !! Z.to_nat i.

Definition includes (l : list PlaceRef) (p : PlaceRef) : bool :=
  bool_decide (p ∈ l).

(** ** NavigationDataComponent *)

(** [addPlace] past its null check. *)
Definition addPlace_present (place : PlaceRef) : Op := λ w,
  if includes (_places w) place then (w, [])
  else
    (modify (λ w, set_places (_places w ++ [place]) w) >>>
     modify (λ w, set_placesVisited (<[place := false]> (placesVisited w)) w) >>>
     modify (λ w, set_placesAt (<[place := false]> (placesAt w)) w) >>>
     invoke PlacesUpdated >>>
     modify (set_emittedAllVisited false)) w.

(** [addPlace]: a null argument throws. *)
Definition addPlace (place : option PlaceRef) (w : World)
  : string + World * list Event :=
  match place with
  | None => inl "Null argument."%string
  | Some p => inr (addPlace_present p w)
  end.

Definition removePlace (place : PlaceRef) : Op := λ w,
  let sizeBefore := length (_places w) in
  (modify (λ w, set_places (filter (λ m, m ≠ place) (_places w)) w) >>>
   modify (λ w, set_placesVisited (delete place (placesVisited w)) w) >>>
   modify (λ w, set_placesAt (delete place (placesAt w)) w) >>>
   (λ w, if bool_decide (length (_places w) ≠ sizeBefore)
         then invoke PlacesUpdated w else skip w)) w.

(** The threshold read by [update]: the place's own [distanceToActivate]
    property, or 10 when it has none. *)
Definition activationThreshold (w : World) (p : PlaceRef) : Q :=
  match heap w !! p with
  | Some o => default (10 # 1) (distanceToActivate o)
  | None => 10 # 1
  end.

(** The condition of the arrival test on the selected place. *)
Definition arrives (up : UserPosition) (sp : PlaceRef) (w : World) : bool :=
  let distance := getDistanceTo up sp in
  let distanceToActivate := activationThreshold w sp in
  let currentIdx := indexOf (_places w) sp in
  let prev := at_index (_places w) (currentIdx - 1) in
  let prevVisited :=
    match prev with
    | None => true
    | Some q => visited w q
    end in
  match distance with
  | Some d => Qle_bool d distanceToActivate
  | None => false
  end && prevVisited && negb (visited w sp).

Definition arrivalCheck (up : UserPosition) (sp : PlaceRef) : Op := λ w,
  if arrives up sp w then
    (modify (set_visited sp true) >>>
     invoke (ArrivedAtPlace sp) >>>
     modify (set_hasArrivedAtSelectedPlace true)) w
  else (w, []).

(** The forward scan for the next unvisited waypoint. *)
Definition nextUnvisited (w : World) (sp : PlaceRef) : option PlaceRef :=
  let currentIdx := indexOf (_places w) sp in
  List.find (λ q, negb (visited w q))
            (drop (Z.to_nat (currentIdx + 1)) (_places w)).

(** The block under [if (atPlace)].  Its inner test of
    [hasArrivedAtSelectedPlace] follows the assignment of [true] to that
    field and always succeeds. *)
Definition advance (navigateToPlace : option PlaceRef → Op) (sp : PlaceRef) : Op := λ w,
  if visited w sp then
    (invoke (ArrivedAtPlace sp) >>>
     modify (set_hasArrivedAtSelectedPlace true) >>>
     (λ w, match nextUnvisited w sp with
           | Some nextPlace =>
               (modify (set_selectedPlace SelNull) >>>
                navigateToPlace (Some nextPlace)) w
           | None =>
               (modify (set_selectedPlace SelNull) >>>
                modify (set_status Succeeded)) w
           end)) w
  else (w, []).

(** One iteration of the "guided experience" loop.  Inside the loop
    bounds both array reads succeed; the [None] branches stand for reads
    the loop never makes. *)
Definition sweepStep (i : nat) : Op := λ w,
  match _places w !! i with
  | None => (w, [])
  | Some p =>
      let atPlace := visited w p in
      if bool_decide (placesAt w !! p = Some atPlace) then (w, [])
      else if atPlace then
        let prevVisited :=
          match i with
          | 0 => true
          | S j => match _places w !! j with
                   | Some q => visited w q
                   | None => false
                   end
          end in
        if prevVisited then
          (invoke (ArrivedAtPlace p) >>>
           modify (λ w, set_placesVisited (<[p := true]> (placesVisited w)) w) >>>
           modify (λ w, set_placesAt (<[p := true]> (placesAt w)) w)) w
        else modify (set_visited p false) w
      else modify (λ w, set_placesAt (<[p := false]> (placesAt w)) w) w
  end.

Fixpoint sweepLoop (n i : nat) : Op :=
  match n with
  | 0 => skip
  | S n' => sweepStep i >>> sweepLoop n' (S i)
  end.

Definition sweep : Op := λ w, sweepLoop (length (_places w)) 0 w.

Definition allVisited (m : gmap PlaceRef bool) : bool :=
  map_fold (λ _ visited allVisited, allVisited && visited)
           (bool_decide (0 < size m)) m.

Definition completionCheck : Op := λ w,
  if emittedAllVisited w then (w, [])
  else if allVisited (placesVisited w) then
    (modify (set_emittedAllVisited true) >>> invoke AllPlacesVisited) w
  else (w, []).

(** The block of [update] guarded by a non-null, non-undefined
    [selectedPlace]. *)
Definition selectedBlock (navigateToPlace : option PlaceRef → Op)
    (up : UserPosition) : Op := λ w,
  match selectedPlace w with
  | SelPlace sp => (arrivalCheck up sp >>> advance navigateToPlace sp) w
  | _ => (w, [])
  end.

(** The sweep and the completion check that end every [update]. *)
Definition sweepAndCompletion : Op := sweep >>> completionCheck.

(** [update], open in its call to [navigateToPlace]. *)
Definition update_body (navigateToPlace : option PlaceRef → Op)
    (up : UserPosition) : Op :=
  selectedBlock navigateToPlace up >>> sweepAndCompletion.

Definition toSelected (place : option PlaceRef) : Selected :=
  match place with
  | Some p => SelPlace p
  | None => SelNull
  end.

(** The guarded registration at the head of [navigateToPlace]. *)
Definition registerIfAbsent (place : option PlaceRef) : Op := λ w,
  match place with
  | Some p => if includes (_places w) p then (w, []) else addPlace_present p w
  | None => (w, [])
  end.

Definition statusFor (place : option PlaceRef) : NavigationStatus :=
  match place with
  | None => LocationNotSelected
  | Some _ => InProgress
  end.

(** [navigateToPlace], open in its call to [update]. *)
Definition navigateToPlace_body (update : Op) (place : option PlaceRef) : Op := λ w,
  if decide (selectedPlace w = toSelected place) then (w, [])
  else
    (registerIfAbsent place >>>
     modify (set_status (statusFor place)) >>>
     update >>>
     modify (set_selectedPlace (toSelected place)) >>>
     modify (set_hasArrivedAtSelectedPlace false) >>>
     invoke (NavigationStarted place)) w.

(** [update] and [navigateToPlace] call each other.  [update] calls
    [navigateToPlace] only after it has reset [selectedPlace] to null, and
    [navigateToPlace] calls [update] before it assigns [selectedPlace]; the
    [update] reached that way skips its selected-place block and calls
    nothing.  The recursion is therefore unrolled to that depth;
    [update_unfold] and [navigateToPlace_unfold] below recover the
    source's two mutually recursive equations. *)
Definition update_nested (up : UserPosition) : Op :=
  update_body (λ _, skip) up.

Definition navigateToPlace_nested (up : UserPosition) : option PlaceRef → Op :=
  navigateToPlace_body (update_nested up).

Definition update (up : UserPosition) : Op :=
  update_body (navigateToPlace_nested up) up.

Definition navigateToPlace (up : UserPosition) : option PlaceRef → Op :=
  navigateToPlace_body (update up).

Definition stopNavigation (up : UserPosition) : Op :=
  navigateToPlace up None.

(** The place to which the update embedded in [navigateToPlace place]
    hands the selection, if it does: the previously selected place is
    visited once the arrival test has run, and the result is the first
    unvisited place after it in the list. *)
Definition handOver (up : UserPosition) (place : option PlaceRef) (w : World)
  : option PlaceRef :=
  match selectedPlace w with
  | SelPlace sp =>
      let w1 := (arrivalCheck up sp
                   (set_status (statusFor place) (registerIfAbsent place w).1)).1 in
      if visited w1 sp then nextUnvisited w1 sp else None
  | _ => None
  end.

Arguments sweep : simpl never.
Arguments sweepAndCompletion : simpl never.
Arguments completionCheck : simpl never.
Arguments arrivalCheck : simpl never.
Arguments update : simpl never.
Arguments navigateToPlace : simpl never.

(** The component as constructed. *)
Definition initial (h : gmap PlaceRef Place) : World :=
  mkWorld h [] Initializing SelUndefined ∅ ∅ false false.

(** ** The per-frame callback of a waypoint

    The [Place] constructor binds a callback to the frame update event;
    [GeoLocationPlace.checkVisited] decides it from the distance between
    the user's fix and the waypoint.  The great-circle distance function
    lives in the navigation utilities, outside the modelled sources, so it
    is a parameter here. *)

Section PlaceCallback.

Variable getPhysicalDistanceBetweenLocations : GeoPosition → GeoPosition → Q.

Definition getPhysicalDistance (userPosition : UserPosition) (this : Place)
  : option Q :=
  match getGeoPosition userPosition with
  | None => None
  | Some userGeoPosition =>
      Some (getPhysicalDistanceBetweenLocations userGeoPosition (geoPosition this))
  end.

Definition checkVisited (userPosition : UserPosition) (this : Place) : bool :=
  match getPhysicalDistance userPosition this with
  | Some distance => Qlt_bool distance (distanceToVisit this)
  | None => false
  end.

(** The callback bound in the constructor, run on the object behind
    reference [p]. *)
Definition Place_onUpdate (userPosition : UserPosition) (p : PlaceRef)
  : World → World := λ w,
  match heap w !! p with
  | Some this => if checkVisited userPosition this then set_visited p true w else w
  | None => w
  end.

End PlaceCallback.

(** ** Counting events *)

Definition isNavigationStarted (e : Event) : bool :=
  match e with
  | NavigationStarted _ => true
  | _ => false
  end.

Definition count (e : Event) (log : list Event) : nat :=
  length (filter (λ e', e' = e) log).

(** ** Reachable worlds *)

(** What the host and the other components can do to the world, one
    callback or API call at a time. *)
Inductive step (dist : GeoPosition → GeoPosition → Q) : World → World → Prop :=
  | step_construct w p o :
      heap w !! p = None →
      step dist w (set_heap (<[p := with_visited false o]> (heap w)) w)
  | step_onUpdate w up p :
      step dist w (Place_onUpdate dist up p w)
  | step_addPlace w p :
      step dist w (addPlace_present p w).1
  | step_removePlace w p :
      step dist w (removePlace p w).1
  | step_navigateToPlace w up place :
      step dist w (navigateToPlace up place w).1
  | step_update w up :
      step dist w (update up w).1.

Definition reachable (dist : GeoPosition → GeoPosition → Q) (w : World) : Prop :=
  rtc (step dist) (initial ∅) w.

(** Two worlds with the same heap, list and bookkeeping maps. *)
Record sameBook (w w' : World) : Prop := mkSameBook {
  sb_heap : heap w' = heap w;
  sb_places : _places w' = _places w;
  sb_placesAt : placesAt w' = placesAt w;
  sb_placesVisited : placesVisited w' = placesVisited w
}.

(** ** Invariants of the bookkeeping *)

(** [placesAt] and [placesVisited] cover exactly the registered places and
    agree; a place recorded as reached is visited; the places recorded as
    reached form an initial segment of the list. *)
Record Inv (w : World) : Prop := mkInv {
  inv_nodup : NoDup (_places w);
  inv_dom : ∀ p, p ∈ _places w ↔ is_Some (placesAt w !! p);
  inv_same : placesVisited w = placesAt w;
  inv_visited : ∀ p, placesAt w !! p = Some true → visited w p = true;
  inv_prefix : ∀ i p q,
    _places w !! i = Some p → _places w !! S i = Some q →
    placesAt w !! q = Some true → placesAt w !! p = Some true
}.

(** The sweep has seen the places below index [i] in their present state. *)
Definition SettledBelow (i : nat) (w : World) : Prop :=
  ∀ j p, j < i → _places w !! j = Some p → placesAt w !! p = Some (visited w p).

Definition Settled (w : World) : Prop :=
  ∀ p, p ∈ _places w → placesAt w !! p = Some (visited w p).

(** No waypoint is visited ahead of its predecessor. *)
Definition Sequential (w : World) : Prop :=
  ∀ i p q,
    _places w !! i = Some p → _places w !! S i = Some q →
    visited w q = true → visited w p = true.

Definition allPlacesVisited (w : World) : Prop :=
  ∀ p, p ∈ _places w → visited w p = true.

(** ** GeoLocationPlace: projection into the anchored frame

    The vector algebra of the host ([projectOnPlane], [normalize],
    quaternions) and the bearing helpers of the navigation utilities are
    parameters; sums and scalings of vectors are componentwise. *)

Definition vec3_add (a b : vec3) : vec3 :=
  mkVec3 (x a + x b)%Q (y a + y b)%Q (z a + z b)%Q.

Definition vec3_uniformScale (a : vec3) (k : Q) : vec3 :=
  mkVec3 (x a * k)%Q (y a * k)%Q (z a * k)%Q.

Definition vec3_with_y (a : vec3) (v : Q) : vec3 := mkVec3 (x a) v (z a).

(** A [null] operand of an arithmetic operator is converted to 0. *)
Definition toNumber (v : option Q) : Q := default 0%Q v.

Section Projection.

Variable getPhysicalDistanceBetweenLocations : GeoPosition → GeoPosition → Q.
Variable calculateBearing : option GeoPosition → GeoPosition → Q.
Variable normalizeAngle : Q → Q.
Variable projectOnPlane_up : vec3 → vec3.
Variable normalize : vec3 → vec3.
Variable quat : Type.
Variable quat_fromEulerAngles : Q → Q → Q → quat.
Variable quat_multiplyVec3 : quat → vec3 → vec3.

Definition GeoLocationPlace_getBearing (userPosition : UserPosition) (this : Place)
  : option Q :=
  if decide (status userPosition ≠ GeoLocalizationAvailable) then None
  else
    let userGeoPosition := getGeoPosition userPosition in
    let locationBearing := calculateBearing userGeoPosition (geoPosition this) in
    Some (normalizeAngle locationBearing).

Definition calculateRelativePosition (userPosition : UserPosition) (this : Place)
    (yOffset : Q) : option vec3 :=
  let userTransform := getRelativeTransform userPosition in
  let cameraForward := back userTransform in
  let userForward := normalize (projectOnPlane_up cameraForward) in
  let distance :=
    getPhysicalDistance getPhysicalDistanceBetweenLocations userPosition this in
  let bearing :=
    (toNumber (GeoLocationPlace_getBearing userPosition this)
     - getBearing userPosition)%Q in
  let pinAltitude := altitude (geoPosition this) in
  let userAltitude :=
    match getGeoPosition userPosition with
    | Some g => altitude g
    | None => 0%Q
    end in
  let projectedPosition :=
    vec3_add
      (vec3_add
         (getWorldPosition (getRelativeTransform userPosition))
         (vec3_uniformScale
            (quat_multiplyVec3 (quat_fromEulerAngles 0 (- bearing) 0) userForward)
            (toNumber distance * 100)))
      (mkVec3 0 (yOffset + (pinAltitude - userAltitude) * 100) 0) in
  Some (vec3_with_y projectedPosition (y (getWorldPosition userTransform))).

Definition getRelativePosition (userPosition : UserPosition) (this : Place)
  : option vec3 :=
  calculateRelativePosition userPosition this 0.

End Projection.

(** ** ManualPlaceList: registration of the authored waypoints *)

Module GeoPlaceInput.
Record t := mk {
  active : bool;
  latitude : string;
  longitude : string;
  label : string;
  distanceToActivate : Q
}.
End GeoPlaceInput.

Definition digitValue (c : ascii) : option Z :=
  let n := nat_of_ascii c in
  if (48 <=? n) && (n <=? 57) then Some (Z.of_nat (n - 48)) else None.

(** Reads a run of decimal digits: the value and the number of digits. *)
Fixpoint readDigits (acc : Z) (len : nat) (s : string) : option (Z * nat) :=
  match s with
  | EmptyString => Some (acc, len)
  | String c rest =>
      match digitValue c with
      | Some d => readDigits (acc * 10 + d)%Z (S len) rest
      | None => None
      end
  end.

(** Splits at the first full stop. *)
Fixpoint splitAtDot (s : string) : string * option string :=
  match s with
  | EmptyString => (EmptyString, None)
  | String c rest =>
      if Ascii.eqb c "."%char then (EmptyString, Some rest)
      else let (a, b) := splitAtDot rest in (String c a, b)
  end.

Definition parseUnsigned (s : string) : option Q :=
  let (whole, fraction) := splitAtDot s in
  match readDigits 0 0 whole with
  | Some (n, S _) =>
      match fraction with
      | None => Some (inject_Z n)
      | Some f =>
          match readDigits 0 0 f with
          | Some (m, k) => Some (inject_Z n + (m # Pos.of_nat (10 ^ k)))%Q
          | None => None
          end
      end
  | _ => None
  end.

(** A decimal numeral: an optional sign, digits, an optional fraction. *)
Definition parseNumber (s : string) : option Q :=
  match s with
  | String "-"%char rest => Qopp <$> parseUnsigned rest
  | String "+"%char rest => parseUnsigned rest
  | _ => parseUnsigned s
  end.

(** Modelled from the spec: [convertToNumber] of the navigation utilities,
    which is not among the sources.  "String lat/lon are parsed into floats
    at registration time; malformed strings must fail registration with a
    clear error rather than silently defaulting to 0."  A throw is the left
    injection, carrying the message. *)
Definition convertToNumber (s : string) : string + Q :=
  match parseNumber s with
  | Some q => inr q
  | None => inl ("Cannot convert to a number: " ++ s)%string
  end.

(** [new GeoLocationPlace(...)]: a fresh object, not yet visited. *)
Definition newGeoLocationPlace (geo : GeoPosition) (distanceToVisit : Q)
    (name : string) (w : World) : PlaceRef * World :=
  let p := fresh (dom (heap w)) in
  (p, set_heap (<[p := mkPlace name false geo distanceToVisit None]> (heap w)) w).

(** The result of a call that may throw: the world and the events up to
    the throw are kept. *)
Record Outcome := mkOutcome {
  thrown : option string;
  world : World;
  events : list Event
}.

(** The body of the [forEach] callback of [start] for one input. *)
Definition registerInput (m : GeoPlaceInput.t) (w : World) : Outcome :=
  if GeoPlaceInput.active m then
    match convertToNumber (GeoPlaceInput.longitude m) with
    | inl err => mkOutcome (Some err) w []
    | inr lon =>
        match convertToNumber (GeoPlaceInput.latitude m) with
        | inl err => mkOutcome (Some err) w []
        | inr lat =>
            let geoPosition := mkGeoPosition lat lon 0 in
            let (place, w1) :=
              newGeoLocationPlace geoPosition (GeoPlaceInput.distanceToActivate m)
                                  (GeoPlaceInput.label m) w in
            match addPlace (Some place) w1 with
            | inl err => mkOutcome (Some err) w1 []
            | inr (w2, evs) => mkOutcome None w2 evs
            end
        end
    end
  else mkOutcome None w [].

(** [ManualPlaceList.start]: the inputs in order; a throw ends the loop. *)
Fixpoint start (placeInputs : list GeoPlaceInput.t) (w : World) : Outcome :=
  match placeInputs with
  | [] => mkOutcome None w []
  | m :: rest =>
      let r := registerInput m w in
      match thrown r with
      | Some _ => r
      | None =>
          let r' := start rest (world r) in
          mkOutcome (thrown r') (world r') (events r ++ events r')
      end
  end.

(** ** Case analyses used by the proofs *)

(** The four things an iteration can do. *)
Inductive sweepStep_case (i : nat) (w : World) : World * list Event → Prop :=
  | sweep_nothing :
      (∀ p, _places w !! i = Some p → placesAt w !! p = Some (visited w p)) →
      sweepStep_case i w (w, [])
  | sweep_confirm p :
      _places w !! i = Some p →
      visited w p = true →
      placesAt w !! p ≠ Some true →
      (∀ j q, i = S j → _places w !! j = Some q → visited w q = true) →
      sweepStep_case i w
        (set_placesAt (<[p := true]> (placesAt w))
           (set_placesVisited (<[p := true]> (placesVisited w)) w),
         [ArrivedAtPlace p])
  | sweep_revert p j :
      _places w !! i = Some p →
      visited w p = true →
      placesAt w !! p ≠ Some true →
      i = S j →
      (∀ q, _places w !! j = Some q → visited w q = false) →
      sweepStep_case i w (set_visited p false w, [])
  | sweep_left p :
      _places w !! i = Some p →
      visited w p = false →
      placesAt w !! p ≠ Some false →
      sweepStep_case i w (set_placesAt (<[p := false]> (placesAt w)) w, []).

(** What no sweep changes. *)
Record sweepFrame (w w' : World) : Prop := mkSweepFrame {
  sf_places : _places w' = _places w;
  sf_status : _status w' = _status w;
  sf_selected : selectedPlace w' = selectedPlace w;
  sf_arrived : hasArrivedAtSelectedPlace w' = hasArrivedAtSelectedPlace w;
  sf_mono : ∀ q, visited w' q = true → visited w q = true;
  sf_outside : ∀ q, q ∉ _places w → visited w' q = visited w q;
  sf_threshold : ∀ q, activationThreshold w' q = activationThreshold w q
}.

(** The three outcomes of the completion check. *)
Inductive completionCheck_case (w : World) : World * list Event → Prop :=
  | completion_latched :
      emittedAllVisited w = true → completionCheck_case w (w, [])
  | completion_pending :
      emittedAllVisited w = false → allVisited (placesVisited w) = false →
      completionCheck_case w (w, [])
  | completion_fires :
      emittedAllVisited w = false → allVisited (placesVisited w) = true →
      completionCheck_case w (set_emittedAllVisited true w, [AllPlacesVisited]).

(** After the check, either the latch is set or some place is still
    recorded as not reached. *)
Definition completionSettled (w : World) : Prop :=
  emittedAllVisited w = true ∨ allVisited (placesVisited w) = false.


(** The world in which [update] leaves the selected-place block once the
    selected place is visited: nothing selected, the given status. *)
Definition parked (s : NavigationStatus) (w : World) : World :=
  set_status s (set_selectedPlace SelNull (set_hasArrivedAtSelectedPlace true w)).

Definition selectedNow (next : PlaceRef) (w : World) : World :=
  set_hasArrivedAtSelectedPlace false (set_selectedPlace (SelPlace next) w).

(** The four courses of an [update]. *)
Inductive update_case (up : UserPosition) (w : World) : World * list Event → Prop :=
  | update_case_unselected :
      (∀ sp, selectedPlace w ≠ SelPlace sp) →
      update_case up w (sweepAndCompletion w)
  | update_case_stay sp :
      selectedPlace w = SelPlace sp →
      visited (arrivalCheck up sp w).1 sp = false →
      update_case up w
        ((sweepAndCompletion (arrivalCheck up sp w).1).1,
         (arrivalCheck up sp w).2 ++ (sweepAndCompletion (arrivalCheck up sp w).1).2)
  | update_case_last sp :
      selectedPlace w = SelPlace sp →
      visited (arrivalCheck up sp w).1 sp = true →
      nextUnvisited (arrivalCheck up sp w).1 sp = None →
      update_case up w
        ((sweepAndCompletion (parked Succeeded (arrivalCheck up sp w).1)).1,
         (arrivalCheck up sp w).2 ++
         ArrivedAtPlace sp ::
         (sweepAndCompletion (parked Succeeded (arrivalCheck up sp w).1)).2)
  | update_case_next sp next :
      selectedPlace w = SelPlace sp →
      visited (arrivalCheck up sp w).1 sp = true →
      nextUnvisited (arrivalCheck up sp w).1 sp = Some next →
      update_case up w
        (selectedNow next
           (sweepAndCompletion (parked InProgress (arrivalCheck up sp w).1)).1,
         (arrivalCheck up sp w).2 ++
         ArrivedAtPlace sp ::
         (sweepAndCompletion (parked InProgress (arrivalCheck up sp w).1)).2 ++
         [NavigationStarted (Some next)]).

(** ** Scripts of host actions, for concrete runs *)

Inductive Command :=
  | Construct (p : PlaceRef) (o : Place)
  | OnUpdate (up : UserPosition) (p : PlaceRef)
  | AddPlace (p : PlaceRef)
  | RemovePlace (p : PlaceRef)
  | NavigateToPlace (up : UserPosition) (place : option PlaceRef)
  | Update (up : UserPosition).

Definition exec (dist : GeoPosition → GeoPosition → Q) (c : Command) (w : World)
  : World :=
  match c with
  | Construct p o =>
      match heap w !! p with
      | None => set_heap (<[p := with_visited false o]> (heap w)) w
      | Some _ => w
      end
  | OnUpdate up p => Place_onUpdate dist up p w
  | AddPlace p => (addPlace_present p w).1
  | RemovePlace p => (removePlace p w).1
  | NavigateToPlace up place => (navigateToPlace up place w).1
  | Update up => (update up w).1
  end.

Definition run (dist : GeoPosition → GeoPosition → Q) (script : list Command)
  : World → World :=
  λ w, foldl (λ w c, exec dist c w) w script.

(** The events a host action makes the controller emit. *)
Definition execEvents (c : Command) (w : World) : list Event :=
  match c with
  | Construct _ _ => []
  | OnUpdate _ _ => []
  | AddPlace p => (addPlace_present p w).2
  | RemovePlace p => (removePlace p w).2
  | NavigateToPlace up place => (navigateToPlace up place w).2
  | Update up => (update up w).2
  end.

Fixpoint runEvents (dist : GeoPosition → GeoPosition → Q) (script : list Command)
    (w : World) : list Event :=
  match script with
  | [] => []
  | c :: rest => execEvents c w ++ runEvents dist rest (exec dist c w)
  end.

(** The action registers no new place in [w]. *)
Definition registersNothing (c : Command) (w : World) : bool :=
  match c with
  | AddPlace p => includes (_places w) p
  | NavigateToPlace _ (Some p) => includes (_places w) p
  | _ => true
  end.

Fixpoint runRegistersNothing (dist : GeoPosition → GeoPosition → Q)
    (script : list Command) (w : World) : bool :=
  match script with
  | [] => true
  | c :: rest => registersNothing c w && runRegistersNothing dist rest (exec dist c w)
  end.

(** A stand-in for the great-circle distance in concrete runs: zero between
    equal coordinates. *)
Definition gridDistance (a b : GeoPosition) : Q :=
  (Qabs (latitude a - latitude b) + Qabs (longitude a - longitude b))%Q.

Definition origin : GeoPosition := mkGeoPosition 0 0 0.
Definition identityTransform : Transform :=
  mkTransform (mkVec3 0 0 1) (mkVec3 0 0 0).

(** Two waypoints of radius 10 at the same coordinates. *)
Definition refA : PlaceRef := 1%positive.
Definition refB : PlaceRef := 2%positive.
Definition refC : PlaceRef := 3%positive.
Definition placeA : Place := mkPlace "START" false origin 10 None.
Definition placeB : Place := mkPlace "FINISH" false origin 10 None.
Definition placeC : Place := mkPlace "C" false origin 10 None.

(** A user without a fix. *)
Definition userNoFix : UserPosition :=
  mkUserPosition None 0 GeoLocalizationUnavailable identityTransform (λ _, None).

(** A user 1000 m from every waypoint. *)
Definition userFar : UserPosition :=
  mkUserPosition (Some (mkGeoPosition 1000 0 0)) 0 GeoLocalizationAvailable
                 identityTransform (λ _, Some 1000%Q).

(** A user standing on the shared coordinates of the waypoints. *)
Definition userOnSpot : UserPosition :=
  mkUserPosition (Some origin) 0 GeoLocalizationAvailable
                 identityTransform (λ _, Some 0%Q).

(** A user 5 m from A and 1000 m from everything else. *)
Definition userNearA : UserPosition :=
  mkUserPosition (Some (mkGeoPosition 1000 0 0)) 0 GeoLocalizationAvailable
                 identityTransform
                 (λ p, if decide (p = refA) then Some 5%Q else Some 1000%Q).

(** A user 10 m from every waypoint: exactly at the default threshold and
    at the radius of the waypoints above. *)
Definition userAtLimit : UserPosition :=
  mkUserPosition (Some (mkGeoPosition 10 0 0)) 0 GeoLocalizationAvailable
                 identityTransform (λ _, Some 10%Q).

(** A and B registered in this order, nothing selected. *)
Definition twoRegistered : World :=
  run gridDistance [Construct refA placeA; Construct refB placeB;
                    AddPlace refA; AddPlace refB] (initial ∅).

(** The same with A selected. *)
Definition twoWithASelected : World :=
  run gridDistance [NavigateToPlace userFar (Some refA)] twoRegistered.

(** A and B registered, B selected while A is unvisited. *)
Definition twoWithBSelected : World :=
  run gridDistance [NavigateToPlace userFar (Some refB)] twoRegistered.

(** The bookkeeping of a confirmed arrival. *)
Definition confirmed (p : PlaceRef) (w : World) : World :=
  set_placesAt (<[p := true]> (placesAt w))
    (set_placesVisited (<[p := true]> (placesVisited w)) w).

(** Three authored waypoints; the second has a malformed longitude. *)
Definition inputStart : GeoPlaceInput.t :=
  GeoPlaceInput.mk true "50.4501" "30.5234" "START" 10.
Definition inputFinish : GeoPlaceInput.t :=
  GeoPlaceInput.mk true "50.4520" "30.5250" "FINISH" 10.

(** ** The frame loop

    Every frame the dispatcher runs the callbacks bound to its update
    event: the controller's [update] (bound in [onAwake]) and the callback
    of every constructed place (bound in the constructor of [Place]).  The
    order among them is the dispatcher's: a frame lists the places whose
    callback runs before the controller's and those whose callback runs
    after it. *)

Record Frame := mkFrame {
  frameUser : UserPosition;
  before : list PlaceRef;
  after : list PlaceRef
}.

(** The callbacks of the places [ps], in this order. *)
Definition callbacks (dist : GeoPosition → GeoPosition → Q) (up : UserPosition)
    (ps : list PlaceRef) : Op :=
  λ w, (foldl (λ w p, Place_onUpdate dist up p w) w ps, []).

Definition frame (dist : GeoPosition → GeoPosition → Q) (f : Frame) : Op :=
  callbacks dist (frameUser f) (before f) >>>
  update (frameUser f) >>>
  callbacks dist (frameUser f) (after f).

Fixpoint frames (dist : GeoPosition → GeoPosition → Q) (fs : list Frame) : Op :=
  match fs with
  | [] => skip
  | f :: rest => frame dist f >>> frames dist rest
  end.

(** The user is within the controller's threshold of [p]. *)
Definition withinThreshold (w : World) (up : UserPosition) (p : PlaceRef) : Prop :=
  ∃ d, getDistanceTo up p = Some d ∧ Qle_bool d (activationThreshold w p) = true.

(** The user is within the place's own radius: its callback marks it. *)
Definition inRadius (dist : GeoPosition → GeoPosition → Q) (up : UserPosition)
    (w : World) (p : PlaceRef) : bool :=
  match heap w !! p with
  | Some o => checkVisited dist up o
  | None => false
  end.

(** The place's own callback marks it before the controller's update of
    the frame runs. *)
Definition ownMark (dist : GeoPosition → GeoPosition → Q) (w : World)
    (f : Frame) (p : PlaceRef) : bool :=
  bool_decide (p ∈ before f) && inRadius dist (frameUser f) w p.

(** What follows the arrivals of one frame of a walk: the selection of the
    next place, or the completion event. *)
Definition walkTail (rest : list PlaceRef) : list Event :=
  match rest with
  | [] => [AllPlacesVisited]
  | q :: _ => [NavigationStarted (Some q)]
  end.

(** The events of a walk along [l], one place per frame: the arrival is
    announced three times when the controller's own test marks the place,
    and twice when the place's callback has marked it earlier in the
    frame. *)
Fixpoint walkEvents (dist : GeoPosition → GeoPosition → Q) (w : World)
    (fs : list Frame) (l : list PlaceRef) : list Event :=
  match fs, l with
  | f :: fs', p :: rest =>
      (if ownMark dist w f p then [] else [ArrivedAtPlace p]) ++
      [ArrivedAtPlace p; ArrivedAtPlace p] ++
      walkTail rest ++ walkEvents dist w fs' rest
  | _, _ => []
  end.

(** Two worlds whose objects differ in their visited flags only. *)
Definition sameObjects (w w' : World) : Prop :=
  ∀ p, with_visited false <$> heap w' !! p = with_visited false <$> heap w !! p.

(** A walk in progress: the places of [behind] are visited and confirmed,
    those of [ahead] are objects not yet confirmed, all but the first of
    them unvisited, and the first of them is selected. *)
Record Walking (behind ahead : list PlaceRef) (w : World) : Prop := mkWalking {
  wk_inv : Inv w;
  wk_places : _places w = behind ++ ahead;
  wk_behind : ∀ p, p ∈ behind → visited w p = true ∧ placesAt w !! p = Some true;
  wk_ahead : ∀ p, p ∈ ahead → is_Some (heap w !! p) ∧ placesAt w !! p = Some false;
  wk_rest : ∀ p, p ∈ tail ahead → visited w p = false;
  wk_selected : ∀ sp, head ahead = Some sp → selectedPlace w = SelPlace sp;
  wk_emitted : emittedAllVisited w = false
}.

(** The end of a walk. *)
Record Completed (w : World) : Prop := mkCompleted {
  cp_status : _status w = Succeeded;
  cp_selected : selectedPlace w = SelNull;
  cp_visited : allPlacesVisited w;
  cp_emitted : emittedAllVisited w = true
}.

(** ** MapPin: the visited state of a minimap pin

    The pin of a waypoint on the minimap.  Of the scene only what the
    visited-state methods read and write is kept: the materials, which are
    host objects held by reference, the main material of the pin's image
    and of its outline image, and the enabled flag and the scale of the
    pin's scene object.  [Material.clone] is taken to return a new
    material with a main pass of its own. *)

Module MapPin.

Abbreviation MaterialRef := positive.

Record vec4 := mkVec4 { v4x : Q; v4y : Q; v4z : Q; v4w : Q }.

Record Pass := mkPass { baseColor : vec4 }.

(** A material: its main pass, when it has one. *)
Record Material := mkMaterial { mainPass : option Pass }.

(** An image component: its main material, when one is assigned. *)
Record Image := mkImage { mainMaterial : option MaterialRef }.

Record t := mk {
  isUser : bool;
  _isVisited : bool;
  _isNextActive : bool;
  originalMaterial : option MaterialRef;
  visitedMaterial : option MaterialRef;
  hiddenScale : vec3;
  normalScale : vec3;
  sceneObject_enabled : bool;
  screenTransform_scale : vec3;
  place : option PlaceRef;
  imageComponent : option Image;
  outlineImageComponent : option Image;
  (* the materials of the scene *)
  materials : gmap MaterialRef Material
}.

Inductive PinEvent :=
  | VisitedEvent.

Definition set_isVisited (b : bool) (this : t) : t :=
  mk (isUser this) b (_isNextActive this) (originalMaterial this)
     (visitedMaterial this) (hiddenScale this) (normalScale this)
     (sceneObject_enabled this) (screenTransform_scale this) (place this)
     (imageComponent this) (outlineImageComponent this) (materials this).

Definition set_isNextActive (b : bool) (this : t) : t :=
  mk (isUser this) (_isVisited this) b (originalMaterial this)
     (visitedMaterial this) (hiddenScale this) (normalScale this)
     (sceneObject_enabled this) (screenTransform_scale this) (place this)
     (imageComponent this) (outlineImageComponent this) (materials this).

Definition set_originalMaterial (m : option MaterialRef) (this : t) : t :=
  mk (isUser this) (_isVisited this) (_isNextActive this) m
     (visitedMaterial this) (hiddenScale this) (normalScale this)
     (sceneObject_enabled this) (screenTransform_scale this) (place this)
     (imageComponent this) (outlineImageComponent this) (materials this).

Definition set_visitedMaterial (m : option MaterialRef) (this : t) : t :=
  mk (isUser this) (_isVisited this) (_isNextActive this) (originalMaterial this)
     m (hiddenScale this) (normalScale this)
     (sceneObject_enabled this) (screenTransform_scale this) (place this)
     (imageComponent this) (outlineImageComponent this) (materials this).

Definition set_sceneObject (enabled : bool) (scale : vec3) (this : t) : t :=
  mk (isUser this) (_isVisited this) (_isNextActive this) (originalMaterial this)
     (visitedMaterial this) (hiddenScale this) (normalScale this)
     enabled scale (place this)
     (imageComponent this) (outlineImageComponent this) (materials this).

Definition set_imageComponent (i : option Image) (this : t) : t :=
  mk (isUser this) (_isVisited this) (_isNextActive this) (originalMaterial this)
     (visitedMaterial this) (hiddenScale this) (normalScale this)
     (sceneObject_enabled this) (screenTransform_scale this) (place this)
     i (outlineImageComponent this) (materials this).

Definition set_outlineImageComponent (i : option Image) (this : t) : t :=
  mk (isUser this) (_isVisited this) (_isNextActive this) (originalMaterial this)
     (visitedMaterial this) (hiddenScale this) (normalScale this)
     (sceneObject_enabled this) (screenTransform_scale this) (place this)
     (imageComponent this) i (materials this).

Definition set_materials (s : gmap MaterialRef Material) (this : t) : t :=
  mk (isUser this) (_isVisited this) (_isNextActive this) (originalMaterial this)
     (visitedMaterial this) (hiddenScale this) (normalScale this)
     (sceneObject_enabled this) (screenTransform_scale this) (place this)
     (imageComponent this) (outlineImageComponent this) s.

(** [m.clone()]: a new material with the contents of [m]. *)
Definition clone (m : MaterialRef) (s : gmap MaterialRef Material)
  : MaterialRef * gmap MaterialRef Material :=
  let copy := fresh (dom s) in
  (copy, match s !! m with
         | Some material => <[copy := material]> s
         | None => s
         end).

(** [if (m.mainPass) { m.mainPass.baseColor = c }] *)
Definition setBaseColor (m : MaterialRef) (c : vec4)
    (s : gmap MaterialRef Material) : gmap MaterialRef Material :=
  alter (λ material,
           match mainPass material with
           | Some _ => mkMaterial (Some (mkPass c))
           | None => material
           end) m s.

Definition green : vec4 := mkVec4 0 (4 # 5) 0 1.
Definition lightGreen : vec4 := mkVec4 0 1 0 1.

Definition isVisited (this : t) : bool := _isVisited this.

Definition applyVisitedAppearance (this : t) : t :=
  match imageComponent this with
  | Some (mkImage (Some current)) =>
      let this :=
        match originalMaterial this with
        | None => set_originalMaterial (Some current) this
        | Some _ => this
        end in
      let this :=
        match visitedMaterial this, originalMaterial this with
        | None, Some original =>
            let (copy, s) := clone original (materials this) in
            set_visitedMaterial (Some copy)
              (set_materials (setBaseColor copy green s) this)
        | _, _ => this
        end in
      let this := set_imageComponent (Some (mkImage (visitedMaterial this))) this in
      match outlineImageComponent this with
      | Some (mkImage (Some outline)) =>
          let (outlineMaterial, s) := clone outline (materials this) in
          set_outlineImageComponent (Some (mkImage (Some outlineMaterial)))
            (set_materials (setBaseColor outlineMaterial lightGreen s) this)
      | _ => this
      end
  | _ => this
  end.

Definition resetToOriginalAppearance (this : t) : t :=
  match originalMaterial this, imageComponent this with
  | Some original, Some _ =>
      set_imageComponent (Some (mkImage (Some original))) this
  | _, _ => this
  end.

Definition setVisited (visited : bool) (this : t) : t * list PinEvent :=
  if bool_decide (_isVisited this = visited) then (this, [])
  else
    let this := set_isVisited visited this in
    if visited then (applyVisitedAppearance this, [VisitedEvent])
    else (resetToOriginalAppearance this, []).

(** [updateVisitedState], reading the waypoint of the pin in [w]. *)
Definition updateVisitedState (w : World) (this : t) : t * list PinEvent :=
  match place this with
  | Some p =>
      if bool_decide (visited w p ≠ _isVisited this)
      then setVisited (visited w p) this
      else (this, [])
  | None => (this, [])
  end.

(** [setNextActive(isActive, false)].  The animated variant hands the
    scale to a tween of the host and is not modelled. *)
Definition setNextActive (isActive : bool) (this : t) : t :=
  let this := set_isNextActive isActive this in
  if isActive || _isVisited this
  then set_sceneObject true (normalScale this) this
  else set_sceneObject false (hiddenScale this) this.

Definition shouldBeVisible (this : t) : bool :=
  _isVisited this || _isNextActive this || isUser this.

End MapPin.

(** A pin for waypoint A as [makeMapPin] leaves it: not visited, no
    material remembered, an image with material 1 and an outline with
    material 2, both white. *)
Definition white : MapPin.vec4 := MapPin.mkVec4 1 1 1 1.

Definition pinA : MapPin.t :=
  MapPin.mk false false false None None (mkVec3 0 0 0) (mkVec3 1 1 1)
    true (mkVec3 1 1 1) (Some refA)
    (Some (MapPin.mkImage (Some 1%positive)))
    (Some (MapPin.mkImage (Some 2%positive)))
    (<[1%positive := MapPin.mkMaterial (Some (MapPin.mkPass white))]>
       (<[2%positive := MapPin.mkMaterial (Some (MapPin.mkPass white))]> ∅)).

(** ** WorldController: the waypoint objects in the scene

    The controller of the spawned waypoint objects listens to the events
    of the navigation component.  Of a spawned object the model keeps what
    the controller reads and writes: the text of the Text3D component its
    search finds, the names of the tweens of its "TweenController" child
    that can be started, and the local position of its transform.  The
    spawning of the objects is not modelled. *)

(** [vec3.lerp] of the host: linear interpolation, by component. *)
Definition vec3_lerp (a b : vec3) (t : Q) : vec3 :=
  mkVec3 (x a + (x b - x a) * t)%Q (y a + (y b - y a) * t)%Q
         (z a + (z b - z a) * t)%Q.

Module WorldController.

Abbreviation InstanceRef := positive.

Record Instance := mkInstance {
  (* the text of the Text3D component found on the object, a child or a
     grandchild, if there is one *)
  text3D : option string;
  (* the [tweenName]s of the startable components of the child named
     "TweenController" *)
  tweens : list string;
  (* [getTransform().getLocalPosition()] *)
  localPosition : vec3
}.

(** A call of [startTween] on the tween [chainName] of an object. *)
Inductive Effect :=
  | StartTween (instance : InstanceRef) (chainName : string).

Record t := mk {
  smoothingFactor : Q;
  spawnedPlaces : gmap PlaceRef InstanceRef;
  lastVisitedIndex : Z;
  placeStatusMap : gmap InstanceRef string;
  (* the spawned objects of the scene *)
  scene : gmap InstanceRef Instance
}.

Definition set_lastVisitedIndex (i : Z) (this : t) : t :=
  mk (smoothingFactor this) (spawnedPlaces this) i (placeStatusMap this) (scene this).

Definition set_placeStatusMap (m : gmap InstanceRef string) (this : t) : t :=
  mk (smoothingFactor this) (spawnedPlaces this) (lastVisitedIndex this) m (scene this).

Definition set_scene (s : gmap InstanceRef Instance) (this : t) : t :=
  mk (smoothingFactor this) (spawnedPlaces this) (lastVisitedIndex this)
     (placeStatusMap this) s.

(** [place.name] *)
Definition placeName (w : World) (p : PlaceRef) : string :=
  match heap w !! p with
  | Some o => _name o
  | None => EmptyString
  end.

Definition setPlaceText (instance : InstanceRef) (text : string) (this : t) : t :=
  set_scene
    (alter (λ o, match text3D o with
                 | Some _ => mkInstance (Some text) (tweens o) (localPosition o)
                 | None => o
                 end) instance (scene this)) this.

(** [transform.setLocalPosition(vec3.lerp(transform.getLocalPosition(),
    rel, this.smoothingFactor))] on the transform of [instance]. *)
Definition moveTowards (instance : InstanceRef) (rel : vec3) (this : t) : t :=
  set_scene
    (alter (λ o, mkInstance (text3D o) (tweens o)
                   (vec3_lerp (localPosition o) rel (smoothingFactor this)))
           instance (scene this)) this.

Definition triggerTweenChain (instance : InstanceRef) (chainName : string)
    (this : t) : list Effect :=
  match scene this !! instance with
  | Some o =>
      if bool_decide (chainName ∈ tweens o)
      then [StartTween instance chainName] else []
  | None => []
  end.

(** [if (instance) { triggerTweenChain(instance, s); setPlaceText(instance, s) }] *)
Definition announce (instance : option InstanceRef) (status : string)
    (this : t) : t * list Effect :=
  match instance with
  | Some i => (setPlaceText i status this, triggerTweenChain i status this)
  | None => (this, [])
  end.

Definition onArrivedAtPlace (w : World) (place : PlaceRef) (this : t)
  : t * list Effect :=
  let places := _places w in
  let currentIndex := indexOf places place in
  let r1 :=
    if (0 <=? lastVisitedIndex this)%Z
       && (lastVisitedIndex this <? Z.of_nat (length places))%Z
    then announce (at_index places (lastVisitedIndex this)
                     ≫= λ p, spawnedPlaces this !! p) "onPassed" this
    else (this, []) in
  let r2 :=
    if (currentIndex + 1 <? Z.of_nat (length places))%Z then
      let r := announce (at_index places (currentIndex + 1)
                           ≫= λ p, spawnedPlaces r1.1 !! p) "onSpawn" r1.1 in
      let r' := announce (spawnedPlaces r.1 !! place) "onVisited" r.1 in
      (r'.1, r.2 ++ r'.2)
    else announce (spawnedPlaces r1.1 !! place) "onPassed" r1.1 in
  (set_lastVisitedIndex currentIndex r2.1, r1.2 ++ r2.2).

(** The status of the waypoint at [index]. *)
Definition statusAt (lastVisitedIndex : Z) (index : nat) (name : string) : string :=
  if (Z.of_nat index <? lastVisitedIndex)%Z then "onPassed"
  else if (Z.of_nat index =? lastVisitedIndex)%Z then "onVisited"
  else if (Z.of_nat index =? lastVisitedIndex + 1)%Z then "onSpawn"
  else name.

Definition isChain (status : string) : bool :=
  bool_decide (status = "onPassed" ∨ status = "onVisited" ∨ status = "onSpawn").

(** The callback of the [forEach] of [updateWaypointVisibility];
    [getRelativePosition] is what [place.getRelativePosition()] returns
    during the call. *)
Definition visibilityStep (getRelativePosition : PlaceRef → option vec3)
    (w : World) (index : nat) (place : PlaceRef) (this : t) : t * list Effect :=
  match spawnedPlaces this !! place with
  | None => (this, [])
  | Some instance =>
      let this :=
        match getRelativePosition place with
        | Some rel => moveTowards instance rel this
        | None => this
        end in
      let status := statusAt (lastVisitedIndex this) index (placeName w place) in
      let this := setPlaceText instance (placeName w place) this in
      if bool_decide (placeStatusMap this !! instance ≠ Some status) then
        (set_placeStatusMap (<[instance := status]> (placeStatusMap this)) this,
         if isChain status then triggerTweenChain instance status this else [])
      else (this, [])
  end.

Fixpoint visibilityLoop (getRelativePosition : PlaceRef → option vec3)
    (w : World) (index : nat) (places : list PlaceRef) (this : t)
  : t * list Effect :=
  match places with
  | [] => (this, [])
  | place :: rest =>
      let r := visibilityStep getRelativePosition w index place this in
      let r' := visibilityLoop getRelativePosition w (S index) rest r.1 in
      (r'.1, r.2 ++ r'.2)
  end.

(** [updateWaypointVisibility], which is also [onUpdate] and
    [onNavigationStarted]. *)
Definition updateWaypointVisibility (getRelativePosition : PlaceRef → option vec3)
    (w : World) (this : t) : t * list Effect :=
  visibilityLoop getRelativePosition w 0 (_places w) this.

End WorldController.

(** Objects 1 and 2 spawned for A and B, each with a text component and
    the three tweens, at the origin; no arrival handled yet. *)
Definition waypointObject : WorldController.Instance :=
  WorldController.mkInstance (Some EmptyString) ["onSpawn"; "onVisited"; "onPassed"]
    (mkVec3 0 0 0).

Definition controllerAB : WorldController.t :=
  WorldController.mk (1 # 10)
    (<[refA := 1%positive]> (<[refB := 2%positive]> ∅)) (-1) ∅
    (<[1%positive := waypointObject]> (<[2%positive := waypointObject]> ∅)).

(** * Properties *)

(** ** Reading and writing the visited flag *)

Lemma visited_set_visited_ne p q b w :
  q ≠ p → visited (set_visited p b w) q = visited w q.
Proof.
  intros Hne. unfold visited, set_visited; simpl.
  by rewrite lookup_alter_ne.
Qed.

Lemma visited_set_visited_false p q w :
  visited (set_visited p false w) q = if decide (q = p) then false else visited w q.
Proof.
  destruct (decide (q = p)) as [->|Hne]; [|by apply visited_set_visited_ne].
  unfold visited, set_visited; simpl.
  rewrite lookup_alter_eq. by destruct (heap w !! p).
Qed.

Lemma visited_set_visited_true p o w :
  heap w !! p = Some o → visited (set_visited p true w) p = true.
Proof.
  intros Ho. unfold visited, set_visited; simpl.
  by rewrite lookup_alter_eq, Ho.
Qed.

Lemma visited_set_visited_mono p q w :
  visited w q = true → visited (set_visited p true w) q = true.
Proof.
  intros Hq. destruct (decide (q = p)) as [->|Hne].
  - unfold visited in Hq. destruct (heap w !! p) as [o|] eqn:Ho; [|done].
    by eapply visited_set_visited_true.
  - by rewrite visited_set_visited_ne.
Qed.

Lemma activationThreshold_set_visited p b q w :
  activationThreshold (set_visited p b w) q = activationThreshold w q.
Proof.
  unfold activationThreshold, set_visited; simpl.
  destruct (decide (q = p)) as [->|Hne].
  - rewrite lookup_alter_eq. by destruct (heap w !! p).
  - by rewrite lookup_alter_ne.
Qed.

(** ** Array helpers *)

Lemma indexOf_absent l p : p ∉ l → indexOf l p = (-1)%Z.
Proof.
  intros Hp. unfold indexOf.
  destruct (list_find _ l) as [[i q]|] eqn:Hf; [|done].
  apply list_find_Some in Hf as (Hi & -> & _).
  exfalso. apply Hp. by eapply list_elem_of_lookup_2.
Qed.

Lemma indexOf_lookup l i p :
  NoDup l → l !! i = Some p → indexOf l p = Z.of_nat i.
Proof.
  intros Hnd Hi. unfold indexOf.
  destruct (list_find _ l) as [[j q]|] eqn:Hf.
  - apply list_find_Some in Hf as (Hj & -> & _).
    f_equal. eapply NoDup_lookup; eauto.
  - apply list_find_None in Hf.
    rewrite Forall_forall in Hf. exfalso.
    eapply (Hf p); [|done]. by eapply list_elem_of_lookup_2.
Qed.

Lemma at_index_negative l i : (i < 0)%Z → at_index l i = None.
Proof. intros Hi. unfold at_index. by rewrite (proj2 (Z.ltb_lt _ _) Hi). Qed.

Lemma at_index_of_nat l i : at_index l (Z.of_nat i) = l !! i.
Proof.
  unfold at_index. destruct (Z.ltb_spec (Z.of_nat i) 0); [lia|].
  by rewrite Nat2Z.id.
Qed.

Lemma nextUnvisited_Some w sp q :
  nextUnvisited w sp = Some q → q ∈ _places w ∧ visited w q = false.
Proof.
  unfold nextUnvisited. intros Hf.
  apply find_some in Hf as [Hin Hv].
  split.
  - apply list_elem_of_In in Hin. eapply subseteq_drop, Hin.
  - by apply negb_true_iff.
Qed.

Lemma nextUnvisited_None w sp :
  nextUnvisited w sp = None →
  ∀ j q, (indexOf (_places w) sp < Z.of_nat j)%Z →
         _places w !! j = Some q → visited w q = true.
Proof.
  unfold nextUnvisited. intros Hf j q Hlt Hj.
  pose proof (find_none _ _ Hf q) as Hq.
  apply negb_false_iff, Hq, list_elem_of_In.
  apply list_elem_of_lookup.
  exists (j - Z.to_nat (indexOf (_places w) sp + 1)).
  rewrite lookup_drop. rewrite <- Hj. f_equal. lia.
Qed.

(** ** The sweep, one iteration at a time *)

Lemma sweepStep_cases i w : sweepStep_case i w (sweepStep i w).
Proof.
  unfold sweepStep, andThen, invoke, modify; simpl.
  destruct (_places w !! i) as [p|] eqn:Hp.
  2:{ apply sweep_nothing. intros; congruence. }
  case_bool_decide as Hat.
  { apply sweep_nothing. intros q Hq. by simplify_eq. }
  destruct (visited w p) eqn:Hv.
  - destruct i as [|j].
    + by apply sweep_confirm.
    + destruct (_places w !! j) as [q|] eqn:Hq.
      * destruct (visited w q) eqn:Hvq.
        -- apply sweep_confirm; try done. intros ? ? [= <-] ?. congruence.
        -- eapply sweep_revert; try done. intros ? ?. congruence.
      * eapply sweep_revert; try done. intros; congruence.
  - by apply sweep_left.
Qed.

Lemma sweepFrame_refl w : sweepFrame w w.
Proof. by constructor. Qed.

Lemma sweepFrame_trans w1 w2 w3 :
  sweepFrame w1 w2 → sweepFrame w2 w3 → sweepFrame w1 w3.
Proof.
  intros [] []. constructor; try congruence.
  - auto.
  - intros q Hq. rewrite sf_outside1; [auto|congruence].
Qed.

Lemma sweepStep_frame i w : sweepFrame w (sweepStep i w).1.
Proof.
  destruct (sweepStep_cases i w) as [?|p Hp Hv Hat Hprev|p j Hp Hv Hat -> Hprev|p Hp Hv Hat];
    simpl; try by constructor.
  constructor; try done.
  - intros q. rewrite visited_set_visited_false. by case_decide.
  - intros q Hq. apply visited_set_visited_ne. intros ->.
    apply Hq. by eapply list_elem_of_lookup_2.
  - intros q. apply activationThreshold_set_visited.
Qed.

Lemma sweepLoop_frame n i w : sweepFrame w (sweepLoop n i w).1.
Proof.
  revert i w. induction n as [|n IH]; intros i w; simpl.
  - apply sweepFrame_refl.
  - eapply sweepFrame_trans; [apply (sweepStep_frame i)|apply IH].
Qed.

Lemma sweep_frame w : sweepFrame w (sweep w).1.
Proof. apply sweepLoop_frame. Qed.

Lemma sweepStep_events i w e :
  e ∈ (sweepStep i w).2 →
  ∃ p, e = ArrivedAtPlace p ∧ _places w !! i = Some p ∧ visited w p = true
       ∧ ∀ j q, i = S j → _places w !! j = Some q → visited w q = true.
Proof.
  destruct (sweepStep_cases i w) as [?|p Hp Hv Hat Hprev|p j Hp Hv Hat -> Hprev|p Hp Hv Hat];
    simpl; intros He; try by apply elem_of_nil in He.
  apply list_elem_of_singleton in He as ->. eauto.
Qed.

Lemma sweepLoop_events_arrived n i w e :
  e ∈ (sweepLoop n i w).2 → ∃ p, e = ArrivedAtPlace p ∧ p ∈ _places w.
Proof.
  revert i w. induction n as [|n IH]; intros i w; simpl.
  - intros He. by apply elem_of_nil in He.
  - intros [He|He]%elem_of_app.
    + apply sweepStep_events in He as (p & -> & Hp & _).
      exists p. split; [done|]. by eapply list_elem_of_lookup_2.
    + apply IH in He as (p & -> & Hp). exists p. split; [done|].
      by rewrite (sf_places _ _ (sweepStep_frame i w)) in Hp.
Qed.

(** ** The sweep keeps the bookkeeping invariant and settles every place *)

Lemma sweepStep_inv i w :
  Inv w → SettledBelow i w →
  Inv (sweepStep i w).1 ∧ SettledBelow (S i) (sweepStep i w).1.
Proof.
  intros HI HS.
  destruct (sweepStep_cases i w) as [Hn|p Hp Hv Hat Hprev|p j Hp Hv Hat -> Hprev|p Hp Hv Hat];
    simpl.
  - split; [done|]. intros j p Hj Hp.
    destruct (decide (j = i)) as [->|]; [by apply Hn|]. apply HS with j; [lia|done].
  - assert (Hpin : p ∈ _places w) by by eapply list_elem_of_lookup_2.
    split.
    + constructor; simpl.
      * apply HI.
      * intros r. rewrite (inv_dom _ HI r).
        destruct (decide (r = p)) as [->|Hne].
        -- rewrite lookup_insert_eq. split; [eauto|]. intros _. by apply (inv_dom _ HI).
        -- by rewrite lookup_insert_ne.
      * by rewrite (inv_same _ HI).
      * intros r. destruct (decide (r = p)) as [->|Hne].
        -- done.
        -- rewrite lookup_insert_ne by done. apply HI.
      * intros k a b Ha Hb.
        destruct (decide (b = p)) as [->|Hbp].
        -- pose proof (NoDup_lookup _ _ _ _ (inv_nodup _ HI) Hb Hp) as <-.
           intros _. assert (a ≠ p) as Hap.
           { intros ->. pose proof (NoDup_lookup _ _ _ _ (inv_nodup _ HI) Ha Hp). lia. }
           rewrite lookup_insert_ne by done.
           rewrite (HS k a); [|lia|done]. f_equal. by eapply Hprev.
        -- rewrite lookup_insert_ne by done. intros Hb'.
           destruct (decide (a = p)) as [->|Hap]; [by rewrite lookup_insert_eq|].
           rewrite lookup_insert_ne by done. by eapply (inv_prefix _ HI).
    + intros j r Hj Hr. simpl in *. unfold visited; simpl. fold (visited w r).
      destruct (decide (r = p)) as [->|Hne].
      * by rewrite lookup_insert_eq, Hv.
      * rewrite lookup_insert_ne by done. apply HS with j; [|done].
        destruct (decide (j = i)) as [->|]; [congruence|lia].
  - assert (Hpin : p ∈ _places w) by by eapply list_elem_of_lookup_2.
    apply (inv_dom _ HI) in Hpin as [b Hb].
    assert (b = false) as -> by (destruct b; congruence).
    split.
    + constructor; simpl; try apply HI.
      intros r Hr. rewrite visited_set_visited_false.
      case_decide as Hrp; [congruence|]. by apply HI.
    + intros k r Hk Hr. simpl in *. rewrite visited_set_visited_false.
      case_decide as Hrp; [by subst|].
      apply HS with k; [|done].
      destruct (decide (k = S j)) as [->|]; [congruence|lia].
  - exfalso.
    assert (Hpin : p ∈ _places w) by by eapply list_elem_of_lookup_2.
    apply (inv_dom _ HI) in Hpin as [b Hb].
    destruct b; [|congruence].
    apply (inv_visited _ HI) in Hb. congruence.
Qed.

Lemma sweepLoop_inv n i w :
  Inv w → SettledBelow i w →
  Inv (sweepLoop n i w).1 ∧ SettledBelow (i + n) (sweepLoop n i w).1.
Proof.
  revert i w. induction n as [|n IH]; intros i w HI HS; simpl.
  - by rewrite Nat.add_0_r.
  - destruct (sweepStep_inv i w HI HS) as [HI' HS'].
    destruct (IH (S i) _ HI' HS') as [HI'' HS''].
    split; [done|]. by replace (i + S n) with (S i + n) by lia.
Qed.

Lemma sweep_inv w : Inv w → Inv (sweep w).1 ∧ Settled (sweep w).1.
Proof.
  intros HI. unfold sweep.
  destruct (sweepLoop_inv (length (_places w)) 0 w HI) as [HI' HS'].
  { intros j p Hj. lia. }
  split; [done|]. intros p Hp.
  apply list_elem_of_lookup in Hp as [j Hj].
  apply HS' with j; [|done].
  apply lookup_lt_Some in Hj.
  by rewrite (sf_places _ _ (sweepLoop_frame _ _ _)) in Hj.
Qed.

Lemma settled_sequential w : Inv w → Settled w → Sequential w.
Proof.
  intros HI HS i p q Hp Hq Hv.
  apply (inv_visited _ HI). apply (inv_prefix _ HI i p q Hp Hq).
  rewrite (HS q), Hv; [done|]. by eapply list_elem_of_lookup_2.
Qed.

(** A settled world is a fixed point of the sweep. *)
Lemma sweepLoop_settled n i w : Settled w → sweepLoop n i w = (w, []).
Proof.
  intros HS. revert i. induction n as [|n IH]; intros i; simpl; [done|].
  assert (sweepStep i w = (w, [])) as Hstep.
  { unfold sweepStep. destruct (_places w !! i) as [p|] eqn:Hp; [|done].
    rewrite bool_decide_true; [done|]. apply HS. by eapply list_elem_of_lookup_2. }
  unfold andThen. rewrite Hstep. simpl. by rewrite IH.
Qed.

(** ** Worlds that differ in control fields only *)

Lemma andThen_pair (a b : Op) w w1 e1 w2 e2 :
  a w = (w1, e1) → b w1 = (w2, e2) → (a >>> b) w = (w2, e1 ++ e2).
Proof. intros Ha Hb. unfold andThen. by rewrite Ha; simpl; rewrite Hb. Qed.

Lemma sameBook_refl w : sameBook w w.
Proof. by constructor. Qed.

Lemma visited_sameBook w w' : sameBook w w' → ∀ p, visited w' p = visited w p.
Proof. intros [] p. unfold visited. by rewrite sb_heap0. Qed.

Lemma Inv_sameBook w w' : sameBook w w' → Inv w → Inv w'.
Proof.
  intros Hb HI. pose proof (visited_sameBook _ _ Hb) as Hv.
  destruct Hb as [Hh Hp Ha Hvs], HI as [H1 H2 H3 H4 H5].
  constructor; rewrite ?Hp, ?Ha, ?Hvs; try done.
  intros p ?. rewrite (Hv p). auto.
Qed.

Lemma Settled_sameBook w w' : sameBook w w' → Settled w → Settled w'.
Proof.
  intros Hb HS p. rewrite (visited_sameBook _ _ Hb).
  destruct Hb as [Hh Hp Ha Hvs]. rewrite Hp, Ha. apply HS.
Qed.

Lemma allPlacesVisited_sameBook w w' :
  sameBook w w' → allPlacesVisited w → allPlacesVisited w'.
Proof.
  intros Hb HS p. rewrite (visited_sameBook _ _ Hb).
  destruct Hb as [Hh Hp Ha Hvs]. rewrite Hp. apply HS.
Qed.

(** ** The completion check *)

Lemma allVisited_true m : allVisited m = true ↔ m ≠ ∅ ∧ ∀ p b, m !! p = Some b → b = true.
Proof.
  unfold allVisited.
  assert (∀ b0, map_fold (λ (_ : PlaceRef) v acc, acc && v) b0 m = true
                ↔ b0 = true ∧ ∀ p b, m !! p = Some b → b = true) as Hfold.
  { intros b0. induction m as [|p b m Hp Hfold IH] using map_first_key_ind.
    - rewrite map_fold_empty. split; [|tauto]. intros ->. split; [done|].
      intros ? ?. by rewrite lookup_empty.
    - rewrite map_fold_insert_first_key by done.
      rewrite andb_true_iff, IH. split.
      + intros [[-> Hall] ->]. split; [done|]. intros q c.
        destruct (decide (q = p)) as [->|Hne].
        * rewrite lookup_insert_eq. congruence.
        * rewrite lookup_insert_ne by done. apply Hall.
      + intros [-> Hall]. split; [split; [done|]|].
        * intros q c Hq. apply (Hall q). rewrite lookup_insert_ne; [done|].
          intros ->. congruence.
        * apply (Hall p). by rewrite lookup_insert_eq. }
  rewrite Hfold. rewrite bool_decide_eq_true.
  split; intros [Hne Hall]; (split; [|done]).
  - intros ->. rewrite map_size_empty in Hne. lia.
  - destruct (decide (size m = 0)) as [Hz|]; [|lia].
    by apply map_size_empty_iff in Hz.
Qed.

Lemma completionCheck_cases w : completionCheck_case w (completionCheck w).
Proof.
  unfold completionCheck.
  destruct (emittedAllVisited w) eqn:He; [by apply completion_latched|].
  destruct (allVisited (placesVisited w)) eqn:Ha.
  - by apply completion_fires.
  - by apply completion_pending.
Qed.

Lemma completionCheck_sameBook w : sameBook w (completionCheck w).1.
Proof. destruct (completionCheck_cases w); by constructor. Qed.

(** The latch and the event go together. *)
Lemma completionCheck_count w :
  count AllPlacesVisited (completionCheck w).2
  = (if emittedAllVisited w then 0
     else if emittedAllVisited (completionCheck w).1 then 1 else 0)
  ∧ (emittedAllVisited w = true → emittedAllVisited (completionCheck w).1 = true).
Proof.
  destruct (completionCheck_cases w) as [He|He Ha|He Ha]; simpl; rewrite He; done.
Qed.

(** ** The end of every update: sweep, then completion check *)

Lemma sweepLoop_emitted n i w :
  emittedAllVisited (sweepLoop n i w).1 = emittedAllVisited w.
Proof.
  revert i w. induction n as [|n IH]; intros i w; simpl; [done|].
  rewrite IH. by destruct (sweepStep_cases i w).
Qed.

Lemma sweepAndCompletion_frame w : sweepFrame w (sweepAndCompletion w).1.
Proof.
  unfold sweepAndCompletion, andThen; simpl.
  eapply sweepFrame_trans; [apply sweep_frame|].
  destruct (completionCheck_cases (sweep w).1); simpl; by constructor.
Qed.

Lemma sweepAndCompletion_inv w :
  Inv w → Inv (sweepAndCompletion w).1 ∧ Settled (sweepAndCompletion w).1.
Proof.
  intros HI. destruct (sweep_inv w HI) as [HI' HS'].
  unfold sweepAndCompletion, andThen; simpl.
  pose proof (completionCheck_sameBook (sweep w).1) as Hb.
  split; [by eapply Inv_sameBook|by eapply Settled_sameBook].
Qed.

Lemma sweepAndCompletion_completionSettled w :
  completionSettled (sweepAndCompletion w).1.
Proof.
  unfold sweepAndCompletion, andThen, completionSettled; simpl.
  destruct (completionCheck_cases (sweep w).1); simpl; auto.
Qed.

Lemma sweepAndCompletion_idle w :
  Settled w → completionSettled w → sweepAndCompletion w = (w, []).
Proof.
  intros HS HC. unfold sweepAndCompletion.
  eapply (andThen_pair _ _ _ w [] w []).
  - by apply sweepLoop_settled.
  - unfold completionCheck. destruct HC as [->| ->]; [done|].
    by destruct (emittedAllVisited w).
Qed.

Lemma sweepAndCompletion_events w e :
  e ∈ (sweepAndCompletion w).2 →
  e = AllPlacesVisited ∨ ∃ p, e = ArrivedAtPlace p ∧ p ∈ _places w.
Proof.
  unfold sweepAndCompletion, andThen; simpl. intros [He|He]%elem_of_app.
  - right. by eapply sweepLoop_events_arrived.
  - left. destruct (completionCheck_cases (sweep w).1); simpl in He;
      try by apply elem_of_nil in He.
    by apply list_elem_of_singleton in He.
Qed.

Lemma count_app e l1 l2 : count e (l1 ++ l2) = count e l1 + count e l2.
Proof. unfold count. by rewrite filter_app, length_app. Qed.

Lemma count_zero e l : e ∉ l → count e l = 0.
Proof.
  unfold count. induction l as [|a l IH]; [done|]. intros Hn.
  rewrite filter_cons. case_decide as Ha.
  - subst. exfalso. apply Hn. by left.
  - apply IH. intros ?. apply Hn. by right.
Qed.

Lemma sweepLoop_count_AllPlacesVisited n i w :
  count AllPlacesVisited (sweepLoop n i w).2 = 0.
Proof.
  apply count_zero. intros He.
  by apply sweepLoop_events_arrived in He as (p & ? & _).
Qed.

(** The completion event is counted by the latch. *)
Lemma sweepAndCompletion_count w :
  count AllPlacesVisited (sweepAndCompletion w).2
  = (if emittedAllVisited w then 0
     else if emittedAllVisited (sweepAndCompletion w).1 then 1 else 0)
  ∧ (emittedAllVisited w = true → emittedAllVisited (sweepAndCompletion w).1 = true).
Proof.
  unfold sweepAndCompletion, andThen; simpl.
  rewrite count_app. unfold sweep at 1. rewrite sweepLoop_count_AllPlacesVisited.
  destruct (completionCheck_count (sweep w).1) as [Hc Hl].
  unfold sweep in Hc, Hl at 1. rewrite sweepLoop_emitted in Hc, Hl. done.
Qed.

(** ** The selected-place block *)

Lemma arrivalCheck_cases up sp w :
  (arrives up sp w = true
   ∧ arrivalCheck up sp w
     = (set_hasArrivedAtSelectedPlace true (set_visited sp true w), [ArrivedAtPlace sp]))
  ∨ (arrives up sp w = false ∧ arrivalCheck up sp w = (w, [])).
Proof.
  unfold arrivalCheck. destruct (arrives up sp w); [left|right]; done.
Qed.

Lemma arrivalCheck_frame up sp w :
  let w1 := (arrivalCheck up sp w).1 in
  _places w1 = _places w ∧ placesAt w1 = placesAt w
  ∧ placesVisited w1 = placesVisited w ∧ _status w1 = _status w
  ∧ selectedPlace w1 = selectedPlace w ∧ emittedAllVisited w1 = emittedAllVisited w
  ∧ (∀ q, q ≠ sp → visited w1 q = visited w q)
  ∧ (∀ q, visited w q = true → visited w1 q = true)
  ∧ (∀ q, activationThreshold w1 q = activationThreshold w q).
Proof.
  destruct (arrivalCheck_cases up sp w) as [[_ ->]|[_ ->]]; simpl; [|done].
  repeat split; try done.
  - intros q Hq. change (visited (set_visited sp true w) q = visited w q).
    by apply visited_set_visited_ne.
  - intros q Hq. change (visited (set_visited sp true w) q = true).
    by apply visited_set_visited_mono.
  - intros q. apply (activationThreshold_set_visited sp true q w).
Qed.

Lemma Inv_set_visited_true p w : Inv w → Inv (set_visited p true w).
Proof.
  intros [H1 H2 H3 H4 H5]. constructor; try done.
  intros q Hq. apply visited_set_visited_mono. by apply H4.
Qed.

Lemma arrivalCheck_inv up sp w : Inv w → Inv (arrivalCheck up sp w).1.
Proof.
  intros HI. destruct (arrivalCheck_cases up sp w) as [[_ ->]|[_ ->]]; simpl; [|done].
  eapply Inv_sameBook; [|by apply (Inv_set_visited_true sp)]. by constructor.
Qed.

Lemma advance_unvisited nav sp w :
  visited w sp = false → advance nav sp w = (w, []).
Proof. intros Hv. unfold advance. by rewrite Hv. Qed.

Lemma advance_last nav sp w :
  visited w sp = true → nextUnvisited w sp = None →
  advance nav sp w
  = (set_status Succeeded
       (set_selectedPlace SelNull (set_hasArrivedAtSelectedPlace true w)),
     [ArrivedAtPlace sp]).
Proof.
  intros Hv Hn. unfold advance. rewrite Hv.
  unfold andThen, invoke, modify; simpl.
  change (nextUnvisited (set_hasArrivedAtSelectedPlace true w) sp)
    with (nextUnvisited w sp).
  by rewrite Hn.
Qed.

Lemma advance_next nav sp w next :
  visited w sp = true → nextUnvisited w sp = Some next →
  advance nav sp w
  = let r := nav (Some next)
                 (set_selectedPlace SelNull (set_hasArrivedAtSelectedPlace true w)) in
    (r.1, ArrivedAtPlace sp :: r.2).
Proof.
  intros Hv Hn. unfold advance. rewrite Hv.
  unfold andThen, invoke, modify; simpl.
  change (nextUnvisited (set_hasArrivedAtSelectedPlace true w) sp)
    with (nextUnvisited w sp).
  by rewrite Hn.
Qed.

(** [navigateToPlace] as [update] calls it: nothing selected, the target
    registered. *)
Lemma navigateToPlace_body_registered U next w :
  selectedPlace w = SelNull → next ∈ _places w →
  navigateToPlace_body U (Some next) w
  = let r := U (set_status InProgress w) in
    (set_hasArrivedAtSelectedPlace false (set_selectedPlace (SelPlace next) r.1),
     r.2 ++ [NavigationStarted (Some next)]).
Proof.
  intros Hsel Hin. unfold navigateToPlace_body. rewrite Hsel; simpl.
  unfold andThen, invoke, modify, registerIfAbsent, includes; simpl.
  by rewrite bool_decide_true by done.
Qed.

Lemma update_body_unselected nav up w :
  (∀ sp, selectedPlace w ≠ SelPlace sp) →
  update_body nav up w = sweepAndCompletion w.
Proof.
  intros Hsel. unfold update_body, andThen, selectedBlock.
  destruct (selectedPlace w) as [| |sp]; simpl;
    [reflexivity..|].
  by destruct (Hsel sp).
Qed.

Lemma andThen_congr_r (a b b' : Op) w :
  b (a w).1 = b' (a w).1 → (a >>> b) w = (a >>> b') w.
Proof. unfold andThen. by intros ->. Qed.

Lemma andThen_congr_l (a a' b : Op) w :
  a w = a' w → (a >>> b) w = (a' >>> b) w.
Proof. unfold andThen. by intros ->. Qed.

Lemma registerIfAbsent_selectedPlace place w :
  selectedPlace (registerIfAbsent place w).1 = selectedPlace w.
Proof.
  unfold registerIfAbsent. destruct place as [p|]; [|done].
  unfold addPlace_present. by destruct (includes (_places w) p).
Qed.

Lemma navigateToPlace_body_ext U U' place w :
  (∀ w', selectedPlace w' = selectedPlace w → U w' = U' w') →
  navigateToPlace_body U place w = navigateToPlace_body U' place w.
Proof.
  intros HU. unfold navigateToPlace_body.
  destruct (decide _) as [|_]; [done|].
  apply andThen_congr_r, andThen_congr_r, andThen_congr_l, HU.
  unfold modify; simpl. apply registerIfAbsent_selectedPlace.
Qed.

(** The two mutually recursive equations of the source. *)
Lemma navigateToPlace_nested_eq up place w :
  selectedPlace w = SelNull →
  navigateToPlace_nested up place w = navigateToPlace up place w.
Proof.
  intros Hsel. apply navigateToPlace_body_ext.
  intros w' Hw'. unfold update_nested, update.
  rewrite !update_body_unselected; [done|congruence|congruence].
Qed.

Lemma update_unfold up w : update up w = update_body (navigateToPlace up) up w.
Proof.
  unfold update, update_body. apply andThen_congr_l.
  unfold selectedBlock.
  destruct (selectedPlace w) as [| |sp]; [done|done|].
  apply andThen_congr_r.
  unfold advance. destruct (visited _ sp); [|done].
  do 2 apply andThen_congr_r. unfold modify, invoke; simpl.
  destruct (nextUnvisited _ sp); [|done].
  apply andThen_congr_r. by apply navigateToPlace_nested_eq.
Qed.

Lemma navigateToPlace_unfold up place w :
  navigateToPlace up place w = navigateToPlace_body (update up) place w.
Proof. done. Qed.

(** ** The three ways an update can go *)

Lemma update_unselected up w :
  (∀ sp, selectedPlace w ≠ SelPlace sp) → update up w = sweepAndCompletion w.
Proof. intros Hsel. unfold update. by apply update_body_unselected. Qed.

(** The selected place is still unvisited after the arrival check. *)
Lemma update_stay up w sp :
  selectedPlace w = SelPlace sp →
  visited (arrivalCheck up sp w).1 sp = false →
  update up w
  = let r1 := arrivalCheck up sp w in
    let r := sweepAndCompletion r1.1 in
    (r.1, r1.2 ++ r.2).
Proof.
  intros Hsel Hv. unfold update, update_body.
  erewrite andThen_pair; [done| |apply surjective_pairing].
  unfold selectedBlock. rewrite Hsel.
  erewrite andThen_pair; [|apply surjective_pairing|by apply advance_unvisited].
  by rewrite app_nil_r.
Qed.

(** The selected place is visited and nothing unvisited follows it. *)
Lemma update_last up w sp :
  selectedPlace w = SelPlace sp →
  visited (arrivalCheck up sp w).1 sp = true →
  nextUnvisited (arrivalCheck up sp w).1 sp = None →
  update up w
  = let r1 := arrivalCheck up sp w in
    let r := sweepAndCompletion
               (set_status Succeeded
                  (set_selectedPlace SelNull
                     (set_hasArrivedAtSelectedPlace true r1.1))) in
    (r.1, r1.2 ++ ArrivedAtPlace sp :: r.2).
Proof.
  intros Hsel Hv Hn. unfold update, update_body.
  erewrite andThen_pair; [| |apply surjective_pairing].
  2:{ unfold selectedBlock. rewrite Hsel.
      erewrite andThen_pair; [done|apply surjective_pairing|by apply advance_last]. }
  simpl. by rewrite <- app_assoc.
Qed.

(** The selected place is visited and [next] is the first unvisited place
    after it: the nested [navigateToPlace] runs the sweep and the check, and
    the outer ones find nothing left to do. *)
Lemma update_next up w sp next :
  Inv w →
  selectedPlace w = SelPlace sp →
  visited (arrivalCheck up sp w).1 sp = true →
  nextUnvisited (arrivalCheck up sp w).1 sp = Some next →
  update up w
  = let r1 := arrivalCheck up sp w in
    let r := sweepAndCompletion
               (set_status InProgress
                  (set_selectedPlace SelNull
                     (set_hasArrivedAtSelectedPlace true r1.1))) in
    (set_hasArrivedAtSelectedPlace false (set_selectedPlace (SelPlace next) r.1),
     r1.2 ++ ArrivedAtPlace sp :: r.2 ++ [NavigationStarted (Some next)]).
Proof.
  intros HI Hsel Hv Hn. unfold update, update_body.
  set (r1 := arrivalCheck up sp w) in *.
  set (w2 := set_status InProgress
               (set_selectedPlace SelNull (set_hasArrivedAtSelectedPlace true r1.1))).
  assert (Inv w2) as HI2.
  { eapply Inv_sameBook; [|by apply (arrivalCheck_inv up sp)]. by constructor. }
  erewrite andThen_pair; [| |apply sweepAndCompletion_idle].
  2:{ unfold selectedBlock. rewrite Hsel.
      erewrite andThen_pair; [done|apply surjective_pairing|].
      rewrite (advance_next _ _ _ next) by done.
      unfold navigateToPlace_nested.
      rewrite navigateToPlace_body_registered; [|done|].
      - unfold update_nested. rewrite update_body_unselected; [done|].
        intros ?. simpl. congruence.
      - simpl. by apply nextUnvisited_Some in Hn as [? _]. }
  - simpl. by rewrite app_nil_r.
  - eapply Settled_sameBook; [|by apply (sweepAndCompletion_inv w2)]. by constructor.
  - pose proof (sweepAndCompletion_completionSettled w2) as Hc. exact Hc.
Qed.

Lemma update_cases up w : Inv w → update_case up w (update up w).
Proof.
  intros HI.
  destruct (selectedPlace w) as [| |sp] eqn:Hsel.
  - rewrite update_unselected by congruence. apply update_case_unselected. congruence.
  - rewrite update_unselected by congruence. apply update_case_unselected. congruence.
  - destruct (visited (arrivalCheck up sp w).1 sp) eqn:Hv.
    + destruct (nextUnvisited (arrivalCheck up sp w).1 sp) as [next|] eqn:Hn.
      * rewrite (update_next up w sp next) by done. by apply update_case_next.
      * rewrite (update_last up w sp) by done. by apply update_case_last.
    + rewrite (update_stay up w sp) by done. by apply update_case_stay.
Qed.

Lemma parked_sameBook s w : sameBook w (parked s w).
Proof. by constructor. Qed.

Lemma selectedNow_sameBook p w : sameBook w (selectedNow p w).
Proof. by constructor. Qed.

(** ** Every operation keeps the bookkeeping invariant *)

Lemma update_inv up w : Inv w → Inv (update up w).1 ∧ Settled (update up w).1.
Proof.
  intros HI.
  destruct (update_cases up w HI) as [Hsel|sp Hsel Hv|sp Hsel Hv Hn|sp next Hsel Hv Hn];
    simpl.
  - by apply sweepAndCompletion_inv.
  - by apply sweepAndCompletion_inv, arrivalCheck_inv.
  - apply sweepAndCompletion_inv.
    eapply Inv_sameBook; [apply parked_sameBook|]. by apply arrivalCheck_inv.
  - destruct (sweepAndCompletion_inv (parked InProgress (arrivalCheck up sp w).1))
      as [HI' HS'].
    { eapply Inv_sameBook; [apply parked_sameBook|]. by apply arrivalCheck_inv. }
    split.
    + eapply Inv_sameBook; [apply selectedNow_sameBook|done].
    + eapply Settled_sameBook; [apply selectedNow_sameBook|done].
Qed.

Lemma initial_inv h : Inv (initial h).
Proof.
  constructor; simpl; try done.
  - apply NoDup_nil_2.
  - intros p. rewrite lookup_empty. split; [by intros ?%elem_of_nil|by intros [? ?]].
Qed.

Lemma addPlace_present_inv p w : Inv w → Inv (addPlace_present p w).1.
Proof.
  intros HI. unfold addPlace_present, includes.
  case_bool_decide as Hin; [done|]. simpl.
  assert (placesAt w !! p = None) as Hnone.
  { apply eq_None_not_Some. by rewrite <- (inv_dom _ HI). }
  destruct HI as [H1 H2 H3 H4 H5]. constructor; simpl.
  - apply NoDup_app. split; [done|]. split; [|apply NoDup_singleton].
    intros q Hq ->%list_elem_of_singleton. done.
  - intros q. rewrite elem_of_app, list_elem_of_singleton, H2.
    destruct (decide (q = p)) as [->|Hne].
    + rewrite lookup_insert_eq. split; eauto.
    + rewrite lookup_insert_ne by done. split; [intros [?|?]; done|auto].
  - by rewrite H3.
  - intros q. destruct (decide (q = p)) as [->|Hne].
    + by rewrite lookup_insert_eq.
    + rewrite lookup_insert_ne by done. apply H4.
  - intros i a b Ha Hb.
    assert (b ≠ p → placesAt w !! b = Some true → placesAt w !! a = Some true) as Hold.
    { intros Hbp Hbt.
      assert (S i < length (_places w)) as Hlen.
      { destruct (decide (S i < length (_places w))); [done|].
        rewrite lookup_app_r in Hb by lia.
        destruct (S i - length (_places w)); simpl in Hb; [congruence|done]. }
      rewrite lookup_app_l in Ha, Hb by lia. by eapply H5. }
    destruct (decide (b = p)) as [->|Hbp]; [by rewrite lookup_insert_eq|].
    rewrite lookup_insert_ne by done. intros Hbt.
    destruct (decide (a = p)) as [->|Hap].
    + specialize (Hold Hbp Hbt). congruence.
    + rewrite lookup_insert_ne by done. auto.
Qed.

(** Filtering keeps the order of the elements it keeps. *)
Lemma filter_lookup_ordered (P : PlaceRef → Prop) `{∀ x, Decision (P x)}
    (l : list PlaceRef) i i' a b :
  i < i' → filter P l !! i = Some a → filter P l !! i' = Some b →
  ∃ j k, j < k ∧ l !! j = Some a ∧ l !! k = Some b.
Proof.
  revert i i'. induction l as [|c l IH]; intros i i' Hlt; [done|].
  rewrite filter_cons. case_decide as Hc.
  - destruct i as [|i], i' as [|i']; try lia; simpl.
    + intros [= ->] Hb.
      apply list_elem_of_lookup_2, list_elem_of_filter in Hb as [_ Hb].
      apply list_elem_of_lookup in Hb as [k Hk].
      exists 0, (S k). repeat split; [lia|done..].
    + intros Ha Hb. destruct (IH i i') as (j & k & Hjk & Hj & Hk); [lia|done..|].
      exists (S j), (S k). repeat split; [lia|done..].
  - intros Ha Hb. destruct (IH i i') as (j & k & Hjk & Hj & Hk); [lia|done..|].
    exists (S j), (S k). repeat split; [lia|done..].
Qed.

(** The places recorded as reached form an initial segment. *)
Lemma inv_prefix_far w j k p q :
  Inv w → j ≤ k → _places w !! j = Some p → _places w !! k = Some q →
  placesAt w !! q = Some true → placesAt w !! p = Some true.
Proof.
  intros HI Hjk. revert q. induction Hjk as [|k Hjk IH]; intros q Hp Hq Hat.
  - congruence.
  - destruct (_places w !! k) as [r|] eqn:Hr.
    + apply (IH r); [done..|]. by eapply (inv_prefix _ HI k r q).
    + apply lookup_ge_None in Hr. apply lookup_lt_Some in Hq. lia.
Qed.

Lemma removePlace_world place w :
  (removePlace place w).1
  = set_placesAt (delete place (placesAt w))
      (set_placesVisited (delete place (placesVisited w))
         (set_places (filter (λ m, m ≠ place) (_places w)) w)).
Proof.
  unfold removePlace, andThen, modify; simpl. by case_bool_decide.
Qed.

Lemma removePlace_inv place w : Inv w → Inv (removePlace place w).1.
Proof.
  intros HI. rewrite removePlace_world.
  constructor; simpl.
  - apply NoDup_filter, HI.
  - intros q. rewrite list_elem_of_filter, (inv_dom _ HI).
    destruct (decide (q = place)) as [->|Hne].
    + rewrite lookup_delete_eq. split; [by intros [? _]|by intros [? ?]].
    + rewrite lookup_delete_ne by done. tauto.
  - by rewrite (inv_same _ HI).
  - intros q. destruct (decide (q = place)) as [->|Hne].
    + by rewrite lookup_delete_eq.
    + rewrite lookup_delete_ne by done. apply HI.
  - intros i a b Ha Hb.
    assert (a ≠ place ∧ b ≠ place) as [Hap Hbp].
    { apply list_elem_of_lookup_2, list_elem_of_filter in Ha as [? _].
      apply list_elem_of_lookup_2, list_elem_of_filter in Hb as [? _]. done. }
    rewrite !lookup_delete_ne by done.
    destruct (filter_lookup_ordered (λ m, m ≠ place) (_places w) i (S i) a b)
      as (j & k & Hjk & Hj & Hk); [lia|done..|].
    eapply inv_prefix_far; [done| |done..]. lia.
Qed.

Lemma navigateToPlace_world up place w :
  selectedPlace w ≠ toSelected place →
  navigateToPlace up place w
  = let r0 := registerIfAbsent place w in
    let r := update up (set_status (statusFor place) r0.1) in
    (set_hasArrivedAtSelectedPlace false (set_selectedPlace (toSelected place) r.1),
     r0.2 ++ r.2 ++ [NavigationStarted place]).
Proof.
  intros Hsel. unfold navigateToPlace, navigateToPlace_body.
  destruct (decide _) as [|_]; [done|]. done.
Qed.

Lemma navigateToPlace_same up place w :
  selectedPlace w = toSelected place → navigateToPlace up place w = (w, []).
Proof.
  intros Hsel. unfold navigateToPlace, navigateToPlace_body.
  by destruct (decide _).
Qed.

Lemma registerIfAbsent_inv place w : Inv w → Inv (registerIfAbsent place w).1.
Proof.
  intros HI. unfold registerIfAbsent. destruct place as [p|]; [|done].
  destruct (includes (_places w) p) eqn:Hin; [done|].
  by apply addPlace_present_inv.
Qed.

Lemma navigateToPlace_inv up place w : Inv w → Inv (navigateToPlace up place w).1.
Proof.
  intros HI.
  destruct (decide (selectedPlace w = toSelected place)) as [Hsel|Hsel].
  - by rewrite navigateToPlace_same.
  - rewrite navigateToPlace_world by done. simpl.
    eapply Inv_sameBook; [|eapply (update_inv up)].
    + by constructor.
    + eapply Inv_sameBook; [|by apply (registerIfAbsent_inv place)]. by constructor.
Qed.

Lemma Place_onUpdate_inv dist up p w : Inv w → Inv (Place_onUpdate dist up p w).
Proof.
  intros HI. unfold Place_onUpdate.
  destruct (heap w !! p) as [o|]; [|done].
  destruct (checkVisited dist up o); [|done].
  by apply Inv_set_visited_true.
Qed.

Lemma construct_inv p o w :
  heap w !! p = None → Inv w → Inv (set_heap (<[p := o]> (heap w)) w).
Proof.
  intros Hp [H1 H2 H3 H4 H5]. constructor; try done.
  intros q Hq. specialize (H4 q Hq). unfold visited in *. simpl.
  destruct (decide (q = p)) as [->|Hne].
  - by rewrite Hp in H4.
  - by rewrite lookup_insert_ne.
Qed.

Lemma step_inv dist w w' : step dist w w' → Inv w → Inv w'.
Proof.
  intros Hstep HI. destruct Hstep.
  - by apply construct_inv.
  - by apply Place_onUpdate_inv.
  - by apply addPlace_present_inv.
  - by apply removePlace_inv.
  - by apply navigateToPlace_inv.
  - by apply update_inv.
Qed.

Lemma reachable_inv dist w : reachable dist w → Inv w.
Proof.
  unfold reachable. intros Hr.
  eapply (rtc_ind_r (λ w, Inv w) (initial ∅)); [apply initial_inv| |exact Hr].
  intros y z _ Hstep HI. by eapply step_inv.
Qed.

Lemma exec_reachable dist c w : reachable dist w → reachable dist (exec dist c w).
Proof.
  intros Hr. unfold reachable in *.
  destruct c as [p o|up p|p|p|up place|up]; simpl;
    try (eapply rtc_r; [exact Hr|by constructor]).
  destruct (heap w !! p) eqn:Hp; [done|].
  eapply rtc_r; [exact Hr|by constructor].
Qed.

Lemma run_reachable dist script w :
  reachable dist w → reachable dist (run dist script w).
Proof.
  revert w. induction script as [|c script IH]; intros w Hr; [done|].
  apply IH. by apply exec_reachable.
Qed.

Lemma initial_reachable dist : reachable dist (initial ∅).
Proof. apply rtc_refl. Qed.

Lemma update_reachable dist up w :
  reachable dist w → reachable dist (update up w).1.
Proof. intros Hr. eapply rtc_r; [exact Hr|apply step_update]. Qed.

(** * The claims *)

(** ** C9: the per-frame callback of a waypoint *)

Lemma Qlt_bool_iff (a b : Q) : Qlt_bool a b = true ↔ (a < b)%Q.
Proof.
  unfold Qlt_bool. rewrite negb_true_iff. split.
  - intros Hle. apply Qnot_le_lt. intros H. apply Qle_bool_iff in H. congruence.
  - intros Hlt. destruct (Qle_bool b a) eqn:Hle; [|done].
    apply Qle_bool_iff in Hle. by apply Qle_not_lt in Hle.
Qed.

Lemma checkVisited_iff dist up o :
  checkVisited dist up o = true
  ↔ ∃ g, getGeoPosition up = Some g
         ∧ (dist g (geoPosition o) < distanceToVisit o)%Q.
Proof.
  unfold checkVisited, getPhysicalDistance.
  destruct (getGeoPosition up) as [g|].
  - rewrite Qlt_bool_iff. split; [eauto|]. by intros (g' & [= <-] & Hlt).
  - split; [done|]. by intros (g' & Hg & _).
Qed.

(** C9: whatever the controller's state, after the callback of the object
    behind [p] the object is visited exactly if it was visited before or
    the user has a fix and the distance to the object is strictly below
    its radius.  Neither the list, the selection nor the predecessor is
    consulted; the callback never resets a flag, changes no other object
    and leaves every field of the controller alone. *)
Theorem Place_onUpdate_marks dist up p o w :
  heap w !! p = Some o →
  let w' := Place_onUpdate dist up p w in
  (visited w' p = true
   ↔ visited w p = true
     ∨ ∃ g, getGeoPosition up = Some g
            ∧ (dist g (geoPosition o) < distanceToVisit o)%Q)
  ∧ (∀ q, visited w q = true → visited w' q = true)
  ∧ (∀ q, q ≠ p → heap w' !! q = heap w !! q)
  ∧ _places w' = _places w
  ∧ _status w' = _status w
  ∧ selectedPlace w' = selectedPlace w
  ∧ placesAt w' = placesAt w
  ∧ placesVisited w' = placesVisited w
  ∧ emittedAllVisited w' = emittedAllVisited w
  ∧ hasArrivedAtSelectedPlace w' = hasArrivedAtSelectedPlace w.
Proof.
  intros Ho. unfold Place_onUpdate. rewrite Ho.
  pose proof (checkVisited_iff dist up o) as Hiff.
  destruct (checkVisited dist up o); cbv zeta.
  - split; [|split; [|split]].
    + split; [intros _; right; by apply Hiff|intros _].
      by eapply visited_set_visited_true.
    + intros q Hq. by apply visited_set_visited_mono.
    + intros q Hq. unfold set_visited. cbn [heap set_heap].
      by rewrite lookup_alter_ne.
    + done.
  - split; [|done]. split; [by left|]. intros [Hv|Hin]; [done|].
    apply Hiff in Hin. done.
Qed.

Lemma Place_onUpdate_marks_witness :
  visited (Place_onUpdate gridDistance userOnSpot refB twoRegistered) refB = true
  ∧ visited (Place_onUpdate gridDistance userAtLimit refB twoRegistered) refB = false
  ∧ visited (Place_onUpdate gridDistance userNoFix refB twoRegistered) refB = false.
Proof.
  assert (heap twoRegistered !! refB = Some placeB) as Ho by (vm_compute; reflexivity).
  pose proof (Place_onUpdate_marks gridDistance userOnSpot refB placeB twoRegistered Ho)
    as H1.
  pose proof (Place_onUpdate_marks gridDistance userAtLimit refB placeB twoRegistered Ho)
    as H2.
  pose proof (Place_onUpdate_marks gridDistance userNoFix refB placeB twoRegistered Ho)
    as H3.
  cbv zeta in H1, H2, H3.
  destruct H1 as [H1 _], H2 as [H2 _], H3 as [H3 _].
  split; [|split].
  - apply H1. right. exists origin. split; [reflexivity|]. by vm_compute.
  - apply not_true_is_false. intros Hv.
    apply H2 in Hv as [Hv|(g & Hg & Hlt)].
    + vm_compute in Hv. discriminate Hv.
    + injection Hg as <-. vm_compute in Hlt. discriminate Hlt.
  - apply not_true_is_false. intros Hv.
    apply H3 in Hv as [Hv|(g & Hg & _)].
    + vm_compute in Hv. discriminate Hv.
    + discriminate Hg.
Defined.

(** ** C10: removing a waypoint *)

Lemma arrives_unregistered up sp o d w :
  sp ∉ _places w → heap w !! sp = Some o → _visited o = false →
  getDistanceTo up sp = Some d → (d <= activationThreshold w sp)%Q →
  arrives up sp w = true.
Proof.
  intros Hout Ho Hv Hd Hle. unfold arrives.
  rewrite Hd, (indexOf_absent _ _ Hout), at_index_negative by lia.
  unfold visited. rewrite Ho, Hv.
  by rewrite (proj2 (Qle_bool_iff _ _) Hle).
Qed.

Lemma update_events_arrival up w sp :
  selectedPlace w = SelPlace sp → arrives up sp w = true →
  ArrivedAtPlace sp ∈ (update up w).2.
Proof.
  intros Hsel Harr. unfold update, update_body, andThen; simpl.
  apply elem_of_app. left. unfold selectedBlock. rewrite Hsel.
  unfold andThen; simpl. apply elem_of_app. left.
  destruct (arrivalCheck_cases up sp w) as [[_ ->]|[? _]]; [|congruence].
  by apply list_elem_of_singleton.
Qed.

(** What an update does to the flag of a place outside the list. *)
Lemma update_visited_unregistered up w sp o :
  Inv w → selectedPlace w = SelPlace sp → sp ∉ _places w →
  heap w !! sp = Some o → arrives up sp w = true →
  visited (update up w).1 sp = true.
Proof.
  intros HI Hsel Hout Ho Harr.
  assert (visited (arrivalCheck up sp w).1 sp = true) as Hv1.
  { destruct (arrivalCheck_cases up sp w) as [[_ ->]|[? _]]; [|congruence].
    simpl. by apply (visited_set_visited_true sp o w). }
  assert (_places (arrivalCheck up sp w).1 = _places w) as Hpl
    by apply arrivalCheck_frame.
  assert (∀ s, visited (sweepAndCompletion (parked s (arrivalCheck up sp w).1)).1 sp
               = true) as Hparked.
  { intros s. rewrite (sf_outside _ _ (sweepAndCompletion_frame _)); [done|].
    simpl. by rewrite Hpl. }
  destruct (update_cases up w HI) as [Hs|sp' Hs Hv|sp' Hs Hv Hn|sp' next Hs Hv Hn];
    simpl.
  - by destruct (Hs sp).
  - rewrite Hsel in Hs. simplify_eq. congruence.
  - rewrite Hsel in Hs. simplify_eq. apply Hparked.
  - rewrite Hsel in Hs. simplify_eq. apply (Hparked InProgress).
Qed.

(** C10: [removePlace] touches the list and the two maps only.  When the
    removed place is the selected one it stays selected; the next update
    finds it at index -1, takes its predecessor condition as met, and on
    arrival marks it visited and emits the arrival event for it. *)
Theorem removePlace_keeps_selection dist place w :
  let w' := (removePlace place w).1 in
  heap w' = heap w
  ∧ _status w' = _status w
  ∧ selectedPlace w' = selectedPlace w
  ∧ hasArrivedAtSelectedPlace w' = hasArrivedAtSelectedPlace w
  ∧ emittedAllVisited w' = emittedAllVisited w
  ∧ (place ∉ _places w')
  ∧ (∀ up o d,
       reachable dist w →
       selectedPlace w = SelPlace place →
       heap w !! place = Some o → _visited o = false →
       getDistanceTo up place = Some d → (d <= activationThreshold w' place)%Q →
       indexOf (_places w') place = (-1)%Z
       ∧ arrives up place w' = true
       ∧ ArrivedAtPlace place ∈ (update up w').2
       ∧ visited (update up w').1 place = true).
Proof.
  intros w'. subst w'. rewrite removePlace_world. simpl.
  assert (place ∉ filter (λ m, m ≠ place) (_places w)) as Hout.
  { rewrite list_elem_of_filter. by intros [? _]. }
  do 5 (split; [done|]). split; [done|].
  intros up o d Hr Hsel Ho Hv Hd Hle.
  rewrite <- removePlace_world in *.
  assert (place ∉ _places (removePlace place w).1) as Hout'
    by by rewrite removePlace_world.
  assert (arrives up place (removePlace place w).1 = true) as Harr.
  { eapply arrives_unregistered; try done. by rewrite removePlace_world. }
  split; [by apply indexOf_absent|]. split; [done|]. split.
  - apply update_events_arrival; [|done]. by rewrite removePlace_world.
  - eapply update_visited_unregistered; try done.
    + by apply removePlace_inv, (reachable_inv dist).
    + by rewrite removePlace_world.
    + by rewrite removePlace_world.
Qed.

Lemma twoRegistered_reachable : reachable gridDistance twoRegistered.
Proof. apply run_reachable, initial_reachable. Qed.

Lemma removePlace_keeps_selection_witness :
  ArrivedAtPlace refB ∈ (update userOnSpot (removePlace refB twoWithBSelected).1).2
  ∧ visited (update userOnSpot (removePlace refB twoWithBSelected).1).1 refB = true
  ∧ visited (update userOnSpot (removePlace refB twoWithBSelected).1).1 refA = false.
Proof.
  pose proof (removePlace_keeps_selection gridDistance refB twoWithBSelected) as H.
  destruct H as (_ & _ & _ & _ & _ & _ & H).
  destruct (H userOnSpot placeB 0%Q) as (_ & _ & Hev & Hv).
  - apply run_reachable, twoRegistered_reachable.
  - by vm_compute.
  - by vm_compute.
  - by vm_compute.
  - by vm_compute.
  - by vm_compute.
  - split; [exact Hev|]. split; [exact Hv|]. by vm_compute.
Defined.

(** ** C7: selecting the same waypoint twice *)

Lemma navigateToPlace_selected up place w :
  selectedPlace (navigateToPlace up place w).1 = toSelected place.
Proof.
  destruct (decide (selectedPlace w = toSelected place)) as [Hsel|Hsel].
  - by rewrite navigateToPlace_same.
  - by rewrite navigateToPlace_world.
Qed.

(** The second of two calls in a row with the same argument returns at
    once. *)
Lemma navigateToPlace_again up up' place w :
  navigateToPlace up' place (navigateToPlace up place w).1
  = ((navigateToPlace up place w).1, []).
Proof. apply navigateToPlace_same, navigateToPlace_selected. Qed.

Lemma registerIfAbsent_events place w e :
  e ∈ (registerIfAbsent place w).2 → e = PlacesUpdated.
Proof.
  unfold registerIfAbsent. destruct place as [p|]; [|by intros ?%elem_of_nil].
  destruct (includes (_places w) p); [by intros ?%elem_of_nil|].
  unfold addPlace_present. destruct (includes (_places w) p);
    [by intros ?%elem_of_nil|].
  simpl. by intros ->%list_elem_of_singleton.
Qed.

Lemma registerIfAbsent_heap place w : heap (registerIfAbsent place w).1 = heap w.
Proof.
  unfold registerIfAbsent. destruct place as [p|]; [|done].
  destruct (includes (_places w) p); [done|].
  unfold addPlace_present. by destruct (includes (_places w) p).
Qed.

Lemma filter_isNavigationStarted_nil l :
  (∀ e, e ∈ l → isNavigationStarted e = false) → filter isNavigationStarted l = [].
Proof.
  induction l as [|a l IH]; [done|]. intros Hall.
  rewrite filter_cons. rewrite (Hall a) by by left. simpl.
  apply IH. intros e He. apply Hall. by right.
Qed.

(** An update that neither finds the selected place visited nor marks it
    emits no [NavigationStarted]. *)
Lemma update_quiet up w :
  (∀ sp, selectedPlace w = SelPlace sp →
         visited w sp = false ∧ arrives up sp w = false) →
  ∀ e, e ∈ (update up w).2 → isNavigationStarted e = false.
Proof.
  intros Hq e He.
  assert (∀ w0 e, e ∈ (sweepAndCompletion w0).2 → isNavigationStarted e = false) as Hsac.
  { intros w0 e0 [->|(p & -> & _)]%sweepAndCompletion_events; done. }
  destruct (selectedPlace w) as [| |sp] eqn:Hsel.
  - rewrite update_unselected in He by congruence. by eapply Hsac.
  - rewrite update_unselected in He by congruence. by eapply Hsac.
  - destruct (Hq sp eq_refl) as [Hv Harr].
    destruct (arrivalCheck_cases up sp w) as [[? _]|[_ Heq]]; [congruence|].
    rewrite (update_stay up w sp) in He; [|done|by rewrite Heq; simpl].
    rewrite Heq in He. exact (Hsac w e He).
Qed.

Lemma arrives_out_of_range up sp w :
  (∀ d, getDistanceTo up sp = Some d → Qle_bool d (activationThreshold w sp) = false) →
  arrives up sp w = false.
Proof.
  intros Hd. unfold arrives. destruct (getDistanceTo up sp) as [d|]; [|done].
  by rewrite (Hd d eq_refl).
Qed.

Lemma filter_isNavigationStarted_sweep w :
  filter isNavigationStarted (sweepAndCompletion w).2 = [].
Proof.
  apply filter_isNavigationStarted_nil.
  by intros e [->|(p & -> & _)]%sweepAndCompletion_events.
Qed.

(** The [NavigationStarted] events of one update. *)
Lemma update_filter_navigationStarted up w :
  filter isNavigationStarted (update up w).2
  = match selectedPlace w with
    | SelPlace sp =>
        if visited (arrivalCheck up sp w).1 sp
        then match nextUnvisited (arrivalCheck up sp w).1 sp with
             | Some next => [NavigationStarted (Some next)]
             | None => []
             end
        else []
    | _ => []
    end.
Proof.
  unfold update, update_body, andThen; cbn [fst snd].
  rewrite filter_app, filter_isNavigationStarted_sweep, app_nil_r.
  unfold selectedBlock. destruct (selectedPlace w) as [| |sp]; [done..|].
  unfold andThen; cbn [fst snd]. rewrite filter_app.
  assert (filter isNavigationStarted (arrivalCheck up sp w).2 = []) as ->.
  { by destruct (arrivalCheck_cases up sp w) as [[_ ->]|[_ ->]]. }
  generalize (arrivalCheck up sp w).1 as w1. intros w1.
  unfold advance. destruct (visited w1 sp); [|done].
  unfold andThen, invoke, modify; cbn [fst snd].
  destruct (nextUnvisited _ sp) as [next|] eqn:Hn; [|done]. cbn [fst snd].
  apply nextUnvisited_Some in Hn as [Hin _].
  unfold navigateToPlace_nested.
  rewrite navigateToPlace_body_registered; [|done|done].
  cbv zeta. cbn [fst snd].
  set (w2 := set_status InProgress _).
  unfold update_nested. rewrite update_body_unselected by (simpl; congruence).
  cbn [app]. rewrite filter_cons. cbn [isNavigationStarted].
  rewrite ?app_nil_r, ?filter_app, filter_isNavigationStarted_sweep. done.
Qed.

(** C7 (amended): a second [navigateToPlace] with the same argument
    returns at once: it emits nothing and leaves the world as the first
    call left it.  The first call emits [NavigationStarted] for its
    argument once, as its last event, unless the argument is already
    selected; and the update it embeds emits one more, for the place it
    hands the selection to, exactly when the previously selected place is
    visited once the arrival test has run and an unvisited place follows
    it in the list.  The two calls together therefore emit
    [NavigationStarted] at most once if and only if there is no such
    hand-over. *)
Theorem navigateToPlace_twice up up' place w :
  let r1 := navigateToPlace up place w in
  let r2 := navigateToPlace up' place r1.1 in
  r2 = (r1.1, [])
  ∧ filter isNavigationStarted (r1.2 ++ r2.2)
    = (if decide (selectedPlace w = toSelected place) then []
       else match handOver up place w with
            | Some next => [NavigationStarted (Some next); NavigationStarted place]
            | None => [NavigationStarted place]
            end)
  ∧ (length (filter isNavigationStarted (r1.2 ++ r2.2)) ≤ 1
     ↔ selectedPlace w = toSelected place ∨ handOver up place w = None).
Proof.
  intros r1 r2. subst r1 r2. rewrite navigateToPlace_again.
  split; [done|]. cbn [snd]. rewrite app_nil_r.
  assert (filter isNavigationStarted (navigateToPlace up place w).2
          = (if decide (selectedPlace w = toSelected place) then []
             else match handOver up place w with
                  | Some next => [NavigationStarted (Some next); NavigationStarted place]
                  | None => [NavigationStarted place]
                  end)) as Hev.
  { destruct (decide (selectedPlace w = toSelected place)) as [Hsel|Hsel].
    { by rewrite navigateToPlace_same. }
    rewrite navigateToPlace_world by done. cbv zeta. cbn [fst snd].
    rewrite !filter_app.
    rewrite (filter_isNavigationStarted_nil (registerIfAbsent place w).2)
      by by intros e ->%registerIfAbsent_events.
    rewrite update_filter_navigationStarted.
    change (selectedPlace (set_status (statusFor place) (registerIfAbsent place w).1))
      with (selectedPlace (registerIfAbsent place w).1).
    rewrite registerIfAbsent_selectedPlace. unfold handOver.
    destruct (selectedPlace w) as [| |sp]; [done..|]. cbv zeta.
    destruct (visited _ sp); [|done].
    by destruct (nextUnvisited _ sp). }
  split; [exact Hev|]. rewrite Hev.
  destruct (decide (selectedPlace w = toSelected place)) as [Hsel|Hsel].
  - split; [by left|]. simpl. lia.
  - destruct (handOver up place w) as [next|]; simpl.
    + split; [lia|]. by intros [?|?].
    + split; [by right|lia].
Qed.

Lemma navigateToPlace_twice_witness :
  let r1 := navigateToPlace userFar (Some refB) twoWithASelected in
  let r2 := navigateToPlace userFar (Some refB) r1.1 in
  r2 = (r1.1, [])
  ∧ length (filter isNavigationStarted (r1.2 ++ r2.2)) ≤ 1.
Proof.
  destruct (navigateToPlace_twice userFar userFar (Some refB) twoWithASelected)
    as (Hsecond & _ & Hiff).
  split; [exact Hsecond|]. apply Hiff. right. vm_compute. reflexivity.
Defined.

(** C7, as stated, fails: with A selected and in range, one call
    [navigateToPlace B] emits [NavigationStarted B] twice, once from the
    update it embeds (which advances from A to B) and once itself. *)
Lemma navigateToPlace_twice_counterexample :
  let r1 := navigateToPlace userNearA (Some refB) twoWithASelected in
  let r2 := navigateToPlace userNearA (Some refB) r1.1 in
  filter isNavigationStarted (r1.2 ++ r2.2)
  = [NavigationStarted (Some refB); NavigationStarted (Some refB)]
  ∧ ¬ length (filter isNavigationStarted (r1.2 ++ r2.2)) ≤ 1.
Proof.
  split; [by vm_compute|]. vm_compute. lia.
Qed.

(** ** C3: arrival at the first of two waypoints *)

Lemma sweepStep_skip i p w :
  _places w !! i = Some p → placesAt w !! p = Some (visited w p) →
  sweepStep i w = (w, []).
Proof.
  intros Hp Hat. unfold sweepStep. rewrite Hp. by rewrite bool_decide_true.
Qed.

Lemma sweepStep_confirm_head p w :
  _places w !! 0 = Some p → visited w p = true → placesAt w !! p = Some false →
  sweepStep 0 w = (confirmed p w, [ArrivedAtPlace p]).
Proof.
  intros Hp Hv Hat. unfold sweepStep. rewrite Hp, Hv, Hat.
  by rewrite bool_decide_false.
Qed.

Lemma inv_unvisited_placesAt w p :
  Inv w → p ∈ _places w → visited w p = false → placesAt w !! p = Some false.
Proof.
  intros HI Hp Hv. apply (inv_dom _ HI) in Hp as [[|] Hb]; [|done].
  apply (inv_visited _ HI) in Hb. congruence.
Qed.

Lemma allVisited_false m p : m !! p = Some false → allVisited m = false.
Proof.
  intros Hp. destruct (allVisited m) eqn:Hall; [|done].
  apply allVisited_true in Hall as [_ Hall]. by apply Hall in Hp.
Qed.

Lemma count_cons_eq e l : count e (e :: l) = S (count e l).
Proof. unfold count. rewrite filter_cons. by rewrite decide_True. Qed.

Lemma count_cons_ne e e' l : e' ≠ e → count e (e' :: l) = count e l.
Proof. intros Hne. unfold count. rewrite filter_cons. by rewrite decide_False. Qed.

(** C3 (amended): with A and B registered in this order, A selected and
    unvisited, B unvisited, and the user within the controller's threshold
    for A, one update marks A visited, makes B the selected place, and
    emits the arrival at A three times (on arrival, again because A is now
    visited, and once more from the sweep that confirms it) before
    [NavigationStarted B]. *)
Theorem two_waypoint_arrival dist up w A B oA d :
  reachable dist w →
  _places w = [A; B] →
  selectedPlace w = SelPlace A →
  heap w !! A = Some oA → _visited oA = false →
  visited w B = false →
  getDistanceTo up A = Some d → (d <= activationThreshold w A)%Q →
  let r := update up w in
  visited r.1 A = true
  ∧ visited r.1 B = false
  ∧ selectedPlace r.1 = SelPlace B
  ∧ _status r.1 = InProgress
  ∧ r.2 = [ArrivedAtPlace A; ArrivedAtPlace A; ArrivedAtPlace A;
           NavigationStarted (Some B)]
  ∧ count (ArrivedAtPlace A) r.2 = 3.
Proof.
  intros Hr Hpl Hsel HoA HvA HvB Hd Hle r. subst r.
  pose proof (reachable_inv _ _ Hr) as HI.
  assert (A ≠ B) as Hne.
  { pose proof (inv_nodup _ HI) as Hnd. rewrite Hpl in Hnd.
    apply NoDup_cons in Hnd as [Hnin _]. intros ->. apply Hnin. by left. }
  assert (visited w A = false) as HvA' by (unfold visited; by rewrite HoA).
  assert (indexOf (_places w) A = 0%Z) as Hidx.
  { apply (indexOf_lookup _ 0); [apply HI|by rewrite Hpl]. }
  assert (arrives up A w = true) as Harr.
  { unfold arrives. rewrite Hd, HvA', Hidx.
    rewrite at_index_negative by lia.
    by rewrite (proj2 (Qle_bool_iff _ _) Hle). }
  destruct (arrivalCheck_cases up A w) as [[_ Heq]|[? _]]; [|congruence].
  set (w1 := set_hasArrivedAtSelectedPlace true (set_visited A true w)) in *.
  assert (visited w1 A = true) as Hv1A by by apply (visited_set_visited_true A oA w).
  assert (visited w1 B = false) as Hv1B.
  { change (visited (set_visited A true w) B = false).
    by rewrite visited_set_visited_ne. }
  assert (nextUnvisited w1 A = Some B) as Hnext.
  { unfold nextUnvisited. change (_places w1) with (_places w).
    rewrite Hidx, Hpl. simpl. by rewrite Hv1B. }
  rewrite (update_next up w A B HI Hsel); rewrite Heq; try done.
  cbv zeta. cbn [fst snd].
  set (w2 := set_status InProgress
               (set_selectedPlace SelNull (set_hasArrivedAtSelectedPlace true w1))).
  assert (placesAt w2 !! A = Some false) as HatA.
  { apply (inv_unvisited_placesAt w); [done| |done]. rewrite Hpl. by left. }
  assert (placesAt w2 !! B = Some false) as HatB.
  { apply (inv_unvisited_placesAt w); [done| |done]. rewrite Hpl. right. by left. }
  assert (sweepAndCompletion w2 = (confirmed A w2, [ArrivedAtPlace A])) as Hsac.
  { unfold sweepAndCompletion.
    rewrite (andThen_pair sweep completionCheck w2
               (confirmed A w2) [ArrivedAtPlace A] (confirmed A w2) []); [done| |].
    - unfold sweep. change (_places w2) with (_places w). rewrite Hpl. simpl.
      rewrite (andThen_pair _ _ w2
                 (confirmed A w2) [ArrivedAtPlace A] (confirmed A w2) []); [done| |].
      + apply sweepStep_confirm_head; [|done..].
        change (_places w !! 0 = Some A). by rewrite Hpl.
      + rewrite (andThen_pair _ _ (confirmed A w2)
                   (confirmed A w2) [] (confirmed A w2) []); [done| |done].
        apply (sweepStep_skip 1 B).
        * change (_places w !! 1 = Some B). by rewrite Hpl.
        * change (<[A:=true]> (placesAt w2) !! B = Some (visited w1 B)).
          by rewrite lookup_insert_ne, Hv1B.
    - unfold completionCheck.
      destruct (emittedAllVisited _); [done|].
      rewrite (allVisited_false _ B); [done|].
      change (<[A:=true]> (placesVisited w) !! B = Some false).
      rewrite lookup_insert_ne by done. by rewrite (inv_same _ HI). }
  rewrite Hsac. cbn [fst snd].
  split; [exact Hv1A|]. split; [exact Hv1B|]. split; [done|]. split; [done|].
  split; [done|].
  simpl. rewrite !count_cons_eq. by rewrite count_cons_ne.
Qed.

Lemma twoWithASelected_reachable : reachable gridDistance twoWithASelected.
Proof. apply run_reachable, twoRegistered_reachable. Qed.

Lemma two_waypoint_arrival_witness :
  let r := update userNearA twoWithASelected in
  visited r.1 refA = true
  ∧ visited r.1 refB = false
  ∧ selectedPlace r.1 = SelPlace refB
  ∧ _status r.1 = InProgress
  ∧ r.2 = [ArrivedAtPlace refA; ArrivedAtPlace refA; ArrivedAtPlace refA;
           NavigationStarted (Some refB)]
  ∧ count (ArrivedAtPlace refA) r.2 = 3.
Proof.
  apply (two_waypoint_arrival gridDistance userNearA twoWithASelected
           refA refB placeA 5%Q).
  - apply twoWithASelected_reachable.
  - by vm_compute.
  - by vm_compute.
  - by vm_compute.
  - by vm_compute.
  - by vm_compute.
  - by vm_compute.
  - by vm_compute.
Defined.

(** C3, as stated, fails in the two-waypoint scenario itself: A (radius
    10 m) is selected and unvisited, the user is 5 m away, yet the update
    emits the arrival at A three times, not once. *)
Lemma two_waypoint_arrival_counterexample :
  _places twoWithASelected = [refA; refB]
  ∧ selectedPlace twoWithASelected = SelPlace refA
  ∧ visited twoWithASelected refA = false
  ∧ getDistanceTo userNearA refA = Some 5%Q
  ∧ ¬ (visited (update userNearA twoWithASelected).1 refA = true
       ∧ selectedPlace (update userNearA twoWithASelected).1 = SelPlace refB
       ∧ count (ArrivedAtPlace refA) (update userNearA twoWithASelected).2 = 1).
Proof.
  repeat (split; [by vm_compute|]).
  intros (_ & _ & Hc). by vm_compute in Hc.
Qed.

(** ** C5: the sweep reverts an out-of-order flag *)

(** Every arrival the sweep emits is for a place that was visited when the
    sweep began, and so was its predecessor. *)
Lemma sweepLoop_events_prev n i w e :
  e ∈ (sweepLoop n i w).2 →
  ∃ k p, e = ArrivedAtPlace p ∧ _places w !! k = Some p ∧ visited w p = true
         ∧ ∀ j q, k = S j → _places w !! j = Some q → visited w q = true.
Proof.
  revert i w. induction n as [|n IH]; intros i w; simpl.
  - intros He. by apply elem_of_nil in He.
  - intros [He|He]%elem_of_app.
    + apply sweepStep_events in He as (p & -> & Hp & Hv & Hprev). eauto 10.
    + apply IH in He as (k & p & -> & Hp & Hv & Hprev).
      pose proof (sweepStep_frame i w) as Hf.
      rewrite (sf_places _ _ Hf) in Hp.
      exists k, p. split; [done|]. split; [done|]. split.
      * by apply (sf_mono _ _ Hf).
      * intros j q -> Hq. apply (sf_mono _ _ Hf). apply (Hprev j q); [done|].
        by rewrite (sf_places _ _ Hf).
Qed.

Lemma sweepAndCompletion_reverts w i P C :
  Inv w →
  _places w !! i = Some P → _places w !! S i = Some C →
  visited w P = false → visited w C = true →
  visited (sweepAndCompletion w).1 C = false
  ∧ (ArrivedAtPlace C ∉ (sweepAndCompletion w).2).
Proof.
  intros HI HP HC HvP HvC. split.
  - destruct (sweepAndCompletion_inv w HI) as [HI' HS'].
    pose proof (settled_sequential _ HI' HS') as Hseq.
    pose proof (sweepAndCompletion_frame w) as Hf.
    destruct (visited (sweepAndCompletion w).1 C) eqn:Hv; [|done].
    assert (visited (sweepAndCompletion w).1 P = true) as HvP'.
    { apply (Hseq i P C); by rewrite ?(sf_places _ _ Hf). }
    apply (sf_mono _ _ Hf) in HvP'. congruence.
  - unfold sweepAndCompletion, andThen; simpl. intros [He|He]%elem_of_app.
    + apply sweepLoop_events_prev in He as (k & p & [= <-] & Hp & _ & Hprev).
      pose proof (NoDup_lookup _ _ _ _ (inv_nodup _ HI) Hp HC) as ->.
      specialize (Hprev i P eq_refl HP). congruence.
    + destruct (completionCheck_cases (sweep w).1); simpl in He;
        try by apply elem_of_nil in He.
      by apply list_elem_of_singleton in He.
Qed.

Lemma update_reverts_out_of_order up w i P C :
  Inv w →
  _places w !! i = Some P → _places w !! S i = Some C →
  visited w P = false → visited w C = true →
  selectedPlace w ≠ SelPlace C →
  (selectedPlace w = SelPlace P → arrives up P w = false) →
  visited (update up w).1 C = false ∧ (ArrivedAtPlace C ∉ (update up w).2).
Proof.
  intros HI HP HC HvP HvC HselC HselP.
  assert (∀ sp s, selectedPlace w = SelPlace sp →
            let w1 := (arrivalCheck up sp w).1 in
            (ArrivedAtPlace C ∉ (arrivalCheck up sp w).2)
            ∧ ArrivedAtPlace C ≠ ArrivedAtPlace sp
            ∧ visited (sweepAndCompletion w1).1 C = false
            ∧ (ArrivedAtPlace C ∉ (sweepAndCompletion w1).2)
            ∧ visited (sweepAndCompletion (parked s w1)).1 C = false
            ∧ (ArrivedAtPlace C ∉ (sweepAndCompletion (parked s w1)).2)) as Hsel.
  { intros sp s Hsp w1. subst w1.
    assert (sp ≠ C) as HneC by congruence.
    pose proof (arrivalCheck_inv up sp w HI) as HI1.
    destruct (arrivalCheck_frame up sp w) as (Hpl & _ & _ & _ & _ & _ & Hother & _).
    assert (visited (arrivalCheck up sp w).1 C = true) as HvC1
      by (by rewrite Hother).
    assert (visited (arrivalCheck up sp w).1 P = false
            ∧ (ArrivedAtPlace C ∉ (arrivalCheck up sp w).2)) as [HvP1 Hev].
    { destruct (arrivalCheck_cases up sp w) as [[Harr Heq]|[_ Heq]].
      - assert (sp ≠ P) as HneP by (intros ->; rewrite HselP in Harr; done).
        split; [by rewrite Hother|]. rewrite Heq. simpl.
        intros ?%list_elem_of_singleton. congruence.
      - rewrite Heq. split; [done|]. simpl. by intros ?%elem_of_nil. }
    split; [done|]. split; [congruence|].
    assert (∀ w2, sameBook (arrivalCheck up sp w).1 w2 →
              visited (sweepAndCompletion w2).1 C = false
              ∧ (ArrivedAtPlace C ∉ (sweepAndCompletion w2).2)) as Hrev.
    { intros w2 Hb. apply (sweepAndCompletion_reverts w2 i P C).
      - by eapply Inv_sameBook.
      - by rewrite (sb_places _ _ Hb), Hpl.
      - by rewrite (sb_places _ _ Hb), Hpl.
      - by rewrite (visited_sameBook _ _ Hb).
      - by rewrite (visited_sameBook _ _ Hb). }
    destruct (Hrev _ (sameBook_refl _)) as [? ?].
    destruct (Hrev _ (parked_sameBook s _)) as [? ?]. done. }
  destruct (update_cases up w HI) as [Hs|sp Hs Hv|sp Hs Hv Hn|sp next Hs Hv Hn];
    simpl.
  - by apply (sweepAndCompletion_reverts w i P C).
  - destruct (Hsel sp InProgress Hs) as (He1 & _ & Hv2 & He2 & _).
    split; [done|]. by intros [?|?]%elem_of_app.
  - destruct (Hsel sp Succeeded Hs) as (He1 & Hne & _ & _ & Hv2 & He2).
    split; [done|]. intros [?|[?|?]%elem_of_cons]%elem_of_app; done.
  - destruct (Hsel sp InProgress Hs) as (He1 & Hne & _ & _ & Hv2 & He2).
    split; [exact Hv2|].
    intros [?|[?|[?|?%list_elem_of_singleton]%elem_of_app]%elem_of_cons]%elem_of_app;
      done.
Qed.

(** C5 (amended): let C be a registered waypoint that is not selected and
    whose predecessor P is unvisited.  If C's flag is set to true from
    outside and P is not the selected place arriving on the next update,
    that update sets C back to unvisited and emits no arrival for C. *)
Theorem sweep_reverts_out_of_order dist up w i P C oC :
  reachable dist w →
  _places w !! i = Some P → _places w !! S i = Some C →
  heap w !! C = Some oC →
  visited w P = false →
  selectedPlace w ≠ SelPlace C →
  (selectedPlace w = SelPlace P → arrives up P (set_visited C true w) = false) →
  let flagged := set_visited C true w in
  visited flagged C = true
  ∧ visited (update up flagged).1 C = false
  ∧ (ArrivedAtPlace C ∉ (update up flagged).2).
Proof.
  intros Hr HP HC HoC HvP HselC HselP flagged. subst flagged.
  pose proof (reachable_inv _ _ Hr) as HI.
  assert (P ≠ C) as Hne.
  { intros ->. pose proof (NoDup_lookup _ _ _ _ (inv_nodup _ HI) HP HC). lia. }
  split; [by eapply visited_set_visited_true|].
  apply (update_reverts_out_of_order up _ i P C); try done.
  - by apply Inv_set_visited_true.
  - by rewrite visited_set_visited_ne.
  - by eapply visited_set_visited_true.
Qed.

Lemma sweep_reverts_out_of_order_witness :
  let flagged := set_visited refB true twoRegistered in
  visited flagged refB = true
  ∧ visited (update userFar flagged).1 refB = false
  ∧ (ArrivedAtPlace refB ∉ (update userFar flagged).2).
Proof.
  apply (sweep_reverts_out_of_order gridDistance userFar twoRegistered
           0 refA refB placeB).
  - apply twoRegistered_reachable.
  - by vm_compute.
  - by vm_compute.
  - by vm_compute.
  - by vm_compute.
  - by vm_compute.
  - by vm_compute.
Defined.

(** C5, as stated, fails: A is selected and unvisited, B is flagged from
    outside, and the same update on which the user reaches A confirms B
    (its predecessor is visited by the time the sweep gets to it) and emits
    the arrival at B. *)
Lemma sweep_reverts_out_of_order_counterexample :
  let flagged := set_visited refB true twoWithASelected in
  _places flagged = [refA; refB]
  ∧ selectedPlace flagged = SelPlace refA
  ∧ visited flagged refA = false
  ∧ visited flagged refB = true
  ∧ visited (update userOnSpot flagged).1 refB = true
  ∧ ArrivedAtPlace refB ∈ (update userOnSpot flagged).2.
Proof.
  repeat (split; [by vm_compute|]).
  assert ((update userOnSpot (set_visited refB true twoWithASelected)).2
          = [ArrivedAtPlace refA; ArrivedAtPlace refA; ArrivedAtPlace refA;
             ArrivedAtPlace refB; AllPlacesVisited]) as -> by by vm_compute.
  set_solver.
Qed.

(** ** C1: sequential unlock *)

(** C1, as stated, fails: with A and B registered in this order and the
    user standing on both, B's own per-frame callback turns B visited
    while A is still unvisited. *)
Lemma sequential_unlock_counterexample :
  let w := run gridDistance [OnUpdate userOnSpot refB] twoRegistered in
  reachable gridDistance w
  ∧ visited twoRegistered refB = false
  ∧ visited w refB = true
  ∧ ¬ Sequential w.
Proof.
  split; [|split; [by vm_compute|split; [by vm_compute|]]].
  - apply run_reachable. unfold twoRegistered. apply run_reachable, initial_reachable.
  - intros Hseq. specialize (Hseq 0 refA refB).
    assert (visited (run gridDistance [OnUpdate userOnSpot refB] twoRegistered) refA
            = true) as Hv; [by apply Hseq; vm_compute|].
    by vm_compute in Hv.
Qed.

Lemma sweepAndCompletion_arrived w q :
  ArrivedAtPlace q ∈ (sweepAndCompletion w).2 → visited w q = true.
Proof.
  unfold sweepAndCompletion, andThen; simpl. intros [He|He]%elem_of_app.
  - apply sweepLoop_events_prev in He as (k & p & Heq & _ & Hv & _).
    by injection Heq as ->.
  - destruct (completionCheck_cases (sweep w).1); simpl in He;
      try by apply elem_of_nil in He.
    by apply list_elem_of_singleton in He.
Qed.

(** Whatever an update marks or announces that was not visited before is
    the selected place, and the arrival test has succeeded on it. *)
Lemma update_marks_guarded up w q :
  Inv w → visited w q = false →
  visited (update up w).1 q = true ∨ ArrivedAtPlace q ∈ (update up w).2 →
  selectedPlace w = SelPlace q ∧ arrives up q w = true.
Proof.
  intros HI Hq Hmark.
  assert (∀ sp, selectedPlace w = SelPlace sp →
            visited (arrivalCheck up sp w).1 q = true →
            selectedPlace w = SelPlace q ∧ arrives up q w = true) as Harr.
  { intros sp Hsp Hv1.
    destruct (arrivalCheck_cases up sp w) as [[Ha Heq]|[_ Heq]]; rewrite Heq in Hv1.
    - destruct (decide (q = sp)) as [->|Hne]; [done|].
      change (visited (set_visited sp true w) q = true) in Hv1.
      rewrite visited_set_visited_ne in Hv1 by done. congruence.
    - cbn [fst] in Hv1. congruence. }
  assert (∀ sp, selectedPlace w = SelPlace sp →
            ArrivedAtPlace q ∈ (arrivalCheck up sp w).2 →
            selectedPlace w = SelPlace q ∧ arrives up q w = true) as Hev.
  { intros sp Hsp He.
    destruct (arrivalCheck_cases up sp w) as [[Ha Heq]|[_ Heq]]; rewrite Heq in He.
    - apply list_elem_of_singleton in He. by injection He as ->.
    - by apply elem_of_nil in He. }
  destruct (update_cases up w HI) as [Hs|sp Hs Hv1|sp Hs Hv1 Hn|sp next Hs Hv1 Hn];
    cbn [fst snd] in Hmark.
  - exfalso. destruct Hmark as [Hv|He].
    + apply (sf_mono _ _ (sweepAndCompletion_frame _)) in Hv. congruence.
    + apply sweepAndCompletion_arrived in He. congruence.
  - destruct Hmark as [Hv|[He|He]%elem_of_app].
    + apply (sf_mono _ _ (sweepAndCompletion_frame _)) in Hv. by apply (Harr sp).
    + by apply (Hev sp).
    + apply sweepAndCompletion_arrived in He. by apply (Harr sp).
  - destruct Hmark as [Hv|[He|He]%elem_of_app].
    + apply (sf_mono _ _ (sweepAndCompletion_frame _)) in Hv. by apply (Harr sp).
    + by apply (Hev sp).
    + apply elem_of_cons in He as [He|He].
      * injection He as ->. by apply (Harr sp).
      * apply sweepAndCompletion_arrived in He. by apply (Harr sp).
  - destruct Hmark as [Hv|[He|He]%elem_of_app].
    + change (visited (sweepAndCompletion
                         (parked InProgress (arrivalCheck up sp w).1)).1 q = true) in Hv.
      apply (sf_mono _ _ (sweepAndCompletion_frame _)) in Hv. by apply (Harr sp).
    + by apply (Hev sp).
    + apply elem_of_cons in He as [He|He].
      * injection He as ->. by apply (Harr sp).
      * apply elem_of_app in He as [He|He].
        -- apply sweepAndCompletion_arrived in He. by apply (Harr sp).
        -- apply list_elem_of_singleton in He. discriminate He.
Qed.

(** C1 (amended): in every reachable world, at the end of every update of
    the controller no registered waypoint is visited while its predecessor
    in the list is unvisited; and the update itself marks, or announces
    the arrival at, a place that was unvisited before it only if that
    place is the selected one, the user's distance to it is known and
    within the threshold, and its predecessor in the list (if it has one)
    was visited before the update. *)
Theorem sequential_after_update dist w up :
  reachable dist w →
  Sequential (update up w).1
  ∧ ∀ q, visited w q = false →
         visited (update up w).1 q = true ∨ ArrivedAtPlace q ∈ (update up w).2 →
         selectedPlace w = SelPlace q
         ∧ (∃ d, getDistanceTo up q = Some d ∧ (d <= activationThreshold w q)%Q)
         ∧ ∀ i p, _places w !! i = Some p → _places w !! S i = Some q →
                  visited w p = true.
Proof.
  intros Hr. apply reachable_inv in Hr. split.
  { destruct (update_inv up w Hr). by apply settled_sequential. }
  intros q Hq Hmark.
  destruct (update_marks_guarded up w q Hr Hq Hmark) as [Hsel Harr].
  split; [done|]. unfold arrives in Harr.
  apply andb_true_iff in Harr as [[Hd Hprev]%andb_true_iff _]. split.
  - destruct (getDistanceTo up q) as [d|]; [|done].
    exists d. split; [done|]. by apply Qle_bool_iff.
  - intros i p Hp Hi.
    rewrite (indexOf_lookup _ _ _ (inv_nodup _ Hr) Hi) in Hprev.
    replace (Z.of_nat (S i) - 1)%Z with (Z.of_nat i) in Hprev by lia.
    by rewrite at_index_of_nat, Hp in Hprev.
Qed.

Lemma sequential_after_update_witness :
  Sequential
    (update userOnSpot (run gridDistance [OnUpdate userOnSpot refB] twoWithASelected)).1
  ∧ ArrivedAtPlace refB ∉ (update userOnSpot twoWithBSelected).2.
Proof.
  split.
  - apply (sequential_after_update gridDistance).
    do 3 apply run_reachable. apply initial_reachable.
  - intros He.
    destruct (sequential_after_update gridDistance twoWithBSelected userOnSpot)
      as [_ Hmarks].
    { do 2 apply run_reachable. apply initial_reachable. }
    destruct (Hmarks refB) as (_ & _ & Hprev); [by vm_compute|by right|].
    specialize (Hprev 0 refA). vm_compute in Hprev.
    by specialize (Hprev eq_refl eq_refl).
Defined.

(** ** C6: the completion latch *)

Lemma update_places up w : _places (update up w).1 = _places w.
Proof.
  unfold update, update_body, andThen; cbn [fst snd].
  rewrite (sf_places _ _ (sweepAndCompletion_frame _)).
  unfold selectedBlock. destruct (selectedPlace w) as [| |sp]; [done..|].
  unfold andThen; cbn [fst snd].
  assert (_places (arrivalCheck up sp w).1 = _places w) as Hpl
    by apply arrivalCheck_frame.
  rewrite <- Hpl. generalize (arrivalCheck up sp w).1 as w1. intros w1.
  unfold advance. destruct (visited w1 sp); [|done].
  unfold andThen, invoke, modify; cbn [fst snd].
  destruct (nextUnvisited _ sp) as [next|] eqn:Hn; [|done]. cbn [fst snd].
  apply nextUnvisited_Some in Hn as [Hin _].
  unfold navigateToPlace_nested.
  rewrite navigateToPlace_body_registered; [|done|done].
  cbv zeta. cbn [fst snd].
  set (w2 := set_status InProgress _).
  change (_places (update_nested up w2).1 = _places w1).
  unfold update_nested. rewrite update_body_unselected by (simpl; congruence).
  by rewrite (sf_places _ _ (sweepAndCompletion_frame _)).
Qed.

(** Counting the completion event of one update by the latch. *)
Lemma update_count up w :
  Inv w →
  count AllPlacesVisited (update up w).2
  = (if emittedAllVisited w then 0
     else if emittedAllVisited (update up w).1 then 1 else 0)
  ∧ (emittedAllVisited w = true → emittedAllVisited (update up w).1 = true).
Proof.
  intros HI.
  assert (∀ sp, count AllPlacesVisited (arrivalCheck up sp w).2 = 0) as Harr.
  { intros sp. destruct (arrivalCheck_cases up sp w) as [[_ ->]|[_ ->]]; done. }
  assert (∀ sp, emittedAllVisited (arrivalCheck up sp w).1 = emittedAllVisited w)
    as Hem by (intros sp; apply arrivalCheck_frame).
  destruct (update_cases up w HI) as [Hs|sp Hs Hv|sp Hs Hv Hn|sp next Hs Hv Hn];
    cbn [fst snd].
  - apply sweepAndCompletion_count.
  - rewrite count_app, Harr. simpl.
    destruct (sweepAndCompletion_count (arrivalCheck up sp w).1) as [Hc Hl].
    rewrite Hem in Hc, Hl. done.
  - rewrite count_app, Harr, count_cons_ne by done. simpl.
    destruct (sweepAndCompletion_count (parked Succeeded (arrivalCheck up sp w).1))
      as [Hc Hl].
    change (emittedAllVisited (parked Succeeded (arrivalCheck up sp w).1))
      with (emittedAllVisited (arrivalCheck up sp w).1) in Hc, Hl.
    rewrite Hem in Hc, Hl. done.
  - rewrite count_app, Harr, count_cons_ne, count_app by done. simpl.
    rewrite count_cons_ne by done. rewrite Nat.add_0_r.
    destruct (sweepAndCompletion_count (parked InProgress (arrivalCheck up sp w).1))
      as [Hc Hl].
    change (emittedAllVisited (parked InProgress (arrivalCheck up sp w).1))
      with (emittedAllVisited (arrivalCheck up sp w).1) in Hc, Hl.
    rewrite Hem in Hc, Hl. done.
Qed.

Lemma exec_inv dist c w : Inv w → Inv (exec dist c w).
Proof.
  intros HI. destruct c as [p o|up p|p|p|up place|up]; simpl.
  - destruct (heap w !! p) eqn:Hp; [done|]. by apply construct_inv.
  - by apply Place_onUpdate_inv.
  - by apply addPlace_present_inv.
  - by apply removePlace_inv.
  - by apply navigateToPlace_inv.
  - by apply update_inv.
Qed.

Lemma run_inv dist script w : Inv w → Inv (run dist script w).
Proof.
  revert w. induction script as [|c script IH]; intros w HI; [done|].
  apply IH. by apply exec_inv.
Qed.

Lemma removePlace_count p w : count AllPlacesVisited (removePlace p w).2 = 0.
Proof.
  unfold removePlace, andThen, modify, invoke, skip; simpl.
  by case_bool_decide.
Qed.

(** Every action that registers nothing counts the completion event by the
    latch, and leaves a set latch set. *)
Lemma exec_count dist c w :
  Inv w → registersNothing c w = true →
  count AllPlacesVisited (execEvents c w)
  = (if emittedAllVisited w then 0
     else if emittedAllVisited (exec dist c w) then 1 else 0)
  ∧ (emittedAllVisited w = true → emittedAllVisited (exec dist c w) = true).
Proof.
  intros HI Hreg.
  destruct c as [p o|up p|p|p|up place|up]; cbn [exec execEvents registersNothing] in *.
  - destruct (heap w !! p); simpl; by destruct (emittedAllVisited w).
  - unfold Place_onUpdate. destruct (heap w !! p) as [o|];
      [|by destruct (emittedAllVisited w)].
    destruct (checkVisited dist up o); simpl; by destruct (emittedAllVisited w).
  - unfold addPlace_present. rewrite Hreg. simpl. by destruct (emittedAllVisited w).
  - rewrite removePlace_count, removePlace_world. simpl.
    by destruct (emittedAllVisited w).
  - destruct (decide (selectedPlace w = toSelected place)) as [Hsel|Hsel].
    { rewrite navigateToPlace_same by done. simpl. by destruct (emittedAllVisited w). }
    rewrite navigateToPlace_world by done. cbv zeta. cbn [fst snd].
    assert (registerIfAbsent place w = (w, [])) as ->.
    { unfold registerIfAbsent. destruct place as [p|]; [|done]. by rewrite Hreg. }
    cbn [fst snd]. rewrite app_nil_l, count_app.
    rewrite (count_cons_ne _ (NavigationStarted place)) by done.
    rewrite Nat.add_0_r.
    apply (update_count up (set_status (statusFor place) w)).
    eapply Inv_sameBook; [|exact HI]. by constructor.
  - by apply update_count.
Qed.

Lemma run_count dist script w :
  Inv w → runRegistersNothing dist script w = true →
  count AllPlacesVisited (runEvents dist script w)
  = (if emittedAllVisited w then 0
     else if emittedAllVisited (run dist script w) then 1 else 0)
  ∧ (emittedAllVisited w = true → emittedAllVisited (run dist script w) = true).
Proof.
  revert w. induction script as [|c script IH]; intros w HI Hreg.
  - simpl. by destruct (emittedAllVisited w).
  - simpl in Hreg. apply andb_true_iff in Hreg as [Hc Hrest].
    change (run dist (c :: script) w) with (run dist script (exec dist c w)).
    simpl. rewrite count_app.
    destruct (exec_count dist c w HI Hc) as [-> Hl].
    destruct (IH (exec dist c w)) as [-> Hl']; [by apply exec_inv|done|].
    destruct (emittedAllVisited w).
    + rewrite Hl by done. auto.
    + destruct (emittedAllVisited (exec dist c w)).
      * rewrite Hl' by done. done.
      * done.
Qed.

Lemma run_app dist s1 s2 w : run dist (s1 ++ s2) w = run dist s2 (run dist s1 w).
Proof. unfold run. by rewrite foldl_app. Qed.

Lemma runEvents_app dist s1 s2 w :
  runEvents dist (s1 ++ s2) w
  = runEvents dist s1 w ++ runEvents dist s2 (run dist s1 w).
Proof.
  revert w. induction s1 as [|c s1 IH]; intros w; [done|].
  simpl. rewrite IH. by rewrite app_assoc.
Qed.

Lemma runRegistersNothing_app dist s1 s2 w :
  runRegistersNothing dist (s1 ++ s2) w
  = runRegistersNothing dist s1 w && runRegistersNothing dist s2 (run dist s1 w).
Proof.
  revert w. induction s1 as [|c s1 IH]; intros w; [done|].
  simpl. rewrite IH. by rewrite andb_assoc.
Qed.

Lemma update_completionSettled up w : Inv w → completionSettled (update up w).1.
Proof.
  intros HI.
  destruct (update_cases up w HI) as [Hs|sp Hs Hv|sp Hs Hv Hn|sp next Hs Hv Hn];
    cbn [fst snd]; apply sweepAndCompletion_completionSettled.
Qed.

(** Once an update ends with a non-empty list of visited places, the latch
    is set. *)
Lemma update_all_visited_latched up w :
  Inv w → _places w ≠ [] → allPlacesVisited (update up w).1 →
  emittedAllVisited (update up w).1 = true.
Proof.
  intros HI Hne Hall.
  destruct (update_inv up w HI) as [HI' HS'].
  pose proof (update_places up w) as Hpl.
  destruct (update_completionSettled up w HI) as [?|Hnot]; [done|].
  exfalso. apply not_true_iff_false in Hnot. apply Hnot.
  apply allVisited_true. rewrite (inv_same _ HI'). split.
  - destruct (_places w) as [|p l] eqn:Hl; [done|].
    assert (p ∈ _places (update up w).1) as Hp by (rewrite Hpl; by left).
    apply (inv_dom _ HI') in Hp as [b Hb]. intros Hempty.
    by rewrite Hempty, lookup_empty in Hb.
  - intros p b Hb.
    assert (p ∈ _places (update up w).1) as Hp by (apply (inv_dom _ HI'); eauto).
    rewrite (HS' p Hp) in Hb. rewrite (Hall p Hp) in Hb. congruence.
Qed.

(** C6 (amended): take any run of host actions (frame updates of the
    controller, per-frame callbacks of the places, removals, selections)
    that starts in a reachable world with the latch open and registers no
    new place.
    If one of its updates ends with a non-empty list whose places are all
    visited, the whole run emits [AllPlacesVisited] exactly once, whatever
    follows that update. *)
Theorem completion_latch dist w before up after :
  reachable dist w →
  emittedAllVisited w = false →
  runRegistersNothing dist (before ++ Update up :: after) w = true →
  _places (run dist (before ++ [Update up]) w) ≠ [] →
  allPlacesVisited (run dist (before ++ [Update up]) w) →
  count AllPlacesVisited (runEvents dist (before ++ Update up :: after) w) = 1.
Proof.
  intros Hr Hem Hreg Hne Hall.
  pose proof (reachable_inv _ _ Hr) as HI.
  replace (before ++ Update up :: after) with ((before ++ [Update up]) ++ after)
    in * by by rewrite <- app_assoc.
  rewrite runRegistersNothing_app in Hreg.
  apply andb_true_iff in Hreg as [Hreg1 Hreg2].
  rewrite runEvents_app, count_app.
  assert (emittedAllVisited (run dist (before ++ [Update up]) w) = true) as Hlatched.
  { revert Hne Hall. rewrite run_app.
    change (run dist [Update up] (run dist before w))
      with (update up (run dist before w)).1.
    intros Hne Hall.
    apply update_all_visited_latched; [by apply run_inv| |done].
    by rewrite update_places in Hne. }
  destruct (run_count dist (before ++ [Update up]) w HI Hreg1) as [-> _].
  destruct (run_count dist after (run dist (before ++ [Update up]) w)) as [-> _];
    [by apply run_inv|done|].
  by rewrite Hem, Hlatched.
Qed.

Lemma allPlacesVisited_forallb w :
  forallb (visited w) (_places w) = true → allPlacesVisited w.
Proof.
  intros Hall p Hp. rewrite forallb_forall in Hall.
  apply Hall. by apply list_elem_of_In.
Qed.

Lemma completion_latch_witness :
  count AllPlacesVisited
    (runEvents gridDistance
       ([Update userNearA; OnUpdate userOnSpot refB] ++ Update userOnSpot ::
        [Update userOnSpot; NavigateToPlace userFar (Some refA); Update userOnSpot;
         RemovePlace refB; Update userFar])
       twoWithASelected) = 1.
Proof.
  apply (completion_latch gridDistance).
  - apply twoWithASelected_reachable.
  - by vm_compute.
  - by vm_compute.
  - by vm_compute.
  - apply allPlacesVisited_forallb. by vm_compute.
Defined.

(** C6, as stated, fails: the quest of A and B is completed, then a third
    place is registered and visited; [addPlace] has re-opened the latch,
    and [AllPlacesVisited] is emitted a second time. *)
Lemma completion_latch_counterexample :
  let before := [Construct refC placeC; Update userOnSpot] in
  let after := [AddPlace refC; OnUpdate userOnSpot refC; Update userOnSpot] in
  reachable gridDistance twoWithASelected
  ∧ emittedAllVisited twoWithASelected = false
  ∧ _places (run gridDistance (before ++ [Update userOnSpot]) twoWithASelected) ≠ []
  ∧ allPlacesVisited (run gridDistance (before ++ [Update userOnSpot]) twoWithASelected)
  ∧ runRegistersNothing gridDistance (before ++ Update userOnSpot :: after)
      twoWithASelected = false
  ∧ count AllPlacesVisited
      (runEvents gridDistance (before ++ Update userOnSpot :: after) twoWithASelected)
    = 2.
Proof.
  split; [apply twoWithASelected_reachable|].
  split; [by vm_compute|]. split; [by vm_compute|].
  split; [apply allPlacesVisited_forallb; by vm_compute|].
  split; by vm_compute.
Qed.

(** ** C2: when the status is [Succeeded] *)

Lemma sweepLoop_allPlacesVisited n i w :
  allPlacesVisited w → allPlacesVisited (sweepLoop n i w).1.
Proof.
  revert i w. induction n as [|n IH]; intros i w Hall; [done|].
  simpl. apply IH.
  destruct (sweepStep_cases i w) as [?|p Hp Hv Hat Hprev|p j Hp Hv Hat -> Hprev|p Hp Hv Hat];
    simpl; try done.
  exfalso.
  destruct (_places w !! j) as [q|] eqn:Hq.
  - specialize (Hprev q eq_refl). rewrite Hall in Hprev; [done|].
    by eapply list_elem_of_lookup_2.
  - apply lookup_ge_None in Hq. apply lookup_lt_Some in Hp. lia.
Qed.

Lemma sweepAndCompletion_allPlacesVisited w :
  allPlacesVisited w → allPlacesVisited (sweepAndCompletion w).1.
Proof.
  intros Hall. unfold sweepAndCompletion, andThen. cbn [fst snd].
  eapply allPlacesVisited_sameBook; [apply completionCheck_sameBook|].
  by apply sweepLoop_allPlacesVisited.
Qed.

Lemma Sequential_far w j k p q :
  Sequential w → j ≤ k → _places w !! j = Some p → _places w !! k = Some q →
  visited w q = true → visited w p = true.
Proof.
  intros Hseq Hjk. revert q. induction Hjk as [|k Hjk IH]; intros q Hp Hq Hv.
  - congruence.
  - destruct (_places w !! k) as [r|] eqn:Hr.
    + apply (IH r); [done..|]. by eapply (Hseq k r q).
    + apply lookup_ge_None in Hr. apply lookup_lt_Some in Hq. lia.
Qed.

(** When the selected place is visited after the arrival check and
    nothing unvisited follows it, every registered place is visited. *)
Lemma arrival_completes up w sp :
  Inv w → Sequential w → sp ∈ _places w →
  visited (arrivalCheck up sp w).1 sp = true →
  nextUnvisited (arrivalCheck up sp w).1 sp = None →
  allPlacesVisited (arrivalCheck up sp w).1.
Proof.
  intros HI Hseq Hin Hv Hn p Hp.
  destruct (arrivalCheck_frame up sp w) as (Hpl & _ & _ & _ & _ & _ & _ & Hmono & _).
  rewrite Hpl in Hp.
  apply list_elem_of_lookup in Hin as [k Hk].
  apply list_elem_of_lookup in Hp as [j Hj].
  pose proof (indexOf_lookup _ _ _ (inv_nodup _ HI) Hk) as Hidx.
  destruct (decide (k < j)) as [Hlt|Hge].
  { eapply (nextUnvisited_None _ _ Hn j); rewrite Hpl; [lia|done]. }
  destruct (decide (j = k)) as [->|Hne]; [congruence|].
  apply Hmono.
  destruct (arrivalCheck_cases up sp w) as [[Harr _]|[_ Heq]].
  - unfold arrives in Harr. rewrite Hidx in Harr.
    replace (Z.of_nat k - 1)%Z with (Z.of_nat (k - 1)) in Harr by lia.
    rewrite at_index_of_nat in Harr.
    destruct (_places w !! (k - 1)) as [q|] eqn:Hq.
    + apply andb_true_iff in Harr as [[_ Hprev]%andb_true_iff _].
      apply (Sequential_far w j (k - 1) p q); [done|lia|done..].
    + apply lookup_ge_None in Hq. apply lookup_lt_Some in Hk. lia.
  - rewrite Heq in Hv. apply (Sequential_far w j k p sp); [done|lia|done..].
Qed.

(** C2 (amended): take an update that starts with a registered place
    selected, a status other than [Succeeded], and no waypoint visited
    ahead of its predecessor.  After it, the status is [Succeeded] if and
    only if the list is non-empty and every registered waypoint is
    visited. *)
Theorem succeeded_iff_all_visited dist up w sp :
  reachable dist w →
  Sequential w →
  selectedPlace w = SelPlace sp → sp ∈ _places w →
  _status w ≠ Succeeded →
  _status (update up w).1 = Succeeded
  ↔ _places (update up w).1 ≠ [] ∧ allPlacesVisited (update up w).1.
Proof.
  intros Hr Hseq Hsel Hin Hst.
  pose proof (reachable_inv _ _ Hr) as HI.
  pose proof (update_places up w) as Hpl.
  rewrite Hpl.
  destruct (arrivalCheck_frame up sp w) as (Hpl1 & _ & _ & Hst1 & _).
  destruct (update_cases up w HI) as [Hs|sp' Hs Hv|sp' Hs Hv Hn|sp' next Hs Hv Hn];
    cbn [fst snd].
  - by destruct (Hs sp).
  - rewrite Hsel in Hs. injection Hs as <-.
    pose proof (sweepAndCompletion_frame (arrivalCheck up sp w).1) as Hf.
    rewrite (sf_status _ _ Hf), Hst1. split; [done|]. intros [_ Hall].
    specialize (Hall sp). rewrite (sf_places _ _ Hf), Hpl1 in Hall.
    apply (sf_mono _ _ Hf) in Hall; [congruence|done].
  - rewrite Hsel in Hs. injection Hs as <-.
    pose proof (sweepAndCompletion_frame (parked Succeeded (arrivalCheck up sp w).1))
      as Hf.
    rewrite (sf_status _ _ Hf). split; [|done]. intros _. split.
    + intros Hnil. rewrite Hnil in Hin. by apply elem_of_nil in Hin.
    + apply sweepAndCompletion_allPlacesVisited.
      eapply allPlacesVisited_sameBook; [apply parked_sameBook|].
      by apply arrival_completes.
  - rewrite Hsel in Hs. injection Hs as <-.
    pose proof (sweepAndCompletion_frame (parked InProgress (arrivalCheck up sp w).1))
      as Hf.
    change (_status (selectedNow next
              (sweepAndCompletion (parked InProgress (arrivalCheck up sp w).1)).1))
      with (_status (sweepAndCompletion
                       (parked InProgress (arrivalCheck up sp w).1)).1).
    rewrite (sf_status _ _ Hf). split; [done|]. intros [_ Hall].
    apply nextUnvisited_Some in Hn as [Hnext Hvn].
    specialize (Hall next).
    change (_places (selectedNow next
              (sweepAndCompletion (parked InProgress (arrivalCheck up sp w).1)).1))
      with (_places (sweepAndCompletion
                       (parked InProgress (arrivalCheck up sp w).1)).1) in Hall.
    rewrite (sf_places _ _ Hf) in Hall. specialize (Hall Hnext).
    change (visited (sweepAndCompletion
                       (parked InProgress (arrivalCheck up sp w).1)).1 next = true)
      in Hall.
    apply (sf_mono _ _ Hf) in Hall.
    change (visited (arrivalCheck up sp w).1 next = true) in Hall. congruence.
Qed.

Lemma succeeded_iff_all_visited_witness :
  let w := (update userNearA twoWithASelected).1 in
  _status (update userOnSpot w).1 = Succeeded
  ↔ _places (update userOnSpot w).1 ≠ [] ∧ allPlacesVisited (update userOnSpot w).1.
Proof.
  apply (succeeded_iff_all_visited gridDistance userOnSpot _ refB).
  - apply update_reachable, twoWithASelected_reachable.
  - pose proof (reachable_inv _ _ twoWithASelected_reachable) as HI.
    destruct (update_inv userNearA twoWithASelected HI) as [HI' HS'].
    by apply settled_sequential.
  - by vm_compute.
  - vm_compute. repeat constructor.
  - by vm_compute.
Defined.

(** C2, as stated, fails: once every waypoint has been visited the status
    is [Succeeded], and it stays so when another waypoint is registered. *)
Lemma succeeded_iff_all_visited_counterexample :
  let w := run gridDistance
               [Update userNearA; Update userOnSpot;
                Construct refC placeC; AddPlace refC] twoWithASelected in
  reachable gridDistance w
  ∧ _status w = Succeeded
  ∧ _places w = [refA; refB; refC]
  ∧ visited w refC = false
  ∧ ¬ (_status w = Succeeded ↔ _places w ≠ [] ∧ allPlacesVisited w).
Proof.
  split; [apply run_reachable, twoWithASelected_reachable|].
  split; [by vm_compute|]. split; [by vm_compute|]. split; [by vm_compute|].
  intros [Hall _].
  destruct Hall as [_ Hall]; [by vm_compute|].
  specialize (Hall refC).
  assert (visited (run gridDistance
                     [Update userNearA; Update userOnSpot;
                      Construct refC placeC; AddPlace refC] twoWithASelected) refC
          = true) as Hv.
  { apply Hall. vm_compute. repeat constructor. }
  by vm_compute in Hv.
Qed.

(** ** C4: projection of a waypoint without a GPS fix *)

(** Whatever the inputs, the projection returns a vector, and its Y is
    the Y of the anchor's world position. *)
Lemma calculateRelativePosition_pinned
    (dist : GeoPosition → GeoPosition → Q)
    (calculateBearing : option GeoPosition → GeoPosition → Q)
    (normalizeAngle : Q → Q) (projectOnPlane_up normalize : vec3 → vec3)
    (quat : Type) (quat_fromEulerAngles : Q → Q → Q → quat)
    (quat_multiplyVec3 : quat → vec3 → vec3) up this yOffset :
  ∃ v, calculateRelativePosition dist calculateBearing normalizeAngle
         projectOnPlane_up normalize quat quat_fromEulerAngles quat_multiplyVec3
         up this yOffset = Some v
       ∧ y v = y (getWorldPosition (getRelativeTransform up)).
Proof. unfold calculateRelativePosition. eexists. split; [reflexivity|done]. Qed.

(** C4 (the code at the failing input): a user without a fix does not make
    [getRelativePosition] return null.  The null distance and bearing are
    converted to 0 by the arithmetic, and the result is a vector with the
    anchor's X, Y and Z up to the zero-length offset. *)
Theorem getRelativePosition_without_fix
    (dist : GeoPosition → GeoPosition → Q)
    (calculateBearing : option GeoPosition → GeoPosition → Q)
    (normalizeAngle : Q → Q) (projectOnPlane_up normalize : vec3 → vec3)
    (quat : Type) (quat_fromEulerAngles : Q → Q → Q → quat)
    (quat_multiplyVec3 : quat → vec3 → vec3) up this :
  getGeoPosition up = None →
  getPhysicalDistance dist up this = None
  ∧ ∃ v, getRelativePosition dist calculateBearing normalizeAngle
           projectOnPlane_up normalize quat quat_fromEulerAngles quat_multiplyVec3
           up this = Some v
         ∧ y v = y (getWorldPosition (getRelativeTransform up))
         ∧ (x v == x (getWorldPosition (getRelativeTransform up)))%Q
         ∧ (z v == z (getWorldPosition (getRelativeTransform up)))%Q.
Proof.
  intros Hfix. unfold getPhysicalDistance. rewrite Hfix. split; [done|].
  unfold getRelativePosition, calculateRelativePosition, getPhysicalDistance.
  rewrite Hfix. eexists. split; [reflexivity|]. simpl.
  split; [done|]. split; ring.
Qed.

Lemma getRelativePosition_without_fix_witness :
  ∃ v, getRelativePosition gridDistance (λ _ _, 0%Q) (λ a, a) (λ v, v) (λ v, v)
         unit (λ _ _ _, tt) (λ _ v, v) userNoFix placeA = Some v
       ∧ y v = 0%Q.
Proof.
  destruct (getRelativePosition_without_fix gridDistance (λ _ _, 0%Q) (λ a, a)
              (λ v, v) (λ v, v) unit (λ _ _ _, tt) (λ _ v, v) userNoFix placeA)
    as (_ & v & Hv & Hy & _).
  - reflexivity.
  - exists v. split; [exact Hv|exact Hy].
Defined.

(** ** C8: registration of a malformed waypoint definition *)





(** * Further properties of the modelled code *)

(** ** NavigationDataComponent: the bookkeeping in reachable worlds *)

(** X1: in every reachable world the list has no duplicates, the two
    bookkeeping maps have exactly the registered places as keys and agree
    with each other, a place recorded as reached is visited, and the
    places recorded as reached form an initial segment of the list. *)
Theorem reachable_bookkeeping dist w :
  reachable dist w →
  NoDup (_places w)
  ∧ (∀ p, p ∈ _places w ↔ is_Some (placesAt w !! p))
  ∧ (∀ p, p ∈ _places w ↔ is_Some (placesVisited w !! p))
  ∧ placesVisited w = placesAt w
  ∧ (∀ p, placesAt w !! p = Some true → visited w p = true)
  ∧ (∀ i j p q, i ≤ j → _places w !! i = Some p → _places w !! j = Some q →
                placesAt w !! q = Some true → placesAt w !! p = Some true).
Proof.
  intros Hr. pose proof (reachable_inv _ _ Hr) as HI.
  split; [apply HI|]. split; [apply HI|].
  split; [rewrite (inv_same _ HI); apply HI|].
  split; [apply HI|]. split; [apply HI|].
  intros i j p q Hij Hp Hq Hat. by eapply inv_prefix_far.
Qed.

Lemma reachable_bookkeeping_witness :
  NoDup (_places twoWithASelected)
  ∧ placesVisited twoWithASelected = placesAt twoWithASelected.
Proof.
  destruct (reachable_bookkeeping gridDistance twoWithASelected)
    as (Hnd & _ & _ & Hsame & _).
  - apply twoWithASelected_reachable.
  - split; [exact Hnd|exact Hsame].
Defined.

(** A place recorded as reached stays recorded through the sweep. *)
Lemma sweepLoop_keeps_reached n i w p :
  Inv w → SettledBelow i w → placesAt w !! p = Some true →
  placesAt (sweepLoop n i w).1 !! p = Some true.
Proof.
  revert i w. induction n as [|n IH]; intros i w HI HS Hat; [done|].
  simpl. destruct (sweepStep_inv i w HI HS) as [HI' HS'].
  apply IH; [done..|].
  destruct (sweepStep_cases i w) as [?|q Hq Hv Hat' Hprev|q j Hq Hv Hat' -> Hprev|q Hq Hv Hat'];
    simpl; try done.
  - destruct (decide (p = q)) as [->|Hne]; [by rewrite lookup_insert_eq|].
    by rewrite lookup_insert_ne.
  - destruct (decide (p = q)) as [->|Hne].
    + apply (inv_visited _ HI) in Hat. congruence.
    + by rewrite lookup_insert_ne.
Qed.

Lemma sweepAndCompletion_keeps_reached w p :
  Inv w → placesAt w !! p = Some true →
  placesAt (sweepAndCompletion w).1 !! p = Some true.
Proof.
  intros HI Hat. unfold sweepAndCompletion, andThen. cbn [fst snd].
  rewrite (sb_placesAt _ _ (completionCheck_sameBook _)).
  apply sweepLoop_keeps_reached; [done| |done]. intros j q Hj. lia.
Qed.

Lemma update_keeps_reached up w p :
  Inv w → placesAt w !! p = Some true →
  placesAt (update up w).1 !! p = Some true.
Proof.
  intros HI Hat.
  assert (∀ sp s, placesAt (sweepAndCompletion (parked s (arrivalCheck up sp w).1)).1
                  !! p = Some true) as Hparked.
  { intros sp s. apply sweepAndCompletion_keeps_reached.
    - eapply Inv_sameBook; [apply parked_sameBook|]. by apply arrivalCheck_inv.
    - destruct (arrivalCheck_frame up sp w) as (_ & Heq & _). simpl. by rewrite Heq. }
  destruct (update_cases up w HI) as [Hs|sp Hs Hv|sp Hs Hv Hn|sp next Hs Hv Hn];
    cbn [fst snd].
  - by apply sweepAndCompletion_keeps_reached.
  - apply sweepAndCompletion_keeps_reached; [by apply arrivalCheck_inv|].
    destruct (arrivalCheck_frame up sp w) as (_ & Heq & _). by rewrite Heq.
  - apply Hparked.
  - apply (Hparked sp InProgress).
Qed.

Lemma registerIfAbsent_keeps_reached place w p :
  Inv w → placesAt w !! p = Some true →
  placesAt (registerIfAbsent place w).1 !! p = Some true.
Proof.
  intros HI Hat. unfold registerIfAbsent. destruct place as [q|]; [|done].
  unfold includes. case_bool_decide as Hin; [done|].
  unfold addPlace_present, includes. rewrite bool_decide_false by done. simpl.
  rewrite lookup_insert_ne; [done|]. intros ->. apply Hin.
  apply (inv_dom _ HI). eauto.
Qed.

(** X2: no operation of the controller, no per-frame callback and no
    construction of a new object ever resets the visited flag of a place
    that the controller has recorded as reached; and as long as the place
    stays registered it stays recorded. *)
Theorem reached_is_permanent dist w w' p :
  reachable dist w → step dist w w' →
  placesAt w !! p = Some true →
  visited w' p = true ∧ (p ∈ _places w' → placesAt w' !! p = Some true).
Proof.
  intros Hr Hstep Hat. pose proof (reachable_inv _ _ Hr) as HI.
  pose proof (step_inv _ _ _ Hstep HI) as HI'.
  assert (visited w p = true) as Hv by by apply (inv_visited _ HI).
  assert (p ∈ _places w) as Hin by (apply (inv_dom _ HI); eauto).
  destruct Hstep as [w q o Hq|w up q|w q|w q|w up place|w up].
  - split; [|done]. unfold visited in *. simpl.
    rewrite lookup_insert_ne; [done|]. intros ->. by rewrite Hq in Hv.
  - unfold Place_onUpdate. destruct (heap w !! q) as [o|]; [|done].
    destruct (checkVisited dist up o); [|done].
    split; [by apply visited_set_visited_mono|done].
  - assert (placesAt (addPlace_present q w).1 !! p = Some true) as Hat'.
    { pose proof (registerIfAbsent_keeps_reached (Some q) w p HI Hat) as Hat2.
      unfold registerIfAbsent, addPlace_present in *.
      by destruct (includes (_places w) q). }
    split; [by apply (inv_visited _ HI')|done].
  - rewrite removePlace_world. split; [exact Hv|]. simpl.
    intros [Hne _]%list_elem_of_filter. by rewrite lookup_delete_ne.
  - assert (placesAt (navigateToPlace up place w).1 !! p = Some true) as Hat'.
    { destruct (decide (selectedPlace w = toSelected place)) as [Hsel|Hsel].
      - by rewrite navigateToPlace_same.
      - rewrite navigateToPlace_world by done. cbv zeta. cbn [fst snd].
        change (placesAt (update up (set_status (statusFor place)
                                       (registerIfAbsent place w).1)).1 !! p
                = Some true).
        apply update_keeps_reached.
        + eapply Inv_sameBook; [|exact (registerIfAbsent_inv place w HI)].
          by constructor.
        + simpl. by apply registerIfAbsent_keeps_reached. }
    split; [by apply (inv_visited _ HI')|done].
  - assert (placesAt (update up w).1 !! p = Some true) as Hat'
      by by apply update_keeps_reached.
    split; [by apply (inv_visited _ HI')|done].
Qed.

Lemma reached_is_permanent_witness :
  visited (update userFar (update userNearA twoWithASelected).1).1 refA = true.
Proof.
  refine (proj1 (reached_is_permanent gridDistance
                   (update userNearA twoWithASelected).1 _ refA _ _ _)).
  - apply update_reachable, twoWithASelected_reachable.
  - apply step_update.
  - by vm_compute.
Defined.

(** ** NavigationDataComponent: what one update can and cannot do *)

(** X3: [update] never adds or removes a waypoint, and [navigateToPlace]
    changes the list only by appending its argument when that is a place
    not yet registered (and the call does not return at once). *)
Theorem list_changes_only_by_registration up place w :
  _places (update up w).1 = _places w
  ∧ _places (navigateToPlace up place w).1
    = match place with
      | Some p =>
          if decide (selectedPlace w = SelPlace p) then _places w
          else if includes (_places w) p then _places w
          else _places w ++ [p]
      | None => _places w
      end.
Proof.
  split; [apply update_places|].
  destruct (decide (selectedPlace w = toSelected place)) as [Hsel|Hsel].
  - rewrite navigateToPlace_same by done. destruct place as [p|]; [|done].
    by rewrite decide_True.
  - rewrite navigateToPlace_world by done. cbv zeta. cbn [fst snd].
    change (_places (update up (set_status (statusFor place)
                                  (registerIfAbsent place w).1)).1 = 
            match place with
            | Some p =>
                if decide (selectedPlace w = SelPlace p) then _places w
                else if includes (_places w) p then _places w
                else _places w ++ [p]
            | None => _places w
            end).
    rewrite update_places. simpl.
    destruct place as [p|]; [|done]. simpl in *.
    rewrite decide_False by done.
    unfold addPlace_present. by destruct (includes (_places w) p).
Qed.

(** X4: at the end of an update the selected place, if there is one, is
    unvisited; and when the update has changed the selection to a place,
    that place is registered. *)
Theorem selection_is_unvisited dist up w sp :
  reachable dist w →
  selectedPlace (update up w).1 = SelPlace sp →
  visited (update up w).1 sp = false
  ∧ (selectedPlace w ≠ SelPlace sp → sp ∈ _places w).
Proof.
  intros Hr. pose proof (reachable_inv _ _ Hr) as HI.
  destruct (update_cases up w HI) as [Hs|sp' Hs Hv|sp' Hs Hv Hn|sp' next Hs Hv Hn];
    cbn [fst snd].
  - rewrite (sf_selected _ _ (sweepAndCompletion_frame _)). intros Hsel.
    by destruct (Hs sp).
  - pose proof (sweepAndCompletion_frame (arrivalCheck up sp' w).1) as Hf.
    rewrite (sf_selected _ _ Hf).
    destruct (arrivalCheck_frame up sp' w) as (_ & _ & _ & _ & -> & _).
    rewrite Hs. intros [= ->]. split; [|done].
    destruct (visited (sweepAndCompletion (arrivalCheck up sp w).1).1 sp) eqn:Hv';
      [|done].
    apply (sf_mono _ _ Hf) in Hv'. congruence.
  - pose proof (sweepAndCompletion_frame (parked Succeeded (arrivalCheck up sp' w).1))
      as Hf.
    rewrite (sf_selected _ _ Hf). simpl. done.
  - simpl. intros [= ->].
    pose proof (sweepAndCompletion_frame (parked InProgress (arrivalCheck up sp' w).1))
      as Hf.
    apply nextUnvisited_Some in Hn as [Hin Hvn].
    destruct (arrivalCheck_frame up sp' w) as (Hpl & _).
    split; [|intros _; by rewrite <- Hpl].
    change (visited (sweepAndCompletion
                       (parked InProgress (arrivalCheck up sp' w).1)).1 sp = false).
    destruct (visited (sweepAndCompletion
                         (parked InProgress (arrivalCheck up sp' w).1)).1 sp) eqn:Hv';
      [|done].
    apply (sf_mono _ _ Hf) in Hv'.
    change (visited (arrivalCheck up sp' w).1 sp = true) in Hv'. congruence.
Qed.

Lemma selection_is_unvisited_witness :
  visited (update userNearA twoWithASelected).1 refB = false.
Proof.
  refine (proj1 (selection_is_unvisited gridDistance userNearA twoWithASelected
                   refB _ _)).
  - apply twoWithASelected_reachable.
  - by vm_compute.
Defined.

(** X5: one update emits [NavigationStarted] at most once, and only for
    the place that is selected when the update ends.  In particular the
    update that ends the quest (status [Succeeded], nothing selected)
    emits no [NavigationStarted]. *)
Theorem update_navigationStarted dist up w :
  reachable dist w →
  filter isNavigationStarted (update up w).2 = []
  ∨ ∃ next, filter isNavigationStarted (update up w).2 = [NavigationStarted (Some next)]
            ∧ selectedPlace (update up w).1 = SelPlace next
            ∧ _status (update up w).1 = InProgress.
Proof.
  intros Hr. pose proof (reachable_inv _ _ Hr) as HI.
  assert (∀ w0, filter isNavigationStarted (sweepAndCompletion w0).2 = []) as Hsac.
  { intros w0. apply filter_isNavigationStarted_nil.
    intros e [->|(p & -> & _)]%sweepAndCompletion_events; done. }
  assert (∀ sp, filter isNavigationStarted (arrivalCheck up sp w).2 = []) as Harr.
  { intros sp. by destruct (arrivalCheck_cases up sp w) as [[_ ->]|[_ ->]]. }
  assert (∀ p l, filter isNavigationStarted (ArrivedAtPlace p :: l)
                 = filter isNavigationStarted l) as Hcons by done.
  destruct (update_cases up w HI) as [Hs|sp Hs Hv|sp Hs Hv Hn|sp next Hs Hv Hn];
    cbn [fst snd].
  - left. apply Hsac.
  - left. by rewrite filter_app, Harr, Hsac.
  - left. rewrite filter_app, Harr, Hcons. apply Hsac.
  - right. exists next. split; [|split; [done|]].
    + by rewrite filter_app, Harr, Hcons, filter_app, Hsac.
    + change (_status (sweepAndCompletion
                         (parked InProgress (arrivalCheck up sp w).1)).1 = InProgress).
      by rewrite (sf_status _ _ (sweepAndCompletion_frame _)).
Qed.

Lemma update_navigationStarted_witness :
  filter isNavigationStarted (update userNearA twoWithASelected).2
  = [NavigationStarted (Some refB)].
Proof.
  destruct (update_navigationStarted gridDistance userNearA twoWithASelected)
    as [Hnil|(next & Hone & Hsel & _)].
  - apply twoWithASelected_reachable.
  - by vm_compute in Hnil.
  - rewrite Hone. vm_compute in Hsel. by injection Hsel as <-.
Defined.

(** X6: an update leaves the world settled.  A second update on which the
    selected place (if any) does not arrive changes nothing and emits
    nothing. *)
Theorem update_settles dist up up' w :
  reachable dist w →
  (∀ sp, selectedPlace (update up w).1 = SelPlace sp →
         arrives up' sp (update up w).1 = false) →
  update up' (update up w).1 = ((update up w).1, []).
Proof.
  intros Hr Hquiet. pose proof (reachable_inv _ _ Hr) as HI.
  destruct (update_inv up w HI) as [HI1 HS1].
  assert (completionSettled (update up w).1) as HC1.
  { destruct (update_cases up w HI) as [Hs|sp Hs Hv|sp Hs Hv Hn|sp next Hs Hv Hn];
      cbn [fst snd]; apply sweepAndCompletion_completionSettled. }
  destruct (selectedPlace (update up w).1) as [| |sp] eqn:Hsel.
  - rewrite update_unselected by congruence. by apply sweepAndCompletion_idle.
  - rewrite update_unselected by congruence. by apply sweepAndCompletion_idle.
  - assert (arrivalCheck up' sp (update up w).1 = ((update up w).1, [])) as Heq.
    { destruct (arrivalCheck_cases up' sp (update up w).1) as [[Harr _]|[_ ->]];
        [|done]. by rewrite Hquiet in Harr. }
    assert (visited (update up w).1 sp = false) as Hv.
    { destruct (update_cases up w HI) as [Hs|sp' Hs Hv|sp' Hs Hv Hn|sp' next Hs Hv Hn];
        cbn [fst snd] in *.
      - rewrite (sf_selected _ _ (sweepAndCompletion_frame _)) in Hsel.
        by destruct (Hs sp).
      - pose proof (sweepAndCompletion_frame (arrivalCheck up sp' w).1) as Hf.
        rewrite (sf_selected _ _ Hf) in Hsel.
        destruct (arrivalCheck_frame up sp' w) as (_ & _ & _ & _ & Hsel' & _).
        rewrite Hsel', Hs in Hsel. injection Hsel as <-.
        destruct (visited (sweepAndCompletion (arrivalCheck up sp' w).1).1 sp') eqn:Hv';
          [|done].
        apply (sf_mono _ _ Hf) in Hv'. congruence.
      - rewrite (sf_selected _ _ (sweepAndCompletion_frame _)) in Hsel. done.
      - simpl in Hsel. injection Hsel as <-.
        pose proof (sweepAndCompletion_frame
                      (parked InProgress (arrivalCheck up sp' w).1)) as Hf.
        apply nextUnvisited_Some in Hn as [_ Hvn].
        change (visited (sweepAndCompletion
                           (parked InProgress (arrivalCheck up sp' w).1)).1 next = false).
        destruct (visited (sweepAndCompletion
                             (parked InProgress (arrivalCheck up sp' w).1)).1 next)
          eqn:Hv'; [|done].
        apply (sf_mono _ _ Hf) in Hv'.
        change (visited (arrivalCheck up sp' w).1 next = true) in Hv'. congruence. }
    rewrite (update_stay up' _ sp Hsel); rewrite Heq; [|done].
    cbv zeta. cbn [fst snd]. by rewrite sweepAndCompletion_idle.
Qed.

Lemma update_settles_witness :
  update userFar (update userNearA twoWithASelected).1
  = ((update userNearA twoWithASelected).1, []).
Proof.
  apply (update_settles gridDistance).
  - apply twoWithASelected_reachable.
  - intros sp Hsp. vm_compute in Hsp. injection Hsp as <-. by vm_compute.
Defined.

(** When the completion check fires on a settled world, every registered
    place is visited and there is at least one. *)
Lemma allVisited_settled w :
  Inv w → Settled w → allVisited (placesVisited w) = true →
  _places w ≠ [] ∧ allPlacesVisited w.
Proof.
  intros HI HS Hall. apply allVisited_true in Hall as [Hne Hall].
  rewrite (inv_same _ HI) in Hne, Hall. split.
  - intros Hnil. apply Hne. apply map_eq. intros p. rewrite lookup_empty.
    apply eq_None_not_Some. rewrite <- (inv_dom _ HI), Hnil. by intros ?%elem_of_nil.
  - intros p Hp. pose proof (HS p Hp) as Hat.
    by rewrite (Hall p _ Hat).
Qed.

Lemma sweepAndCompletion_fires_sound w :
  Inv w → AllPlacesVisited ∈ (sweepAndCompletion w).2 →
  emittedAllVisited w = false
  ∧ _places w ≠ [] ∧ allPlacesVisited (sweepAndCompletion w).1.
Proof.
  intros HI. destruct (sweep_inv w HI) as [HI' HS'].
  pose proof (sweep_frame w) as Hf.
  unfold sweepAndCompletion, andThen. cbn [fst snd].
  intros [He|He]%elem_of_app.
  { by apply sweepLoop_events_arrived in He as (p & ? & _). }
  destruct (completionCheck_cases (sweep w).1) as [Hem|Hem Hno|Hem Hyes];
    cbn [fst snd] in *; try by apply elem_of_nil in He.
  destruct (allVisited_settled _ HI' HS' Hyes) as [Hne Hall].
  split; [|split].
  - unfold sweep in Hem. by rewrite sweepLoop_emitted in Hem.
  - by rewrite (sf_places _ _ Hf) in Hne.
  - eapply allPlacesVisited_sameBook; [|exact Hall]. by constructor.
Qed.

(** X7: an update emits [AllPlacesVisited] only if the latch was open
    before it, the list is not empty, and every registered place is
    visited when the update ends.  With an empty list it is never
    emitted. *)
Theorem allPlacesVisited_event_sound dist up w :
  reachable dist w →
  AllPlacesVisited ∈ (update up w).2 →
  emittedAllVisited w = false
  ∧ _places w ≠ []
  ∧ allPlacesVisited (update up w).1
  ∧ emittedAllVisited (update up w).1 = true.
Proof.
  intros Hr He. pose proof (reachable_inv _ _ Hr) as HI.
  assert (emittedAllVisited w = false ∧ _places w ≠ []
          ∧ allPlacesVisited (update up w).1) as (Hem & Hne & Hall).
  { assert (∀ sp, AllPlacesVisited ∉ (arrivalCheck up sp w).2) as Harr.
    { intros sp. destruct (arrivalCheck_cases up sp w) as [[_ ->]|[_ ->]]; simpl.
      - by intros ?%list_elem_of_singleton.
      - by intros ?%elem_of_nil. }
    assert (∀ sp w2, sameBook (arrivalCheck up sp w).1 w2 →
              emittedAllVisited w2 = emittedAllVisited (arrivalCheck up sp w).1 →
              AllPlacesVisited ∈ (sweepAndCompletion w2).2 →
              emittedAllVisited w = false ∧ _places w ≠ []
              ∧ allPlacesVisited (sweepAndCompletion w2).1) as Hsac.
    { intros sp w2 Hb Hem2 He2.
      destruct (arrivalCheck_frame up sp w) as (Hpl & _ & _ & _ & _ & Hem1 & _).
      destruct (sweepAndCompletion_fires_sound w2) as (? & ? & ?); [|done|].
      - eapply Inv_sameBook; [exact Hb|]. by apply arrivalCheck_inv.
      - rewrite <- Hem1, <- Hem2, <- Hpl, <- (sb_places _ _ Hb). done. }
    destruct (update_cases up w HI) as [Hs|sp Hs Hv|sp Hs Hv Hn|sp next Hs Hv Hn];
      cbn [fst snd] in *.
    - by apply sweepAndCompletion_fires_sound.
    - apply elem_of_app in He as [He|He]; [by apply Harr in He|].
      by apply (Hsac sp _ (sameBook_refl _)).
    - apply elem_of_app in He as [He|He]; [by apply Harr in He|].
      apply elem_of_cons in He as [?|He]; [done|].
      by apply (Hsac sp _ (parked_sameBook Succeeded _)).
    - apply elem_of_app in He as [He|He]; [by apply Harr in He|].
      apply elem_of_cons in He as [?|He]; [done|].
      apply elem_of_app in He as [He|He]; [|by apply list_elem_of_singleton in He].
      destruct (Hsac sp _ (parked_sameBook InProgress _) eq_refl He)
        as (? & ? & Hall).
      split; [done|]. split; [done|].
      eapply allPlacesVisited_sameBook; [apply selectedNow_sameBook|done]. }
  split; [done|]. split; [done|]. split; [done|].
  by apply update_all_visited_latched.
Qed.

Lemma allPlacesVisited_event_sound_witness :
  allPlacesVisited
    (update userOnSpot (update userNearA twoWithASelected).1).1.
Proof.
  destruct (allPlacesVisited_event_sound gridDistance userOnSpot
              (update userNearA twoWithASelected).1) as (_ & _ & Hall & _).
  - apply update_reachable, twoWithASelected_reachable.
  - assert ((update userOnSpot (update userNearA twoWithASelected).1).2
            = [ArrivedAtPlace refB; ArrivedAtPlace refB; ArrivedAtPlace refB;
               AllPlacesVisited]) as -> by by vm_compute.
    repeat constructor.
  - exact Hall.
Defined.

Lemma update_visited_origin up w q :
  Inv w →
  (selectedPlace w = SelPlace q → arrives up q w = false) →
  visited (update up w).1 q = true → visited w q = true.
Proof.
  intros HI Hq Hv.
  assert (∀ sp, selectedPlace w = SelPlace sp →
            visited (arrivalCheck up sp w).1 q = true → visited w q = true) as Harr.
  { intros sp Hsp Hv1.
    destruct (arrivalCheck_cases up sp w) as [[Ha Heq]|[_ Heq]].
    - destruct (decide (q = sp)) as [->|Hne]; [by rewrite Hq in Ha|].
      destruct (arrivalCheck_frame up sp w) as (_ & _ & _ & _ & _ & _ & Hother & _).
      by rewrite Hother in Hv1.
    - by rewrite Heq in Hv1. }
  destruct (update_cases up w HI) as [Hs|sp Hs Hv1|sp Hs Hv1 Hn|sp next Hs Hv1 Hn];
    cbn [fst snd] in *.
  - by apply (sf_mono _ _ (sweepAndCompletion_frame _)) in Hv.
  - apply (sf_mono _ _ (sweepAndCompletion_frame _)) in Hv. by apply (Harr sp).
  - apply (sf_mono _ _ (sweepAndCompletion_frame _)) in Hv. by apply (Harr sp).
  - change (visited (sweepAndCompletion
                       (parked InProgress (arrivalCheck up sp w).1)).1 q = true) in Hv.
    apply (sf_mono _ _ (sweepAndCompletion_frame _)) in Hv. by apply (Harr sp).
Qed.

(** X8: an update sets the visited flag of no place but the selected one,
    and of that one only when the arrival test succeeds; every other flag
    that is true after the update was true before it. *)
Theorem update_marks_only_selected dist up w q :
  reachable dist w →
  (selectedPlace w = SelPlace q → arrives up q w = false) →
  visited (update up w).1 q = true → visited w q = true.
Proof.
  intros Hr. apply update_visited_origin. by eapply reachable_inv.
Qed.

Lemma update_marks_only_selected_witness :
  visited (update userNearA twoWithASelected).1 refA = true.
Proof.
  apply (update_marks_only_selected gridDistance userFar).
  - apply update_reachable, twoWithASelected_reachable.
  - intros Hsel. by vm_compute in Hsel.
  - by vm_compute.
Defined.

(** ** NavigationDataComponent: registration and removal *)

Lemma World_eq w w' :
  heap w = heap w' → _places w = _places w' → _status w = _status w' →
  selectedPlace w = selectedPlace w' → placesVisited w = placesVisited w' →
  placesAt w = placesAt w' → emittedAllVisited w = emittedAllVisited w' →
  hasArrivedAtSelectedPlace w = hasArrivedAtSelectedPlace w' → w = w'.
Proof. destruct w, w'; simpl; intros; by subst. Qed.

Lemma filter_ne_absent (p : PlaceRef) (l : list PlaceRef) :
  p ∉ l → filter (λ m, m ≠ p) l = l.
Proof.
  induction l as [|a l IH]; [done|]. intros Hp.
  rewrite filter_cons, decide_True.
  - rewrite IH; [done|]. intros ?. apply Hp. by right.
  - intros ->. apply Hp. by left.
Qed.

Lemma filter_ne_length (p : PlaceRef) (l : list PlaceRef) :
  NoDup l → p ∈ l → S (length (filter (λ m, m ≠ p) l)) = length l.
Proof.
  induction l as [|a l IH]; [by intros _ ?%elem_of_nil|].
  intros [Ha Hnd]%NoDup_cons Hp. rewrite filter_cons.
  destruct (decide (a = p)) as [->|Hne].
  - rewrite decide_False by auto. by rewrite filter_ne_absent.
  - rewrite decide_True by done. simpl. rewrite IH; [done..|].
    apply elem_of_cons in Hp as [?|?]; [congruence|done].
Qed.

(** X9: [addPlace] of a place already in the list changes nothing and
    emits nothing; of a new place it appends the place at the end, enters
    it as not reached in both maps, emits [PlacesUpdated] once and re-opens
    the completion latch.  Either way the place is registered afterwards,
    so a second [addPlace] of it is a no-op. *)
Theorem addPlace_registers_once p w :
  let r := addPlace_present p w in
  (if includes (_places w) p then r = (w, [])
   else _places r.1 = _places w ++ [p]
        ∧ placesAt r.1 = <[p := false]> (placesAt w)
        ∧ placesVisited r.1 = <[p := false]> (placesVisited w)
        ∧ emittedAllVisited r.1 = false
        ∧ r.2 = [PlacesUpdated])
  ∧ p ∈ _places r.1
  ∧ addPlace_present p r.1 = (r.1, []).
Proof.
  intros r. subst r.
  assert (p ∈ _places (addPlace_present p w).1) as Hin.
  { unfold addPlace_present, includes. case_bool_decide as Hp; [done|].
    simpl. apply elem_of_app. right. by left. }
  split; [|split; [done|]].
  - unfold addPlace_present. by destruct (includes (_places w) p).
  - unfold addPlace_present at 1. unfold includes.
    by rewrite bool_decide_true.
Qed.

(** X10: removing a place that is not registered changes nothing and
    emits nothing. *)
Theorem removePlace_absent dist p w :
  reachable dist w → p ∉ _places w → removePlace p w = (w, []).
Proof.
  intros Hr Hp. pose proof (reachable_inv _ _ Hr) as HI.
  assert (placesAt w !! p = None) as Hat.
  { apply eq_None_not_Some. by rewrite <- (inv_dom _ HI). }
  assert ((removePlace p w).1 = w) as Hw.
  { rewrite removePlace_world. apply World_eq; simpl; try done.
    - by apply filter_ne_absent.
    - apply delete_id. by rewrite (inv_same _ HI).
    - by apply delete_id. }
  rewrite (surjective_pairing (removePlace p w)), Hw. f_equal.
  unfold removePlace, andThen, modify, invoke, skip; simpl.
  rewrite filter_ne_absent by done. by rewrite bool_decide_false by auto.
Qed.

Lemma removePlace_absent_witness :
  removePlace refC twoWithASelected = (twoWithASelected, []).
Proof.
  apply (removePlace_absent gridDistance).
  - apply twoWithASelected_reachable.
  - vm_compute. intros Hin.
    apply elem_of_cons in Hin as [?|Hin]; [done|].
    apply elem_of_cons in Hin as [?|Hin]; [done|].
    by apply elem_of_nil in Hin.
Defined.

(** X11: registering a new place and removing it again restores the list,
    both maps and every other field, except that the completion latch is
    left open; [PlacesUpdated] is emitted twice. *)
Theorem addPlace_then_removePlace dist p w :
  reachable dist w → p ∉ _places w →
  (addPlace_present p >>> removePlace p) w
  = (set_emittedAllVisited false w, [PlacesUpdated; PlacesUpdated]).
Proof.
  intros Hr Hp. pose proof (reachable_inv _ _ Hr) as HI.
  assert (placesAt w !! p = None) as Hat.
  { apply eq_None_not_Some. by rewrite <- (inv_dom _ HI). }
  assert (placesVisited w !! p = None) as Hvis by by rewrite (inv_same _ HI).
  assert (filter (λ m, m ≠ p) (_places w ++ [p]) = _places w) as Hfilter.
  { rewrite filter_app, filter_ne_absent by done.
    rewrite filter_cons, decide_False by auto. by rewrite app_nil_r. }
  assert (addPlace_present p w
          = (set_emittedAllVisited false
               (set_placesAt (<[p := false]> (placesAt w))
                  (set_placesVisited (<[p := false]> (placesVisited w))
                     (set_places (_places w ++ [p]) w))), [PlacesUpdated])) as Hadd.
  { unfold addPlace_present, includes. by rewrite bool_decide_false. }
  rewrite (andThen_pair _ _ w _ _ (set_emittedAllVisited false w) [PlacesUpdated] Hadd);
    [done|].
  rewrite (surjective_pairing (removePlace p _)). f_equal.
  - rewrite removePlace_world. apply World_eq; simpl; try done.
    + by rewrite delete_insert_eq, delete_id.
    + by rewrite delete_insert_eq, delete_id.
  - unfold removePlace, andThen, modify, invoke, skip; simpl.
    rewrite Hfilter, length_app. simpl.
    rewrite bool_decide_true by lia. done.
Qed.

Lemma addPlace_then_removePlace_witness :
  (addPlace_present refC >>> removePlace refC) twoWithASelected
  = (set_emittedAllVisited false twoWithASelected, [PlacesUpdated; PlacesUpdated]).
Proof.
  apply (addPlace_then_removePlace gridDistance).
  - apply twoWithASelected_reachable.
  - vm_compute. intros Hin.
    apply elem_of_cons in Hin as [?|Hin]; [done|].
    apply elem_of_cons in Hin as [?|Hin]; [done|].
    by apply elem_of_nil in Hin.
Defined.

(** X12: removing a registered place takes exactly that place out of the
    list, keeps the others in their order, drops its entries from both
    maps and emits [PlacesUpdated] once.  The visited flag of the removed
    object is not touched. *)
Theorem removePlace_present dist p w :
  reachable dist w → p ∈ _places w →
  let r := removePlace p w in
  _places r.1 = filter (λ m, m ≠ p) (_places w)
  ∧ S (length (_places r.1)) = length (_places w)
  ∧ (p ∉ _places r.1)
  ∧ (∀ q, q ≠ p → q ∈ _places r.1 ↔ q ∈ _places w)
  ∧ placesAt r.1 !! p = None
  ∧ placesVisited r.1 !! p = None
  ∧ visited r.1 p = visited w p
  ∧ r.2 = [PlacesUpdated].
Proof.
  intros Hr Hp r. subst r. pose proof (reachable_inv _ _ Hr) as HI.
  pose proof (filter_ne_length p _ (inv_nodup _ HI) Hp) as Hlen.
  rewrite removePlace_world. simpl.
  split; [done|]. split; [done|].
  split; [rewrite list_elem_of_filter; by intros [? _]|].
  split; [intros q Hq; rewrite list_elem_of_filter; tauto|].
  split; [apply lookup_delete_eq|]. split; [apply lookup_delete_eq|].
  split; [done|].
  unfold removePlace, andThen, modify, invoke, skip; simpl.
  rewrite bool_decide_true by lia. done.
Qed.

Lemma removePlace_present_witness :
  _places (removePlace refA twoWithASelected).1 = [refB]
  ∧ (removePlace refA twoWithASelected).2 = [PlacesUpdated].
Proof.
  destruct (removePlace_present gridDistance refA twoWithASelected)
    as (Hpl & _ & _ & _ & _ & _ & _ & Hev).
  - apply twoWithASelected_reachable.
  - vm_compute. repeat constructor.
  - split; [by rewrite Hpl|exact Hev].
Defined.

(** ** NavigationDataComponent: selecting and stopping *)

Lemma update_keeps_status up w :
  (∀ sp, selectedPlace w = SelPlace sp →
         visited w sp = false ∧ arrives up sp w = false) →
  _status (update up w).1 = _status w.
Proof.
  intros Hq. destruct (selectedPlace w) as [| |sp] eqn:Hsel.
  - rewrite update_unselected by congruence.
    apply (sf_status _ _ (sweepAndCompletion_frame _)).
  - rewrite update_unselected by congruence.
    apply (sf_status _ _ (sweepAndCompletion_frame _)).
  - destruct (Hq sp eq_refl) as [Hv Harr].
    destruct (arrivalCheck_cases up sp w) as [[? _]|[_ Heq]]; [congruence|].
    rewrite (update_stay up w sp); [|done|by rewrite Heq].
    rewrite Heq. cbv zeta. cbn [fst snd].
    apply (sf_status _ _ (sweepAndCompletion_frame _)).
Qed.

(** X13: a call of [navigateToPlace] (or [stopNavigation], its null case)
    that does not return at once leaves its argument selected and
    registered, clears the arrival flag, and, when the update it embeds
    does not advance the old selection, sets the status to [InProgress]
    for a place and to [LocationNotSelected] for null and emits
    [NavigationStarted] exactly once, with its argument. *)
Theorem navigateToPlace_result up place w :
  selectedPlace w ≠ toSelected place →
  (∀ sp, selectedPlace w = SelPlace sp →
         visited w sp = false
         ∧ ∀ d, getDistanceTo up sp = Some d →
                Qle_bool d (activationThreshold w sp) = false) →
  let r := navigateToPlace up place w in
  selectedPlace r.1 = toSelected place
  ∧ hasArrivedAtSelectedPlace r.1 = false
  ∧ _status r.1 = statusFor place
  ∧ (∀ p, place = Some p → p ∈ _places r.1)
  ∧ filter isNavigationStarted r.2 = [NavigationStarted place]
  ∧ last r.2 = Some (NavigationStarted place).
Proof.
  intros Hsel Hq r. subst r.
  rewrite navigateToPlace_world by done. cbv zeta. cbn [fst snd].
  set (w1 := set_status (statusFor place) (registerIfAbsent place w).1).
  assert (∀ sp, selectedPlace w1 = SelPlace sp →
            visited w1 sp = false ∧ arrives up sp w1 = false) as Hq1.
  { intros sp Hsp.
    change (selectedPlace (registerIfAbsent place w).1 = SelPlace sp) in Hsp.
    rewrite registerIfAbsent_selectedPlace in Hsp.
    destruct (Hq sp Hsp) as [Hv Hd]. split.
    - unfold visited in *. subst w1. simpl. by rewrite registerIfAbsent_heap.
    - apply arrives_out_of_range. intros d Hdist.
      unfold activationThreshold in *. subst w1. simpl.
      rewrite registerIfAbsent_heap. by apply Hd. }
  split; [done|]. split; [done|]. split; [|split; [|split]].
  - change (_status (update up w1).1 = statusFor place).
    by rewrite update_keeps_status.
  - intros p ->.
    change (p ∈ _places (update up w1).1). rewrite update_places.
    subst w1. change (p ∈ _places (registerIfAbsent (Some p) w).1).
    unfold registerIfAbsent, includes. case_bool_decide as Hin; [done|].
    unfold addPlace_present, includes. rewrite bool_decide_false by done.
    simpl. apply elem_of_app. right. by left.
  - rewrite !filter_app.
    rewrite (filter_isNavigationStarted_nil (registerIfAbsent place w).2)
      by by intros e ->%registerIfAbsent_events.
    rewrite (filter_isNavigationStarted_nil (update up w1).2)
      by by apply update_quiet.
    done.
  - by rewrite app_assoc, last_snoc.
Qed.

Lemma navigateToPlace_result_witness :
  let r := stopNavigation userFar twoWithASelected in
  selectedPlace r.1 = SelNull
  ∧ _status r.1 = LocationNotSelected
  ∧ filter isNavigationStarted r.2 = [NavigationStarted None].
Proof.
  destruct (navigateToPlace_result userFar None twoWithASelected)
    as (Hsel & _ & Hst & _ & Hev & _).
  - by vm_compute.
  - intros sp Hsp. vm_compute in Hsp. injection Hsp as <-.
    split; [by vm_compute|]. intros d Hd. vm_compute in Hd. injection Hd as <-.
    by vm_compute.
  - split; [exact Hsel|]. split; [exact Hst|exact Hev].
Defined.

(** ** The two arrival conditions at the limit *)

(** X14: at a distance exactly equal to the limit the two arrival
    conditions differ.  The controller's test on the selected place is
    inclusive: an unvisited selected place whose predecessor (if any) is
    visited arrives at a distance equal to the threshold.  The place's own
    check is exclusive: at a distance equal to its radius it does not mark
    itself. *)
Theorem arrival_at_the_limit dist up w sp o d :
  heap w !! sp = Some o → _visited o = false →
  (∀ q, at_index (_places w) (indexOf (_places w) sp - 1) = Some q →
        visited w q = true) →
  getDistanceTo up sp = Some d → (d == activationThreshold w sp)%Q →
  arrives up sp w = true
  ∧ (∀ g, getGeoPosition up = Some g →
          (dist g (geoPosition o) == distanceToVisit o)%Q →
          checkVisited dist up o = false
          ∧ Place_onUpdate dist up sp w = w).
Proof.
  intros Ho Hv Hprev Hd Heq. split.
  - unfold arrives. rewrite Hd.
    assert (Qle_bool d (activationThreshold w sp) = true) as ->.
    { apply Qle_bool_iff. rewrite Heq. apply Qle_refl. }
    unfold visited at 2. rewrite Ho, Hv.
    destruct (at_index _ _) as [q|]; [|done]. by rewrite Hprev.
  - intros g Hg Hlim.
    assert (checkVisited dist up o = false) as Hcheck.
    { unfold checkVisited, getPhysicalDistance, Qlt_bool. rewrite Hg.
      apply negb_false_iff, Qle_bool_iff. rewrite Hlim. apply Qle_refl. }
    split; [done|]. unfold Place_onUpdate. by rewrite Ho, Hcheck.
Qed.

Lemma arrival_at_the_limit_witness :
  arrives userAtLimit refA twoWithASelected = true
  ∧ Place_onUpdate gridDistance userAtLimit refA twoWithASelected = twoWithASelected.
Proof.
  destruct (arrival_at_the_limit gridDistance userAtLimit twoWithASelected
              refA placeA 10) as [Ha Hb].
  - by vm_compute.
  - done.
  - intros q Hq. vm_compute in Hq. discriminate Hq.
  - done.
  - by vm_compute.
  - split; [exact Ha|].
    apply (Hb (mkGeoPosition 10 0 0)); [done|by vm_compute].
Defined.

(** ** Status, selection and the arrival flag *)

(** What an update does to the status and the selection. *)
Lemma update_control up w :
  Inv w →
  (_status (update up w).1 = _status w
   ∧ selectedPlace (update up w).1 = selectedPlace w
   ∧ (hasArrivedAtSelectedPlace (update up w).1 = hasArrivedAtSelectedPlace w
      ∨ ∃ sp, selectedPlace w = SelPlace sp ∧ heap w !! sp = None))
  ∨ (_status (update up w).1 = Succeeded
     ∧ selectedPlace (update up w).1 = SelNull)
  ∨ (∃ next, _status (update up w).1 = InProgress
             ∧ selectedPlace (update up w).1 = SelPlace next
             ∧ hasArrivedAtSelectedPlace (update up w).1 = false).
Proof.
  intros HI.
  destruct (update_cases up w HI) as [Hs|sp Hs Hv|sp Hs Hv Hn|sp next Hs Hv Hn];
    cbn [fst snd].
  - left. destruct (sweepAndCompletion_frame w) as [_ H1 H2 H3 _ _ _]. auto.
  - left.
    destruct (sweepAndCompletion_frame (arrivalCheck up sp w).1) as [_ H1 H2 H3 _ _ _].
    rewrite H1, H2, H3.
    destruct (arrivalCheck_cases up sp w) as [[Ha Heq]|[_ Heq]]; rewrite Heq in *.
    + split; [done|]. split; [done|]. right. exists sp. split; [done|].
      cbn [fst] in Hv.
      change (visited (set_visited sp true w) sp = false) in Hv.
      destruct (heap w !! sp) as [o|] eqn:Ho; [|done].
      by rewrite (visited_set_visited_true sp o) in Hv.
    + auto.
  - right. left.
    destruct (sweepAndCompletion_frame (parked Succeeded (arrivalCheck up sp w).1))
      as [_ H1 H2 _ _ _ _].
    by rewrite H1, H2.
  - right. right. exists next.
    destruct (sweepAndCompletion_frame (parked InProgress (arrivalCheck up sp w).1))
      as [_ H1 _ _ _ _ _].
    split; [exact H1|done].
Qed.

Lemma step_status_selection dist w w' :
  Inv w → step dist w w' →
  ((_status w = Initializing ↔ selectedPlace w = SelUndefined)
   ∧ (_status w = LocationNotSelected → selectedPlace w = SelNull)) →
  (_status w' = Initializing ↔ selectedPlace w' = SelUndefined)
  ∧ (_status w' = LocationNotSelected → selectedPlace w' = SelNull).
Proof.
  intros HI Hstep [H1 H2].
  destruct Hstep as [w p o Hp|w up p|w p|w p|w up place|w up].
  - done.
  - unfold Place_onUpdate. destruct (heap w !! p) as [o|]; [|done].
    by destruct (checkVisited dist up o).
  - unfold addPlace_present. by destruct (includes (_places w) p).
  - by rewrite removePlace_world.
  - destruct (decide (selectedPlace w = toSelected place)) as [Hsel|Hsel].
    { by rewrite navigateToPlace_same. }
    rewrite navigateToPlace_world by done. cbv zeta. cbn [fst snd].
    set (w1 := set_status (statusFor place) (registerIfAbsent place w).1).
    assert (Inv w1) as HI1.
    { eapply Inv_sameBook; [|by apply (registerIfAbsent_inv place)]. by constructor. }
    change (_status (set_hasArrivedAtSelectedPlace false
                       (set_selectedPlace (toSelected place) (update up w1).1)))
      with (_status (update up w1).1).
    change (selectedPlace (set_hasArrivedAtSelectedPlace false
                       (set_selectedPlace (toSelected place) (update up w1).1)))
      with (toSelected place).
    assert (_status w1 = statusFor place) as Hst by done.
    destruct (update_control up w1 HI1) as [(Hs & _ & _)|[(Hs & _)|(next & Hs & _)]];
      rewrite Hs; clear Hs; rewrite ?Hst; destruct place; simpl; split; done.
  - destruct (update_control up w HI) as [(Hs & Hsel & _)|[(Hs & Hsel)|(next & Hs & Hsel & _)]];
      rewrite Hs, Hsel; [done|split; done|split; done].
Qed.

(** X15: the status and the selection move together.  In every reachable
    state the status is [Initializing] exactly when [selectedPlace] still
    has its initial value (undefined), so no operation ever returns to
    [Initializing]; and a status of [LocationNotSelected] is seen only
    with a null selection. *)
Theorem status_follows_selection dist w :
  reachable dist w →
  (_status w = Initializing ↔ selectedPlace w = SelUndefined)
  ∧ (_status w = LocationNotSelected → selectedPlace w = SelNull).
Proof.
  intros Hr.
  assert (Inv w ∧ (_status w = Initializing ↔ selectedPlace w = SelUndefined)
          ∧ (_status w = LocationNotSelected → selectedPlace w = SelNull)) as [_ H];
    [|exact H].
  unfold reachable in Hr.
  eapply (rtc_ind_r (λ w, Inv w ∧ (_status w = Initializing ↔ selectedPlace w = SelUndefined)
                          ∧ (_status w = LocationNotSelected → selectedPlace w = SelNull))
            (initial ∅)); [| |exact Hr].
  - split; [apply initial_inv|]. done.
  - intros w1 w2 _ Hstep [HI HJ]. split; [by eapply step_inv|].
    by eapply step_status_selection.
Qed.

Lemma status_follows_selection_witness :
  _status twoWithASelected ≠ Initializing
  ∧ _status (stopNavigation userFar twoWithASelected).1 ≠ Initializing.
Proof.
  split.
  - intros Hs.
    apply (status_follows_selection gridDistance twoWithASelected) in Hs;
      [discriminate Hs|apply twoWithASelected_reachable].
  - intros Hs.
    apply (status_follows_selection gridDistance) in Hs; [discriminate Hs|].
    eapply rtc_r; [apply twoWithASelected_reachable|].
    apply (step_navigateToPlace gridDistance twoWithASelected userFar None).
Defined.

(** X16: no operation makes [hasArrivedAtSelectedPlace] true while a
    place is selected.  If before an operation the flag is false whenever
    a place is selected, and the selected place is a constructed object,
    then the same holds after it: the update that sets the flag also
    clears the selection or hands it to [navigateToPlace], which resets
    the flag. *)
Theorem arrival_flag_step dist w w' :
  reachable dist w → step dist w w' →
  (∀ sp, selectedPlace w = SelPlace sp → is_Some (heap w !! sp)) →
  (hasArrivedAtSelectedPlace w = true → ∀ sp, selectedPlace w ≠ SelPlace sp) →
  hasArrivedAtSelectedPlace w' = true → ∀ sp, selectedPlace w' ≠ SelPlace sp.
Proof.
  intros Hr Hstep Hheap Hflag.
  pose proof (reachable_inv dist w Hr) as HI.
  destruct Hstep as [w p o Hp|w up p|w p|w p|w up place|w up].
  - done.
  - unfold Place_onUpdate. destruct (heap w !! p) as [o|]; [|done].
    by destruct (checkVisited dist up o).
  - unfold addPlace_present. by destruct (includes (_places w) p).
  - by rewrite removePlace_world.
  - destruct (decide (selectedPlace w = toSelected place)) as [Hsel|Hsel].
    { by rewrite navigateToPlace_same. }
    rewrite navigateToPlace_world by done. cbv zeta. cbn [fst snd]. done.
  - destruct (update_control up w HI)
      as [(_ & Hsel & [Hf|(sp & Hs & Hn)])|[(_ & Hsel)|(next & _ & _ & Hf)]].
    + rewrite Hsel, Hf. done.
    + destruct (Hheap sp Hs) as [o Ho]. congruence.
    + rewrite Hsel. done.
    + rewrite Hf. done.
Qed.

Lemma arrival_flag_step_witness :
  hasArrivedAtSelectedPlace
    (update userOnSpot (update userOnSpot twoWithASelected).1).1 = true
  ∧ selectedPlace (update userOnSpot (update userOnSpot twoWithASelected).1).1
    ≠ SelPlace refB.
Proof.
  assert (hasArrivedAtSelectedPlace
            (update userOnSpot (update userOnSpot twoWithASelected).1).1 = true)
    as Hf by (vm_compute; reflexivity).
  split; [exact Hf|].
  apply (arrival_flag_step gridDistance (update userOnSpot twoWithASelected).1
           (update userOnSpot (update userOnSpot twoWithASelected).1).1).
  - eapply rtc_r; [apply twoWithASelected_reachable|apply step_update].
  - apply step_update.
  - intros sp Hsp. vm_compute in Hsp. injection Hsp as <-.
    eexists. vm_compute. reflexivity.
  - intros Hflag. vm_compute in Hflag. discriminate Hflag.
  - exact Hf.
Defined.

(** ** Updates of a list visited in order *)

Lemma sweepStep_keeps_visited i w q :
  Sequential w → visited (sweepStep i w).1 q = visited w q.
Proof.
  intros Hseq.
  destruct (sweepStep_cases i w) as [?|p Hp Hv Hat Hprev|p j Hp Hv Hat -> Hprev|p Hp Hv Hat];
    cbn [fst]; try done.
  exfalso.
  destruct (_places w !! j) as [r|] eqn:Hr.
  - specialize (Hprev r eq_refl). rewrite (Hseq j r p Hr Hp Hv) in Hprev. done.
  - apply lookup_ge_None in Hr. apply lookup_lt_Some in Hp. lia.
Qed.

Lemma Sequential_same w w' :
  _places w' = _places w → (∀ q, visited w' q = visited w q) →
  Sequential w → Sequential w'.
Proof.
  intros Hpl Hv Hseq i p q. rewrite Hpl, !Hv. apply Hseq.
Qed.

Lemma sweepLoop_keeps_visited n i w q :
  Sequential w → visited (sweepLoop n i w).1 q = visited w q.
Proof.
  revert i w. induction n as [|n IH]; intros i w Hseq; [done|].
  change (visited (sweepLoop n (S i) (sweepStep i w).1).1 q = visited w q).
  rewrite IH; [by apply sweepStep_keeps_visited|].
  eapply Sequential_same; [|intros r; by apply sweepStep_keeps_visited|done].
  apply (sf_places _ _ (sweepStep_frame i w)).
Qed.

Lemma sweepAndCompletion_keeps_visited w q :
  Sequential w → visited (sweepAndCompletion w).1 q = visited w q.
Proof.
  intros Hseq.
  change (visited (completionCheck (sweep w).1).1 q = visited w q).
  rewrite (visited_sameBook _ _ (completionCheck_sameBook (sweep w).1)).
  by apply sweepLoop_keeps_visited.
Qed.

(** The arrival test asks for a visited predecessor, so it keeps the
    order. *)
Lemma arrivalCheck_sequential up sp w :
  Inv w → Sequential w → Sequential (arrivalCheck up sp w).1.
Proof.
  intros HI Hseq.
  destruct (arrivalCheck_cases up sp w) as [[Ha Heq]|[_ Heq]]; rewrite Heq; [|done].
  cbn [fst]. intros i p q Hp Hq Hv.
  change (visited (set_visited sp true w) q = true) in Hv.
  change (visited (set_visited sp true w) p = true).
  change (_places w !! i = Some p) in Hp.
  change (_places w !! S i = Some q) in Hq.
  apply visited_set_visited_mono.
  destruct (decide (q = sp)) as [->|Hne].
  - unfold arrives in Ha.
    rewrite (indexOf_lookup _ _ _ (inv_nodup _ HI) Hq) in Ha.
    replace (Z.of_nat (S i) - 1)%Z with (Z.of_nat i) in Ha by lia.
    rewrite at_index_of_nat, Hp in Ha.
    by apply andb_true_iff in Ha as [[_ Hprev]%andb_true_iff _].
  - rewrite visited_set_visited_ne in Hv by done. by apply (Hseq i p q).
Qed.

Lemma update_visited_before up w q :
  Inv w → visited (update up w).1 q = true →
  visited w q = true
  ∨ (selectedPlace w = SelPlace q ∧ visited (arrivalCheck up q w).1 q = true).
Proof.
  intros HI Hv.
  assert (∀ sp, selectedPlace w = SelPlace sp →
            visited (arrivalCheck up sp w).1 q = true →
            visited w q = true
            ∨ (selectedPlace w = SelPlace q
               ∧ visited (arrivalCheck up q w).1 q = true)) as Harr.
  { intros sp Hsp Hv1. destruct (decide (q = sp)) as [->|Hne]; [by right|].
    left. destruct (arrivalCheck_frame up sp w) as (_ & _ & _ & _ & _ & _ & Hother & _).
    by rewrite Hother in Hv1. }
  destruct (update_cases up w HI) as [Hs|sp Hs Hv1|sp Hs Hv1 Hn|sp next Hs Hv1 Hn];
    cbn [fst snd] in *.
  - left. by apply (sf_mono _ _ (sweepAndCompletion_frame _)) in Hv.
  - apply (sf_mono _ _ (sweepAndCompletion_frame _)) in Hv. by apply (Harr sp).
  - apply (sf_mono _ _ (sweepAndCompletion_frame _)) in Hv. by apply (Harr sp).
  - change (visited (sweepAndCompletion
                       (parked InProgress (arrivalCheck up sp w).1)).1 q = true) in Hv.
    apply (sf_mono _ _ (sweepAndCompletion_frame _)) in Hv. by apply (Harr sp).
Qed.

Lemma update_keeps_visited up w q :
  Inv w → Sequential w →
  visited w q = true
  ∨ (selectedPlace w = SelPlace q ∧ visited (arrivalCheck up q w).1 q = true) →
  visited (update up w).1 q = true.
Proof.
  intros HI Hseq Hq.
  assert (∀ sp, selectedPlace w = SelPlace sp →
            visited (arrivalCheck up sp w).1 q = true) as Harr.
  { intros sp Hsp. destruct Hq as [Hq|[Hsel Hq]].
    - destruct (arrivalCheck_frame up sp w) as (_ & _ & _ & _ & _ & _ & _ & Hmono & _).
      by apply Hmono.
    - congruence. }
  assert (∀ sp s, Sequential (parked s (arrivalCheck up sp w).1)) as Hpark.
  { intros sp s. eapply Sequential_same; [| |by apply (arrivalCheck_sequential up sp)];
      done. }
  destruct (update_cases up w HI) as [Hs|sp Hs Hv1|sp Hs Hv1 Hn|sp next Hs Hv1 Hn];
    cbn [fst snd].
  - rewrite sweepAndCompletion_keeps_visited by done.
    destruct Hq as [Hq|[Hsel _]]; [done|]. by apply Hs in Hsel.
  - rewrite sweepAndCompletion_keeps_visited by by apply arrivalCheck_sequential.
    by apply Harr.
  - rewrite sweepAndCompletion_keeps_visited by apply Hpark. by apply (Harr sp).
  - change (visited (sweepAndCompletion
                       (parked InProgress (arrivalCheck up sp w).1)).1 q = true).
    rewrite sweepAndCompletion_keeps_visited by apply Hpark. by apply (Harr sp).
Qed.

(** X17: when no waypoint is visited ahead of its predecessor, an update
    takes no visited flag back, and the places visited after it are
    exactly those visited before it and the selected place, if the arrival
    test succeeds on it. *)
Theorem update_visited_in_order dist up w q :
  reachable dist w → Sequential w →
  visited (update up w).1 q = true
  ↔ visited w q = true
    ∨ (selectedPlace w = SelPlace q ∧ arrives up q w = true
       ∧ is_Some (heap w !! q)).
Proof.
  intros Hr Hseq. pose proof (reachable_inv dist w Hr) as HI. split.
  - intros Hv. apply (update_visited_before up w q HI) in Hv as [Hv|[Hsel Hv]];
      [by left|].
    destruct (arrivalCheck_cases up q w) as [[Ha Heq]|[_ Heq]]; rewrite Heq in Hv.
    + right. split; [done|]. split; [done|].
      change (visited (set_visited q true w) q = true) in Hv.
      unfold visited, set_visited in Hv. cbn [heap set_heap] in Hv.
      rewrite lookup_alter_eq in Hv.
      by destruct (heap w !! q).
    + by left.
  - intros Hq. apply update_keeps_visited; [done..|].
    destruct Hq as [Hq|(Hsel & Ha & [o Ho])]; [by left|right].
    split; [done|].
    destruct (arrivalCheck_cases up q w) as [[_ Heq]|[Hb _]]; [|congruence].
    rewrite Heq. by apply (visited_set_visited_true q o).
Qed.

Lemma update_visited_in_order_witness :
  visited (update userOnSpot twoWithASelected).1 refA = true
  ∧ visited (update userOnSpot twoWithASelected).1 refB = false.
Proof.
  split.
  - apply (update_visited_in_order gridDistance userOnSpot twoWithASelected refA).
    + apply twoWithASelected_reachable.
    + intros i p q Hp Hq Hv. destruct i as [|[|i]]; vm_compute in Hq.
      * injection Hq as <-. vm_compute in Hv. discriminate Hv.
      * discriminate Hq.
      * discriminate Hq.
    + right. split; [by vm_compute|]. split; [by vm_compute|].
      exists placeA. vm_compute. reflexivity.
  - apply not_true_is_false. intros Hv.
    apply (update_visited_in_order gridDistance userOnSpot twoWithASelected refB) in Hv.
    + destruct Hv as [Hv|[Hsel _]]; [vm_compute in Hv|vm_compute in Hsel]; discriminate.
    + apply twoWithASelected_reachable.
    + intros i p q Hp Hq Hvq. destruct i as [|[|i]]; vm_compute in Hq.
      * injection Hq as <-. vm_compute in Hvq. discriminate Hvq.
      * discriminate Hq.
      * discriminate Hq.
Defined.

(** ** A walk along the list *)

Lemma sweepStep_confirm i p w :
  _places w !! i = Some p → visited w p = true → placesAt w !! p = Some false →
  (∀ j q, i = S j → _places w !! j = Some q → visited w q = true) →
  sweepStep i w = (confirmed p w, [ArrivedAtPlace p]).
Proof.
  intros Hp Hv Hat Hprev. unfold sweepStep. rewrite Hp, Hv, Hat.
  rewrite bool_decide_false by done.
  destruct i as [|j]; [done|].
  destruct (_places w !! j) as [q|] eqn:Hq.
  - by rewrite (Hprev j q eq_refl Hq).
  - apply lookup_ge_None in Hq. apply lookup_lt_Some in Hp. lia.
Qed.

(** A sweep over a list with a single place to confirm. *)
Lemma sweepLoop_confirm_one n i k sp w :
  NoDup (_places w) →
  _places w !! k = Some sp → visited w sp = true → placesAt w !! sp = Some false →
  (∀ j q, k = S j → _places w !! j = Some q → visited w q = true) →
  (∀ j p, j ≠ k → _places w !! j = Some p → placesAt w !! p = Some (visited w p)) →
  sweepLoop n i w
  = if decide (i ≤ k < i + n) then (confirmed sp w, [ArrivedAtPlace sp]) else (w, []).
Proof.
  intros Hnd Hk Hv Hat Hprev Hrest. revert i.
  induction n as [|n IH]; intros i.
  { rewrite decide_False by lia. done. }
  change (sweepLoop (S n) i w) with ((sweepStep i >>> sweepLoop n (S i)) w).
  destruct (decide (i = k)) as [->|Hne].
  - rewrite decide_True by lia.
    rewrite (andThen_pair _ _ w (confirmed sp w) [ArrivedAtPlace sp] (confirmed sp w) []);
      [done|by apply sweepStep_confirm|].
    apply sweepLoop_settled. intros p Hp.
    change (<[sp := true]> (placesAt w) !! p = Some (visited w p)).
    destruct (decide (p = sp)) as [->|Hpsp].
    + by rewrite lookup_insert_eq, Hv.
    + rewrite lookup_insert_ne by done.
      change (p ∈ _places w) in Hp.
      apply list_elem_of_lookup in Hp as [j Hj].
      apply (Hrest j); [|done]. intros ->. congruence.
  - assert (sweepStep i w = (w, [])) as Hstep.
    { destruct (_places w !! i) as [p|] eqn:Hp.
      - apply (sweepStep_skip i p); [done|]. by apply (Hrest i).
      - unfold sweepStep. by rewrite Hp. }
    specialize (IH (S i)).
    destruct (decide (S i ≤ k < S i + n)) as [Hin|Hout].
    + rewrite decide_True by lia. by rewrite (andThen_pair _ _ w w [] _ _ Hstep IH).
    + rewrite decide_False by lia. by rewrite (andThen_pair _ _ w w [] _ _ Hstep IH).
Qed.

Lemma sweepAndCompletion_confirm_one k sp w :
  NoDup (_places w) →
  _places w !! k = Some sp → visited w sp = true → placesAt w !! sp = Some false →
  (∀ j q, k = S j → _places w !! j = Some q → visited w q = true) →
  (∀ j p, j ≠ k → _places w !! j = Some p → placesAt w !! p = Some (visited w p)) →
  emittedAllVisited w = false →
  sweepAndCompletion w
  = if allVisited (<[sp := true]> (placesVisited w))
    then (set_emittedAllVisited true (confirmed sp w),
          [ArrivedAtPlace sp; AllPlacesVisited])
    else (confirmed sp w, [ArrivedAtPlace sp]).
Proof.
  intros Hnd Hk Hv Hat Hprev Hrest Hem.
  assert (sweep w = (confirmed sp w, [ArrivedAtPlace sp])) as Hsweep.
  { unfold sweep.
    rewrite (sweepLoop_confirm_one _ 0 k sp) by done.
    apply lookup_lt_Some in Hk. by rewrite decide_True by lia. }
  unfold sweepAndCompletion.
  destruct (allVisited (<[sp := true]> (placesVisited w))) eqn:Hall.
  - rewrite (andThen_pair _ _ w _ _ (set_emittedAllVisited true (confirmed sp w))
               [AllPlacesVisited] Hsweep); [done|].
    unfold completionCheck.
    change (emittedAllVisited (confirmed sp w)) with (emittedAllVisited w).
    change (placesVisited (confirmed sp w)) with (<[sp := true]> (placesVisited w)).
    by rewrite Hem, Hall.
  - rewrite (andThen_pair _ _ w _ _ (confirmed sp w) [] Hsweep); [done|].
    unfold completionCheck.
    change (emittedAllVisited (confirmed sp w)) with (emittedAllVisited w).
    change (placesVisited (confirmed sp w)) with (<[sp := true]> (placesVisited w)).
    by rewrite Hem, Hall.
Qed.

Lemma sameObjects_refl w : sameObjects w w.
Proof. done. Qed.

Lemma sameObjects_trans w1 w2 w3 :
  sameObjects w1 w2 → sameObjects w2 w3 → sameObjects w1 w3.
Proof. intros H12 H23 p. by rewrite H23, H12. Qed.

Lemma sameObjects_heap w w' w'' :
  heap w'' = heap w' → sameObjects w w' → sameObjects w w''.
Proof. intros Hh H p. by rewrite Hh. Qed.

Lemma sameObjects_set_visited p b w : sameObjects w (set_visited p b w).
Proof.
  intros q. unfold set_visited. cbn [heap set_heap].
  destruct (decide (q = p)) as [->|Hne].
  - rewrite lookup_alter_eq. by destruct (heap w !! p).
  - by rewrite lookup_alter_ne.
Qed.

Lemma inRadius_sameObjects dist up w w' p :
  sameObjects w w' → inRadius dist up w' p = inRadius dist up w p.
Proof.
  intros Hs. specialize (Hs p). unfold inRadius.
  destruct (heap w' !! p) as [o'|], (heap w !! p) as [o|]; try done.
  assert (with_visited false o' = with_visited false o) as Hs' by (cbn in Hs; congruence).
  change (checkVisited dist up (with_visited false o')
          = checkVisited dist up (with_visited false o)).
  by rewrite Hs'.
Qed.

Lemma activationThreshold_sameObjects w w' p :
  sameObjects w w' → activationThreshold w' p = activationThreshold w p.
Proof.
  intros Hs. specialize (Hs p). unfold activationThreshold.
  destruct (heap w' !! p) as [o'|], (heap w !! p) as [o|]; try done.
  assert (with_visited false o' = with_visited false o) as Hs' by (cbn in Hs; congruence).
  change (default (10 # 1)%Q (distanceToActivate (with_visited false o'))
          = default (10 # 1)%Q (distanceToActivate (with_visited false o))).
  by rewrite Hs'.
Qed.

Lemma is_Some_sameObjects w w' p :
  sameObjects w w' → is_Some (heap w !! p) → is_Some (heap w' !! p).
Proof.
  intros Hs [o Ho]. specialize (Hs p). rewrite Ho in Hs.
  destruct (heap w' !! p); [eauto|done].
Qed.

Lemma withinThreshold_sameObjects w w' up p :
  sameObjects w w' → withinThreshold w up p → withinThreshold w' up p.
Proof.
  intros Hs (d & Hd & Hle). exists d.
  by rewrite (activationThreshold_sameObjects w w').
Qed.

Lemma ownMark_sameObjects dist w w' f p :
  sameObjects w w' → ownMark dist w' f p = ownMark dist w f p.
Proof. intros Hs. unfold ownMark. by rewrite (inRadius_sameObjects dist _ w w'). Qed.

Lemma walkEvents_sameObjects dist w w' fs l :
  sameObjects w w' → walkEvents dist w' fs l = walkEvents dist w fs l.
Proof.
  intros Hs. revert l. induction fs as [|f fs IH]; intros [|p rest]; try done.
  cbn [walkEvents]. by rewrite IH, (ownMark_sameObjects dist w w').
Qed.

(** The callback of one place. *)
Lemma Place_onUpdate_inRadius dist up p w :
  Place_onUpdate dist up p w
  = if inRadius dist up w p then set_visited p true w else w.
Proof.
  unfold Place_onUpdate, inRadius. by destruct (heap w !! p).
Qed.

Lemma Place_onUpdate_sameObjects dist up p w :
  sameObjects w (Place_onUpdate dist up p w).
Proof.
  rewrite Place_onUpdate_inRadius. destruct (inRadius dist up w p); [|done].
  apply sameObjects_set_visited.
Qed.

Lemma Place_onUpdate_visited dist up p w q :
  visited (Place_onUpdate dist up p w) q
  = visited w q || (bool_decide (q = p) && inRadius dist up w q).
Proof.
  rewrite Place_onUpdate_inRadius.
  destruct (decide (q = p)) as [->|Hne].
  - rewrite bool_decide_true by done.
    destruct (inRadius dist up w p) eqn:Hin.
    + unfold inRadius in Hin. destruct (heap w !! p) as [o|] eqn:Ho; [|done].
      rewrite (visited_set_visited_true p o) by done. by rewrite orb_true_r.
    + by rewrite orb_false_r.
  - rewrite bool_decide_false by done. rewrite orb_false_r.
    destruct (inRadius dist up w p); [|done]. by apply visited_set_visited_ne.
Qed.

Lemma callbacks_cons dist up p ps w :
  callbacks dist up (p :: ps) w = callbacks dist up ps (Place_onUpdate dist up p w).
Proof. done. Qed.

Lemma callbacks_sameObjects dist up ps w :
  sameObjects w (callbacks dist up ps w).1.
Proof.
  revert w. induction ps as [|p ps IH]; intros w; [done|].
  rewrite callbacks_cons.
  eapply sameObjects_trans; [apply (Place_onUpdate_sameObjects dist up p)|apply IH].
Qed.

Lemma callbacks_visited dist up ps w q :
  visited (callbacks dist up ps w).1 q
  = visited w q || (bool_decide (q ∈ ps) && inRadius dist up w q).
Proof.
  revert w. induction ps as [|p ps IH]; intros w.
  { cbn. rewrite bool_decide_false by apply not_elem_of_nil. by rewrite orb_false_r. }
  rewrite callbacks_cons, IH, Place_onUpdate_visited.
  rewrite (inRadius_sameObjects dist up w _ q (Place_onUpdate_sameObjects dist up p w)).
  assert (bool_decide (q ∈ p :: ps) = bool_decide (q = p) || bool_decide (q ∈ ps)) as ->.
  { apply eq_true_iff_eq. rewrite orb_true_iff, !bool_decide_eq_true.
    by rewrite elem_of_cons. }
  destruct (visited w q), (bool_decide (q = p)), (bool_decide (q ∈ ps)),
    (inRadius dist up w q); done.
Qed.

Lemma callbacks_events dist up ps w : (callbacks dist up ps w).2 = [].
Proof. done. Qed.

(** What no callback touches. *)
Lemma callbacks_control dist up ps w :
  let w' := (callbacks dist up ps w).1 in
  _places w' = _places w ∧ _status w' = _status w
  ∧ selectedPlace w' = selectedPlace w ∧ placesAt w' = placesAt w
  ∧ placesVisited w' = placesVisited w
  ∧ emittedAllVisited w' = emittedAllVisited w.
Proof.
  revert w. induction ps as [|p ps IH]; intros w; [done|].
  rewrite callbacks_cons. cbv zeta.
  destruct (IH (Place_onUpdate dist up p w)) as (-> & -> & -> & -> & -> & ->).
  rewrite Place_onUpdate_inRadius. by destruct (inRadius dist up w p).
Qed.

Lemma callbacks_inv dist up ps w : Inv w → Inv (callbacks dist up ps w).1.
Proof.
  revert w. induction ps as [|p ps IH]; intros w HI; [done|].
  rewrite callbacks_cons. by apply IH, Place_onUpdate_inv.
Qed.

Lemma callbacks_walking dist up ps behind ahead w :
  Walking behind ahead w →
  (∀ q, q ∈ tail ahead → inRadius dist up w q = false) →
  Walking behind ahead (callbacks dist up ps w).1.
Proof.
  intros [HI Hpl Hb Ha Hrest Hsel Hem] Hout.
  destruct (callbacks_control dist up ps w) as (Hpl' & _ & Hsel' & Hat' & _ & Hem').
  constructor.
  - by apply callbacks_inv.
  - by rewrite Hpl'.
  - intros p Hp. destruct (Hb p Hp) as [Hv Hat]. rewrite Hat'. split; [|done].
    by rewrite callbacks_visited, Hv.
  - intros p Hp. destruct (Ha p Hp) as [Ho Hat]. rewrite Hat'. split; [|done].
    by apply (is_Some_sameObjects w), Ho; apply callbacks_sameObjects.
  - intros p Hp. rewrite callbacks_visited, (Hrest p Hp), (Hout p Hp).
    by rewrite andb_false_r.
  - intros sp Hsp. rewrite Hsel'. by apply Hsel.
  - by rewrite Hem'.
Qed.

Lemma callbacks_completed dist up ps w :
  Completed w → Completed (callbacks dist up ps w).1.
Proof.
  intros [Hst Hsel Hall Hem].
  destruct (callbacks_control dist up ps w) as (Hpl' & Hst' & Hsel' & _ & _ & Hem').
  constructor; try congruence.
  intros p Hp. rewrite Hpl' in Hp. by rewrite callbacks_visited, (Hall p Hp).
Qed.

(** One update of the walk. *)
Lemma update_walks up behind sp rest w :
  Walking behind (sp :: rest) w → withinThreshold w up sp →
  ∃ w',
    update up w
    = (w', (if visited w sp then [] else [ArrivedAtPlace sp]) ++
           [ArrivedAtPlace sp; ArrivedAtPlace sp] ++ walkTail rest)
    ∧ sameObjects w w'
    ∧ _places w' = _places w
    ∧ match rest with
      | [] => Completed w'
      | _ :: _ => Walking (behind ++ [sp]) rest w'
                  ∧ ∀ p, p ∈ rest → visited w' p = false
      end.
Proof.
  intros [HI Hpl Hb Ha Hrest Hsel Hem] (d & Hd & Hle).
  pose proof (inv_nodup _ HI) as Hnd.
  assert (sp ∉ rest) as Hnotin.
  { pose proof Hnd as Hnd'. rewrite Hpl in Hnd'.
    apply NoDup_app in Hnd' as (_ & _ & Hnd').
    by apply NoDup_cons in Hnd' as [? _]. }
  assert (_places w !! length behind = Some sp) as Hk.
  { rewrite Hpl. by apply list_lookup_middle. }
  destruct (Ha sp) as [[o Ho] Hatsp]; [by left|].
  specialize (Hsel sp eq_refl). cbn [tail] in Hrest.
  assert (∀ j q, _places w !! j = Some q → j < length behind →
            visited w q = true ∧ placesAt w !! q = Some true ∧ q ≠ sp) as Hbehind.
  { intros j q Hj Hlt. destruct (Hb q) as [Hv Hat].
    { rewrite Hpl, lookup_app_l in Hj by done. by eapply list_elem_of_lookup_2. }
    split; [done|]. split; [done|]. intros ->. congruence. }
  assert (∀ j q, _places w !! j = Some q → length behind < j →
            q ≠ sp ∧ q ∈ rest ∧ visited w q = false
            ∧ placesAt w !! q = Some false) as Hahead.
  { intros j q Hj Hlt.
    assert (q ∈ rest) as Hq.
    { rewrite Hpl in Hj. rewrite lookup_app_r in Hj by lia.
      destruct (j - length behind) as [|m] eqn:Hm; [lia|].
      by eapply list_elem_of_lookup_2. }
    split; [by intros ->|]. split; [done|]. split; [by apply Hrest|].
    apply Ha. by right. }
  (* the arrival test *)
  assert (∃ w1,
    arrivalCheck up sp w = (w1, if visited w sp then [] else [ArrivedAtPlace sp])
    ∧ visited w1 sp = true
    ∧ (∀ q, q ≠ sp → visited w1 q = visited w q)
    ∧ sameObjects w w1
    ∧ _places w1 = _places w ∧ placesAt w1 = placesAt w
    ∧ placesVisited w1 = placesVisited w
    ∧ emittedAllVisited w1 = emittedAllVisited w)
    as (w1 & Hcheck & Hv1 & Hv1ne & Hsame1 & Hpl1 & Hat1 & Hpv1 & Hem1).
  { destruct (visited w sp) eqn:Hvsp.
    - exists w. split; [|done].
      destruct (arrivalCheck_cases up sp w) as [[Harr _]|[_ Heq]]; [|done].
      unfold arrives in Harr. rewrite Hvsp in Harr. by rewrite andb_false_r in Harr.
    - exists (set_hasArrivedAtSelectedPlace true (set_visited sp true w)).
      assert (arrives up sp w = true) as Harr.
      { unfold arrives. rewrite Hd, Hle, Hvsp.
        rewrite (indexOf_lookup _ _ _ Hnd Hk).
        destruct (length behind) as [|j] eqn:Hlen.
        - by rewrite at_index_negative by lia.
        - replace (Z.of_nat (S j) - 1)%Z with (Z.of_nat j) by lia.
          rewrite at_index_of_nat.
          destruct (_places w !! j) as [q|] eqn:Hq; [|done].
          by destruct (Hbehind j q Hq) as [-> _]; [lia|]. }
      split.
      { destruct (arrivalCheck_cases up sp w) as [[_ Heq]|[Hno _]]; [done|congruence]. }
      split.
      { change (visited (set_visited sp true w) sp = true).
        by apply (visited_set_visited_true sp o). }
      split.
      { intros q Hq. change (visited (set_visited sp true w) q = visited w q).
        by apply visited_set_visited_ne. }
      split; [|done].
      eapply sameObjects_heap; [|apply (sameObjects_set_visited sp true)]. done. }
  assert (nextUnvisited w1 sp = head rest) as Hnext.
  { unfold nextUnvisited. rewrite Hpl1.
    rewrite (indexOf_lookup _ _ _ Hnd Hk).
    replace (Z.to_nat (Z.of_nat (length behind) + 1)) with (length (behind ++ [sp]))
      by (rewrite length_app; simpl; lia).
    rewrite Hpl, (cons_middle sp behind rest), app_assoc, drop_app_length.
    destruct rest as [|q rest']; [done|]. simpl.
    rewrite Hv1ne, (Hrest q); [done|by left|].
    intros ->. apply Hnotin. by left. }
  assert (∀ s,
    let w2 := set_status s (set_selectedPlace SelNull
                              (set_hasArrivedAtSelectedPlace true w1)) in
    sweepAndCompletion w2
    = if allVisited (<[sp := true]> (placesVisited w))
      then (set_emittedAllVisited true (confirmed sp w2),
            [ArrivedAtPlace sp; AllPlacesVisited])
      else (confirmed sp w2, [ArrivedAtPlace sp])) as Hsweep.
  { intros s w2. rewrite <- Hpv1.
    apply (sweepAndCompletion_confirm_one (length behind) sp w2).
    - change (NoDup (_places w1)). by rewrite Hpl1.
    - change (_places w1 !! length behind = Some sp). by rewrite Hpl1.
    - exact Hv1.
    - change (placesAt w1 !! sp = Some false). by rewrite Hat1.
    - intros j q Hlen Hq. change (visited w1 q = true).
      change (_places w1 !! j = Some q) in Hq. rewrite Hpl1 in Hq.
      destruct (Hbehind j q Hq) as (Hvq & _ & Hne); [lia|].
      by rewrite Hv1ne.
    - intros j p Hj Hp. change (_places w1 !! j = Some p) in Hp. rewrite Hpl1 in Hp.
      change (placesAt w1 !! p = Some (visited w1 p)). rewrite Hat1.
      destruct (decide (j < length behind)) as [Hlt|Hge].
      + destruct (Hbehind j p Hp Hlt) as (Hvp & Hat & Hne).
        by rewrite Hv1ne, Hvp.
      + destruct (Hahead j p Hp) as (Hne & _ & Hvp & Hat); [lia|].
        by rewrite Hv1ne, Hvp.
    - change (emittedAllVisited w1 = false). by rewrite Hem1. }
  destruct rest as [|q rest'].
  - (* the last place *)
    assert (allVisited (<[sp := true]> (placesVisited w)) = true) as Hall.
    { apply allVisited_true. split; [apply insert_non_empty|].
      intros p b Hp. destruct (decide (p = sp)) as [->|Hne].
      - rewrite lookup_insert_eq in Hp. congruence.
      - rewrite lookup_insert_ne in Hp by done. rewrite (inv_same _ HI) in Hp.
        assert (p ∈ _places w) as Hin by (apply (inv_dom _ HI); eauto).
        rewrite Hpl in Hin. apply elem_of_app in Hin as [Hin|Hin].
        + destruct (Hb p Hin) as [_ Hat]. congruence.
        + apply list_elem_of_singleton in Hin. done. }
    eexists. split; [|split; [|split]].
    + rewrite (update_last up w sp); [|done|by rewrite Hcheck|by rewrite Hcheck].
      rewrite Hcheck. cbv zeta. cbn [fst snd].
      rewrite (Hsweep Succeeded), Hall. cbn [fst snd]. reflexivity.
    + eapply sameObjects_heap; [|exact Hsame1]. done.
    + exact Hpl1.
    + constructor; [done|done| |done].
      intros p Hp. change (p ∈ _places w1) in Hp. change (visited w1 p = true).
      rewrite Hpl1, Hpl in Hp. apply elem_of_app in Hp as [Hp|Hp].
      * destruct (Hb p Hp) as [Hvp _]. destruct (decide (p = sp)) as [->|Hne]; [done|].
        by rewrite Hv1ne.
      * apply list_elem_of_singleton in Hp. by subst p.
  - (* a place follows *)
    destruct (Ha q) as [[oq Hoq] Hatq]; [right; by left|].
    assert (q ≠ sp) as Hqsp.
    { intros ->. apply Hnotin. by left. }
    assert (allVisited (<[sp := true]> (placesVisited w)) = false) as Hall.
    { apply (allVisited_false _ q). rewrite lookup_insert_ne by done.
      by rewrite (inv_same _ HI). }
    pose proof (update_inv up w HI) as [HI' _].
    rewrite (update_next up w sp q) in HI';
      [|done|done|by rewrite Hcheck|by rewrite Hcheck].
    rewrite Hcheck in HI'. cbv zeta in HI'. cbn [fst snd] in HI'.
    rewrite (Hsweep InProgress), Hall in HI'. cbn [fst snd] in HI'.
    eexists. split; [|split; [|split]].
    + rewrite (update_next up w sp q); [|done|done|by rewrite Hcheck|by rewrite Hcheck].
      rewrite Hcheck. cbv zeta. cbn [fst snd].
      rewrite (Hsweep InProgress), Hall. cbn [fst snd]. reflexivity.
    + eapply sameObjects_heap; [|exact Hsame1]. done.
    + exact Hpl1.
    + assert (∀ p, p ∈ q :: rest' → visited w1 p = false) as Hunv.
      { intros p Hp. rewrite Hv1ne; [by apply Hrest|]. by intros ->. }
      split; [|exact Hunv]. constructor.
      * exact HI'.
      * change (_places w1 = (behind ++ [sp]) ++ q :: rest').
        by rewrite Hpl1, Hpl, <- app_assoc.
      * intros p Hp.
        change (visited w1 p = true ∧ <[sp := true]> (placesAt w1) !! p = Some true).
        rewrite Hat1. apply elem_of_app in Hp as [Hp|Hp].
        -- destruct (Hb p Hp) as [Hvp Hat].
           destruct (decide (p = sp)) as [->|Hne]; [congruence|].
           by rewrite Hv1ne, lookup_insert_ne.
        -- apply list_elem_of_singleton in Hp. subst p.
           by rewrite lookup_insert_eq.
      * intros p Hp.
        change (is_Some (heap w1 !! p) ∧ <[sp := true]> (placesAt w1) !! p = Some false).
        rewrite Hat1. destruct (Ha p) as [Hop Hatp]; [by right|].
        assert (p ≠ sp) as Hne by (intros ->; done).
        split; [by apply (is_Some_sameObjects w)|by rewrite lookup_insert_ne].
      * intros p Hp. change (visited w1 p = false). apply Hunv. by right.
      * intros p [= <-]. done.
      * change (emittedAllVisited w1 = false). by rewrite Hem1.
Qed.

(** One frame of the walk: the callbacks that run first, the controller's
    update, the callbacks that run last. *)
Lemma frame_walks dist f behind sp rest w :
  Walking behind (sp :: rest) w → visited w sp = false →
  withinThreshold w (frameUser f) sp →
  (∀ q, q ∈ rest → inRadius dist (frameUser f) w q = false) →
  ∃ w',
    frame dist f w
    = (w', (if ownMark dist w f sp then [] else [ArrivedAtPlace sp]) ++
           [ArrivedAtPlace sp; ArrivedAtPlace sp] ++ walkTail rest)
    ∧ sameObjects w w'
    ∧ _places w' = _places w
    ∧ match rest with
      | [] => Completed w'
      | _ :: _ => Walking (behind ++ [sp]) rest w'
                  ∧ ∀ p, p ∈ rest → visited w' p = false
      end.
Proof.
  intros Hw Hvsp Hin Hout.
  set (up := frameUser f) in *.
  set (wb := (callbacks dist up (before f) w).1).
  pose proof (callbacks_sameObjects dist up (before f) w) as Hsb. fold wb in Hsb.
  assert (Walking behind (sp :: rest) wb) as Hwb by by apply callbacks_walking.
  assert (visited wb sp = ownMark dist w f sp) as Hvb.
  { unfold wb. by rewrite callbacks_visited, Hvsp. }
  destruct (update_walks up behind sp rest wb Hwb) as (wu & Hupd & Hsu & Hplu & Hrest).
  { by apply (withinThreshold_sameObjects w). }
  rewrite Hvb in Hupd.
  set (wa := (callbacks dist up (after f) wu).1).
  pose proof (callbacks_sameObjects dist up (after f) wu) as Hsa. fold wa in Hsa.
  assert (sameObjects w wu) as Hswu by by eapply sameObjects_trans.
  exists wa. split; [|split; [by eapply sameObjects_trans|split]].
  - unfold frame. fold up.
    rewrite (andThen_pair _ _ w wb [] wa
               ((if ownMark dist w f sp then [] else [ArrivedAtPlace sp]) ++
                [ArrivedAtPlace sp; ArrivedAtPlace sp] ++ walkTail rest));
      [done|done|].
    rewrite (andThen_pair _ _ wb wu _ wa [] Hupd); [|done].
    by rewrite app_nil_r.
  - assert (_places wb = _places w) as Hplb by apply callbacks_control.
    assert (_places wa = _places wu) as Hpla by apply callbacks_control.
    by rewrite Hpla, Hplu, Hplb.
  - destruct rest as [|q rest'].
    + by apply callbacks_completed.
    + destruct Hrest as [Hwu Hunv]. split.
      * apply callbacks_walking; [done|].
        intros p Hp. rewrite (inRadius_sameObjects dist up w wu) by done.
        apply Hout. by right.
      * intros p Hp. unfold wa. rewrite callbacks_visited, (Hunv p Hp).
        rewrite (inRadius_sameObjects dist up w wu) by done.
        rewrite (Hout p Hp). by rewrite andb_false_r.
Qed.

Lemma frames_walk dist ahead : ∀ behind fs w,
  Walking behind ahead w → ahead ≠ [] →
  (∀ p, p ∈ ahead → visited w p = false) →
  Forall2 (λ f p, withinThreshold w (frameUser f) p) fs ahead →
  (∀ i j f q, fs !! i = Some f → ahead !! j = Some q → i < j →
              inRadius dist (frameUser f) w q = false) →
  ∃ w', frames dist fs w = (w', walkEvents dist w fs ahead)
        ∧ Completed w' ∧ _places w' = _places w.
Proof.
  induction ahead as [|sp rest IH]; intros behind fs w Hw Hne Hunv Hfs Hearly; [done|].
  apply Forall2_cons_inv_r in Hfs as (f & fs' & Hf & Hfs' & ->).
  destruct (frame_walks dist f behind sp rest w Hw) as (w1 & Heq & Hs & Hpl & Hrest).
  { apply Hunv. by left. }
  { done. }
  { intros q Hq. apply list_elem_of_lookup in Hq as [j Hj].
    apply (Hearly 0 (S j) f q); [done|done|lia]. }
  destruct rest as [|q rest'].
  - apply Forall2_nil_inv_r in Hfs' as ->.
    exists w1. split; [|done].
    change (frames dist [f] w) with ((frame dist f >>> skip) w).
    rewrite (andThen_pair _ _ w w1 _ w1 [] Heq); [|done].
    cbn [walkEvents]. by rewrite !app_nil_r.
  - destruct Hrest as [Hw1 Hunv1].
    destruct (IH (behind ++ [sp]) fs' w1 Hw1) as (w' & Heq' & Hdone & Hpl');
      [done|done| | |].
    { eapply Forall2_impl; [exact Hfs'|].
      intros f' p. by apply withinThreshold_sameObjects. }
    { intros i j f' p Hi Hj Hlt.
      rewrite (inRadius_sameObjects dist _ w w1) by done.
      apply (Hearly (S i) (S j) f' p); [done|done|lia]. }
    exists w'. split; [|split; [done|by rewrite Hpl', Hpl]].
    change (frames dist (f :: fs') w) with ((frame dist f >>> frames dist fs') w).
    rewrite (andThen_pair _ _ w w1 _ w' _ Heq Heq').
    rewrite (walkEvents_sameObjects dist w w1) by done.
    cbn [walkEvents]. by rewrite <- !app_assoc.
Qed.

(** X18: a walk along the list completes the quest, whatever the order in
    which the dispatcher runs the per-frame callbacks.  Start with a
    non-empty list of unvisited places, the first one selected and the
    completion latch open.  Let each frame run the callbacks of any places
    before and after the controller's update, and let it find the user
    within the controller's threshold of the next place of the list and
    outside the radius of the places further on.  Then each frame
    completes one place, in order: its arrival is announced three times,
    or twice when its own callback has marked it earlier in the frame,
    followed by the selection of the next place or, after the last one, by
    [AllPlacesVisited]; and the walk ends with the status [Succeeded],
    nothing selected and every place visited. *)
Theorem walk_in_order dist fs w sp :
  reachable dist w →
  head (_places w) = Some sp → selectedPlace w = SelPlace sp →
  emittedAllVisited w = false →
  (∀ p, p ∈ _places w → visited w p = false ∧ is_Some (heap w !! p)) →
  Forall2 (λ f p, withinThreshold w (frameUser f) p) fs (_places w) →
  (∀ i j f q, fs !! i = Some f → _places w !! j = Some q → i < j →
              inRadius dist (frameUser f) w q = false) →
  let r := frames dist fs w in
  r.2 = walkEvents dist w fs (_places w)
  ∧ _status r.1 = Succeeded ∧ selectedPlace r.1 = SelNull
  ∧ allPlacesVisited r.1 ∧ emittedAllVisited r.1 = true
  ∧ _places r.1 = _places w.
Proof.
  intros Hr Hhead Hsel Hem Hun Hfs Hearly r. subst r.
  pose proof (reachable_inv dist w Hr) as HI.
  destruct (frames_walk dist (_places w) [] fs w) as (w' & Heq & [] & Hpl);
    [| | |done|done|].
  - constructor; try done.
    + intros p Hp. by apply elem_of_nil in Hp.
    + intros p Hp. destruct (Hun p Hp) as [Hv Ho]. split; [done|].
      by apply inv_unvisited_placesAt.
    + intros p Hp. apply Hun. destruct (_places w); [done|]. by right.
    + intros sp' Hsp'. congruence.
  - intros Hnil. by rewrite Hnil in Hhead.
  - intros p Hp. by apply Hun.
  - by rewrite Heq.
Qed.

Lemma walk_in_order_witness :
  let r := frames gridDistance
             [mkFrame userNearA [refA; refB] []; mkFrame userOnSpot [refB] [refA]]
             twoWithASelected in
  r.2 = [ArrivedAtPlace refA; ArrivedAtPlace refA; ArrivedAtPlace refA;
         NavigationStarted (Some refB);
         ArrivedAtPlace refB; ArrivedAtPlace refB;
         AllPlacesVisited]
  ∧ _status r.1 = Succeeded.
Proof.
  destruct (walk_in_order gridDistance
              [mkFrame userNearA [refA; refB] []; mkFrame userOnSpot [refB] [refA]]
              twoWithASelected refA) as (Hev & Hst & _).
  - apply twoWithASelected_reachable.
  - vm_compute. reflexivity.
  - vm_compute. reflexivity.
  - vm_compute. reflexivity.
  - intros p Hp.
    assert (p = refA ∨ p = refB) as [-> | ->].
    { vm_compute in Hp. apply elem_of_cons in Hp as [->|Hp]; [by left|].
      apply list_elem_of_singleton in Hp. by right. }
    + split; [vm_compute; reflexivity|]. eexists. vm_compute. reflexivity.
    + split; [vm_compute; reflexivity|]. eexists. vm_compute. reflexivity.
  - assert (_places twoWithASelected = [refA; refB]) as -> by (vm_compute; reflexivity).
    repeat constructor.
    + exists 5%Q. split; [reflexivity|vm_compute; reflexivity].
    + exists 0%Q. split; [reflexivity|vm_compute; reflexivity].
  - intros i j f q Hi Hj Hlt.
    assert (_places twoWithASelected = [refA; refB]) as Hpl by (vm_compute; reflexivity).
    rewrite Hpl in Hj.
    destruct i as [|[|i]]; [|destruct j as [|[|j]]; try lia; discriminate Hj|discriminate Hi].
    injection Hi as <-.
    destruct j as [|[|j]]; [lia| |discriminate Hj].
    injection Hj as <-. vm_compute. reflexivity.
  - split; [|exact Hst]. rewrite Hev. vm_compute. reflexivity.
Defined.

(** ** ManualPlaceList: the inputs that register *)

Lemma registerInput_inactive m w :
  GeoPlaceInput.active m = false → registerInput m w = mkOutcome None w [].
Proof. intros Hact. unfold registerInput. by rewrite Hact. Qed.

Lemma registerInput_active m w lat lon :
  GeoPlaceInput.active m = true →
  parseNumber (GeoPlaceInput.latitude m) = Some lat →
  parseNumber (GeoPlaceInput.longitude m) = Some lon →
  (∀ p, p ∈ _places w → is_Some (heap w !! p)) →
  ∃ p w', registerInput m w = mkOutcome None w' [PlacesUpdated]
          ∧ heap w !! p = None
          ∧ heap w' = <[p := mkPlace (GeoPlaceInput.label m) false
                               (mkGeoPosition lat lon 0)
                               (GeoPlaceInput.distanceToActivate m) None]> (heap w)
          ∧ _places w' = _places w ++ [p].
Proof.
  intros Hact Hlat Hlon Hdom.
  set (p := fresh (dom (heap w))).
  assert (heap w !! p = None) as Hp.
  { apply not_elem_of_dom. apply is_fresh. }
  assert (p ∉ _places w) as Hnew.
  { intros Hin. apply Hdom in Hin as [o Ho]. congruence. }
  exists p. eexists. split; [|split; [exact Hp|split]].
  - unfold registerInput, convertToNumber, newGeoLocationPlace, addPlace.
    rewrite Hact, Hlon, Hlat. fold p.
    unfold addPlace_present, includes.
    rewrite bool_decide_false by done. reflexivity.
  - done.
  - done.
Qed.

Lemma start_registers inputs : ∀ w,
  (∀ p, p ∈ _places w → is_Some (heap w !! p)) →
  (∀ m, m ∈ inputs → GeoPlaceInput.active m = true →
        is_Some (parseNumber (GeoPlaceInput.latitude m))
        ∧ is_Some (parseNumber (GeoPlaceInput.longitude m))) →
  ∃ new,
    thrown (start inputs w) = None
    ∧ events (start inputs w) = replicate (length new) PlacesUpdated
    ∧ _places (world (start inputs w)) = _places w ++ new
    ∧ Forall2 (λ m p, ∃ lat lon,
                 parseNumber (GeoPlaceInput.latitude m) = Some lat
                 ∧ parseNumber (GeoPlaceInput.longitude m) = Some lon
                 ∧ heap (world (start inputs w)) !! p
                   = Some (mkPlace (GeoPlaceInput.label m) false
                             (mkGeoPosition lat lon 0)
                             (GeoPlaceInput.distanceToActivate m) None))
        (filter (λ m, GeoPlaceInput.active m = true) inputs) new
    ∧ (∀ p, p ∈ new → heap w !! p = None)
    ∧ (∀ p o, heap w !! p = Some o → heap (world (start inputs w)) !! p = Some o)
    ∧ (∀ p, p ∈ _places (world (start inputs w)) →
            is_Some (heap (world (start inputs w)) !! p)).
Proof.
  induction inputs as [|m rest IH]; intros w Hdom Hparse.
  { exists []. simpl. rewrite app_nil_r.
    split; [done|]. split; [done|]. split; [done|]. split; [constructor|].
    split; [|done]. intros p Hp. by apply elem_of_nil in Hp. }
  destruct (GeoPlaceInput.active m) eqn:Hact.
  - destruct (Hparse m) as [[lat Hlat] [lon Hlon]]; [by left|done|].
    destruct (registerInput_active m w lat lon Hact Hlat Hlon Hdom)
      as (p & w1 & Hreg & Hp & Hheap & Hpl).
    destruct (IH w1) as (new & Hth & Hev & Hpl' & Hall & Hfresh & Hmono & Hdom').
    { intros q Hq. rewrite Hpl in Hq. rewrite Hheap.
      apply elem_of_app in Hq as [Hq|Hq].
      - destruct (Hdom q Hq) as [o Ho]. exists o.
        rewrite lookup_insert_ne; [done|]. intros ->. congruence.
      - apply list_elem_of_singleton in Hq. subst q.
        rewrite lookup_insert_eq. eauto. }
    { intros m' Hm'. apply Hparse. by right. }
    exists (p :: new).
    assert (start (m :: rest) w
            = mkOutcome (thrown (start rest w1)) (world (start rest w1))
                        ([PlacesUpdated] ++ events (start rest w1))) as Heq.
    { simpl. by rewrite Hreg. }
    rewrite Heq. simpl. rewrite filter_cons_True by done.
    split; [done|]. split; [by rewrite Hev|]. split; [|split; [|split; [|split]]].
    + by rewrite Hpl', Hpl, <- app_assoc.
    + constructor; [|done]. exists lat, lon. split; [done|]. split; [done|].
      apply Hmono. rewrite Hheap. by rewrite lookup_insert_eq.
    + intros q Hq. apply elem_of_cons in Hq as [->|Hq]; [done|].
      apply Hfresh in Hq. rewrite Hheap in Hq.
      by apply lookup_insert_None in Hq as [? _].
    + intros q o Ho. apply Hmono. rewrite Hheap.
      rewrite lookup_insert_ne; [done|]. intros ->. congruence.
    + done.
  - destruct (IH w) as (new & Hth & Hev & Hpl' & Hall & Hfresh & Hmono & Hdom').
    { done. }
    { intros m' Hm'. apply Hparse. by right. }
    exists new.
    assert (start (m :: rest) w = start rest w) as Heq.
    { simpl. rewrite (registerInput_inactive m w Hact). simpl.
      by destruct (start rest w). }
    rewrite Heq. rewrite filter_cons_False by (rewrite Hact; done).
    done.
Qed.

(** X19: when every active input has a latitude and a longitude that
    convert, [start] throws nothing and appends one new place per active
    input, in the order of the inputs, announcing each with
    [PlacesUpdated].  Each new place is a fresh unvisited object with the
    label and the converted coordinates of its input and altitude 0; the
    authored radius becomes its visit radius, while it gets no
    [distanceToActivate] property, so the threshold read by the
    controller's update is 10 whatever the input says.  Objects that
    existed before are left as they were.  (The conversion is the
    modelled [convertToNumber].) *)
Theorem start_registers_active inputs w :
  (∀ p, p ∈ _places w → is_Some (heap w !! p)) →
  (∀ m, m ∈ inputs → GeoPlaceInput.active m = true →
        is_Some (parseNumber (GeoPlaceInput.latitude m))
        ∧ is_Some (parseNumber (GeoPlaceInput.longitude m))) →
  let r := start inputs w in
  thrown r = None
  ∧ ∃ new,
      _places (world r) = _places w ++ new
      ∧ events r = replicate (length new) PlacesUpdated
      ∧ Forall2 (λ m p, ∃ lat lon,
                   parseNumber (GeoPlaceInput.latitude m) = Some lat
                   ∧ parseNumber (GeoPlaceInput.longitude m) = Some lon
                   ∧ heap (world r) !! p
                     = Some (mkPlace (GeoPlaceInput.label m) false
                               (mkGeoPosition lat lon 0)
                               (GeoPlaceInput.distanceToActivate m) None))
          (filter (λ m, GeoPlaceInput.active m = true) inputs) new
      ∧ (∀ p, p ∈ new →
              heap w !! p = None ∧ visited (world r) p = false
              ∧ activationThreshold (world r) p = (10 # 1)%Q)
      ∧ (∀ p o, heap w !! p = Some o → heap (world r) !! p = Some o).
Proof.
  intros Hdom Hparse r. subst r.
  destruct (start_registers inputs w Hdom Hparse)
    as (new & Hth & Hev & Hpl & Hall & Hfresh & Hmono & _).
  split; [done|]. exists new.
  split; [done|]. split; [done|]. split; [done|]. split; [|done].
  intros p Hp. split; [by apply Hfresh|].
  apply list_elem_of_lookup in Hp as [i Hi].
  destruct (Forall2_lookup_r _ _ _ _ _ Hall Hi) as (m & _ & lat & lon & _ & _ & Hheap).
  unfold visited, activationThreshold. by rewrite Hheap.
Qed.

Lemma start_registers_active_witness :
  let r := start [inputStart; inputFinish] (initial ∅) in
  thrown r = None ∧ length (_places (world r)) = 2
  ∧ events r = [PlacesUpdated; PlacesUpdated].
Proof.
  destruct (start_registers_active [inputStart; inputFinish] (initial ∅))
    as (Hth & new & Hpl & Hev & Hall & _).
  - intros p Hp. by apply elem_of_nil in Hp.
  - intros m Hm _.
    apply elem_of_cons in Hm as [->|Hm];
      [|apply list_elem_of_singleton in Hm; subst m];
      split; eexists; vm_compute; reflexivity.
  - apply Forall2_length in Hall.
    assert (length new = 2) as Hlen by (rewrite <- Hall; reflexivity).
    cbv zeta. split; [exact Hth|]. split.
    + rewrite Hpl, length_app, Hlen. reflexivity.
    + rewrite Hev, Hlen. reflexivity.
Defined.

(** ** MapPin: the visited state of a pin *)

Lemma MapPin_applyVisitedAppearance_frame this :
  MapPin._isVisited (MapPin.applyVisitedAppearance this) = MapPin._isVisited this
  ∧ MapPin.place (MapPin.applyVisitedAppearance this) = MapPin.place this.
Proof.
  destruct this as [u v n om vm hs ns en sc pl [[[cur|]]|] [[[out|]]|] s];
    destruct om as [om|], vm as [vm|]; done.
Qed.

Lemma MapPin_resetToOriginalAppearance_frame this :
  MapPin._isVisited (MapPin.resetToOriginalAppearance this) = MapPin._isVisited this
  ∧ MapPin.place (MapPin.resetToOriginalAppearance this) = MapPin.place this.
Proof.
  unfold MapPin.resetToOriginalAppearance.
  destruct (MapPin.originalMaterial this), (MapPin.imageComponent this); done.
Qed.

Lemma MapPin_setVisited_frame visited this :
  MapPin._isVisited (MapPin.setVisited visited this).1 = visited
  ∧ MapPin.place (MapPin.setVisited visited this).1 = MapPin.place this.
Proof.
  unfold MapPin.setVisited. case_bool_decide as Hv; [done|].
  destruct visited; cbn [fst].
  - destruct (MapPin_applyVisitedAppearance_frame (MapPin.set_isVisited true this))
      as [-> ->]. done.
  - destruct (MapPin_resetToOriginalAppearance_frame (MapPin.set_isVisited false this))
      as [-> ->]. done.
Qed.

(** X20: [setVisited] changes the state at most once.  After the call the
    pin's flag is the argument; [visitedEvent] fires exactly when the flag
    goes from false to true; and a second call with the same argument
    returns at once, changing nothing and firing nothing. *)
Theorem MapPin_setVisited_once visited this :
  let r := MapPin.setVisited visited this in
  MapPin.isVisited r.1 = visited
  ∧ r.2 = (if visited && negb (MapPin.isVisited this)
           then [MapPin.VisitedEvent] else [])
  ∧ MapPin.setVisited visited r.1 = (r.1, []).
Proof.
  intros r. subst r.
  destruct (MapPin_setVisited_frame visited this) as [Hv _].
  split; [exact Hv|]. split.
  - unfold MapPin.setVisited, MapPin.isVisited.
    case_bool_decide as Hc.
    + rewrite Hc. by destruct visited.
    + destruct visited, (MapPin._isVisited this); done.
  - unfold MapPin.setVisited at 1. by rewrite bool_decide_true.
Qed.

(** What a recolouring leaves of a material. *)
Lemma MapPin_lookup_setBaseColor_ne m c s k :
  k ≠ m → MapPin.setBaseColor m c s !! k = s !! k.
Proof. intros Hk. unfold MapPin.setBaseColor. by rewrite lookup_alter_ne. Qed.

Lemma MapPin_dom_setBaseColor m c s :
  dom (MapPin.setBaseColor m c s) = dom s.
Proof. unfold MapPin.setBaseColor. by rewrite dom_alter_L. Qed.

Lemma MapPin_clone_fresh m s : s !! (MapPin.clone m s).1 = None.
Proof. apply not_elem_of_dom. apply is_fresh. Qed.

Lemma MapPin_first_visit this m0 material :
  MapPin.imageComponent this = Some (MapPin.mkImage (Some m0)) →
  MapPin.materials this !! m0 = Some material →
  MapPin.originalMaterial this = None →
  MapPin.visitedMaterial this = None →
  let r := MapPin.applyVisitedAppearance this in
  let copy := fresh (dom (MapPin.materials this)) in
  MapPin.originalMaterial r = Some m0
  ∧ MapPin.visitedMaterial r = Some copy
  ∧ MapPin.imageComponent r = Some (MapPin.mkImage (Some copy))
  ∧ MapPin.materials r !! copy
    = Some (match MapPin.mainPass material with
            | Some _ => MapPin.mkMaterial (Some (MapPin.mkPass MapPin.green))
            | None => material
            end)
  ∧ MapPin.materials r !! m0 = Some material.
Proof.
  destruct this as [u v n om vm hs ns en sc pl img out s]. simpl.
  intros -> Hm -> ->.
  assert (s !! fresh (dom s) = None) as Hfresh.
  { apply not_elem_of_dom. apply is_fresh. }
  assert (fresh (dom s) ≠ m0) as Hne by (intros Heq; congruence).
  unfold MapPin.applyVisitedAppearance. simpl. rewrite Hm.
  set (copy := fresh (dom s)) in *.
  set (s1 := MapPin.setBaseColor copy MapPin.green (<[copy := material]> s)).
  assert (s1 !! copy = Some (match MapPin.mainPass material with
              | Some _ => MapPin.mkMaterial (Some (MapPin.mkPass MapPin.green))
              | None => material
              end)) as Hcopy.
  { unfold s1, MapPin.setBaseColor. by rewrite lookup_alter_eq, lookup_insert_eq. }
  assert (s1 !! m0 = Some material) as Hm1.
  { unfold s1. rewrite MapPin_lookup_setBaseColor_ne by done.
    by rewrite lookup_insert_ne. }
  destruct out as [[[outline|]]|]; simpl; [|done..].
  set (o1 := fresh (dom s1)).
  assert (s1 !! o1 = None) as Ho1.
  { apply not_elem_of_dom. apply is_fresh. }
  assert (o1 ≠ copy) as Hoc by (intros Heq; congruence).
  assert (o1 ≠ m0) as Hom by (intros Heq; congruence).
  split; [done|]. split; [done|]. split; [done|].
  rewrite !MapPin_lookup_setBaseColor_ne by done.
  destruct (s1 !! outline); rewrite ?lookup_insert_ne by done; done.
Qed.

Lemma MapPin_later_visit this current original copy :
  MapPin.imageComponent this = Some (MapPin.mkImage (Some current)) →
  MapPin.originalMaterial this = Some original →
  MapPin.visitedMaterial this = Some copy →
  let r := MapPin.applyVisitedAppearance this in
  MapPin.originalMaterial r = Some original
  ∧ MapPin.visitedMaterial r = Some copy
  ∧ MapPin.imageComponent r = Some (MapPin.mkImage (Some copy)).
Proof.
  destruct this as [u v n om vm hs ns en sc pl img out s]. simpl.
  intros -> -> ->.
  unfold MapPin.applyVisitedAppearance. simpl.
  destruct out as [[[outline|]]|]; done.
Qed.

Lemma MapPin_recoloured_copy_keeps m c s k :
  is_Some (s !! k) →
  MapPin.setBaseColor (fresh (dom s)) c
    match s !! m with
    | Some material => <[fresh (dom s) := material]> s
    | None => s
    end !! k = s !! k.
Proof.
  intros [mat Hk].
  assert (k ≠ fresh (dom s)) as Hne.
  { intros ->. assert (s !! fresh (dom s) = None) as Hf; [|congruence].
    apply not_elem_of_dom. apply is_fresh. }
  rewrite MapPin_lookup_setBaseColor_ne by done.
  destruct (s !! m); [by rewrite lookup_insert_ne|done].
Qed.

(** The outline is recoloured on a copy made for the occasion. *)
Lemma MapPin_outline_visit this current o0 material :
  MapPin.imageComponent this = Some (MapPin.mkImage (Some current)) →
  MapPin.outlineImageComponent this = Some (MapPin.mkImage (Some o0)) →
  MapPin.materials this !! o0 = Some material →
  let r := MapPin.applyVisitedAppearance this in
  ∃ o1,
    MapPin.materials this !! o1 = None
    ∧ MapPin.outlineImageComponent r = Some (MapPin.mkImage (Some o1))
    ∧ MapPin.materials r !! o1
      = Some (match MapPin.mainPass material with
              | Some _ => MapPin.mkMaterial (Some (MapPin.mkPass MapPin.lightGreen))
              | None => material
              end)
    ∧ MapPin.materials r !! o0 = Some material.
Proof.
  destruct this as [u v n om vm hs ns en sc pl img out s]. simpl.
  intros -> -> Hm.
  assert (∀ s1 : gmap MapPin.MaterialRef MapPin.Material,
            (∀ k, is_Some (s !! k) → s1 !! k = s !! k) →
            s !! fresh (dom s1) = None
            ∧ MapPin.setBaseColor (fresh (dom s1)) MapPin.lightGreen
                match s1 !! o0 with
                | Some material0 => <[fresh (dom s1) := material0]> s1
                | None => s1
                end !! fresh (dom s1)
              = Some (match MapPin.mainPass material with
                      | Some _ => MapPin.mkMaterial (Some (MapPin.mkPass MapPin.lightGreen))
                      | None => material
                      end)
            ∧ MapPin.setBaseColor (fresh (dom s1)) MapPin.lightGreen
                match s1 !! o0 with
                | Some material0 => <[fresh (dom s1) := material0]> s1
                | None => s1
                end !! o0 = Some material) as Hout.
  { intros s1 Hkeep.
    assert (s1 !! fresh (dom s1) = None) as Hf.
    { apply not_elem_of_dom. apply is_fresh. }
    assert (s1 !! o0 = Some material) as Ho by (rewrite Hkeep; [done|eauto]).
    split; [|split].
    - destruct (s !! fresh (dom s1)) as [mat|] eqn:Hs; [|done].
      rewrite <- Hkeep in Hs by eauto. congruence.
    - rewrite Ho. unfold MapPin.setBaseColor.
      by rewrite lookup_alter_eq, lookup_insert_eq.
    - rewrite MapPin_recoloured_copy_keeps by eauto. done. }
  destruct om as [original|], vm as [copy|];
    unfold MapPin.applyVisitedAppearance; simpl.
  - destruct (Hout s) as (H1 & H2 & H3); [done|]. eauto.
  - edestruct Hout as (H1 & H2 & H3); [|eauto].
    intros k Hk. by apply MapPin_recoloured_copy_keeps.
  - destruct (Hout s) as (H1 & H2 & H3); [done|]. eauto.
  - edestruct Hout as (H1 & H2 & H3); [|eauto].
    intros k Hk. by apply MapPin_recoloured_copy_keeps.
Qed.

Lemma MapPin_setVisited_true this :
  MapPin._isVisited this = false →
  MapPin.setVisited true this
  = (MapPin.applyVisitedAppearance (MapPin.set_isVisited true this),
     [MapPin.VisitedEvent]).
Proof.
  intros Hv. unfold MapPin.setVisited. rewrite Hv.
  by rewrite bool_decide_false.
Qed.

Lemma MapPin_setVisited_false this :
  MapPin._isVisited this = true →
  MapPin.setVisited false this
  = (MapPin.resetToOriginalAppearance (MapPin.set_isVisited false this), []).
Proof.
  intros Hv. unfold MapPin.setVisited. rewrite Hv.
  by rewrite bool_decide_false.
Qed.

Lemma MapPin_applyVisitedAppearance_original this current :
  MapPin.imageComponent this = Some (MapPin.mkImage (Some current)) →
  let r := MapPin.applyVisitedAppearance this in
  MapPin.originalMaterial r = Some (default current (MapPin.originalMaterial this))
  ∧ is_Some (MapPin.imageComponent r).
Proof.
  destruct this as [u v n om vm hs ns en sc pl img [[[out|]]|] s]; simpl.
  all: intros ->; destruct om as [original|], vm as [copy|];
    unfold MapPin.applyVisitedAppearance; simpl; (split; [done|by eexists]).
Qed.

(** X21: visiting recolours a copy, and the reset puts the original back.
    Take a pin as [makeMapPin] leaves it (not visited, no material
    remembered) whose image has a main material.  [setVisited(true)] makes
    the image show a new material, a copy of the original with a green
    main pass, and leaves the original as it was; [setVisited(false)]
    gives the image its original material back; and a second
    [setVisited(true)] shows the same copy again instead of making
    another. *)
Theorem MapPin_visit_then_reset this m0 material :
  MapPin.imageComponent this = Some (MapPin.mkImage (Some m0)) →
  MapPin.materials this !! m0 = Some material →
  MapPin._isVisited this = false →
  MapPin.originalMaterial this = None →
  MapPin.visitedMaterial this = None →
  let visitedPin := (MapPin.setVisited true this).1 in
  let resetPin := (MapPin.setVisited false visitedPin).1 in
  let again := (MapPin.setVisited true resetPin).1 in
  ∃ copy,
    MapPin.materials this !! copy = None
    ∧ MapPin.imageComponent visitedPin = Some (MapPin.mkImage (Some copy))
    ∧ MapPin.materials visitedPin !! copy
      = Some (match MapPin.mainPass material with
              | Some _ => MapPin.mkMaterial (Some (MapPin.mkPass MapPin.green))
              | None => material
              end)
    ∧ MapPin.materials visitedPin !! m0 = Some material
    ∧ MapPin.imageComponent resetPin = Some (MapPin.mkImage (Some m0))
    ∧ MapPin.materials resetPin = MapPin.materials visitedPin
    ∧ MapPin.imageComponent again = Some (MapPin.mkImage (Some copy))
    ∧ MapPin.visitedMaterial again = Some copy.
Proof.
  intros Himg Hm Hv Ho Hvm visitedPin resetPin again.
  destruct (MapPin_first_visit (MapPin.set_isVisited true this) m0 material
              Himg Hm Ho Hvm) as (Ho1 & Hvm1 & Himg1 & Hcopy & Hm1).
  assert (visitedPin = MapPin.applyVisitedAppearance (MapPin.set_isVisited true this))
    as Hvisited by (unfold visitedPin; by rewrite MapPin_setVisited_true).
  rewrite <- Hvisited in Ho1, Hvm1, Himg1, Hcopy, Hm1.
  assert (MapPin._isVisited visitedPin = true) as Hv1
    by apply (MapPin_setVisited_frame true this).
  assert (resetPin = MapPin.set_imageComponent (Some (MapPin.mkImage (Some m0)))
                       (MapPin.set_isVisited false visitedPin)) as Hreset.
  { unfold resetPin. rewrite MapPin_setVisited_false by done.
    unfold MapPin.resetToOriginalAppearance.
    change (MapPin.originalMaterial (MapPin.set_isVisited false visitedPin))
      with (MapPin.originalMaterial visitedPin).
    change (MapPin.imageComponent (MapPin.set_isVisited false visitedPin))
      with (MapPin.imageComponent visitedPin).
    by rewrite Ho1, Himg1. }
  destruct (MapPin_later_visit (MapPin.set_isVisited true resetPin) m0 m0
              (fresh (dom (MapPin.materials this))))
    as (_ & Hvm2 & Himg2).
  { by rewrite Hreset. }
  { rewrite Hreset. exact Ho1. }
  { rewrite Hreset. exact Hvm1. }
  assert (again = MapPin.applyVisitedAppearance (MapPin.set_isVisited true resetPin))
    as Hagain.
  { unfold again. rewrite MapPin_setVisited_true; [done|]. by rewrite Hreset. }
  exists (fresh (dom (MapPin.materials this))).
  split; [apply not_elem_of_dom, is_fresh|].
  split; [exact Himg1|]. split; [exact Hcopy|]. split; [exact Hm1|].
  split; [by rewrite Hreset|]. split; [by rewrite Hreset|].
  rewrite Hagain. done.
Qed.

Lemma MapPin_visit_then_reset_witness :
  MapPin.imageComponent
    (MapPin.setVisited false (MapPin.setVisited true pinA).1).1
  = Some (MapPin.mkImage (Some 1%positive)).
Proof.
  destruct (MapPin_visit_then_reset pinA 1%positive
              (MapPin.mkMaterial (Some (MapPin.mkPass white))))
    as (copy & _ & _ & _ & _ & Hreset & _).
  - reflexivity.
  - vm_compute. reflexivity.
  - reflexivity.
  - reflexivity.
  - reflexivity.
  - exact Hreset.
Defined.

(** X22: the outline is not reset.  When the image and the outline both
    have a main material, [setVisited(true)] moves the outline to a new
    light-green copy of its material; [setVisited(false)] restores the
    image only, so the outline stays on that copy; and the next
    [setVisited(true)] copies the outline's material once more. *)
Theorem MapPin_reset_leaves_outline this current o0 material :
  MapPin.imageComponent this = Some (MapPin.mkImage (Some current)) →
  MapPin.outlineImageComponent this = Some (MapPin.mkImage (Some o0)) →
  MapPin.materials this !! o0 = Some material →
  MapPin._isVisited this = false →
  let visitedPin := (MapPin.setVisited true this).1 in
  let resetPin := (MapPin.setVisited false visitedPin).1 in
  let again := (MapPin.setVisited true resetPin).1 in
  ∃ o1 o2,
    MapPin.materials this !! o1 = None
    ∧ MapPin.outlineImageComponent visitedPin = Some (MapPin.mkImage (Some o1))
    ∧ MapPin.materials visitedPin !! o1
      = Some (match MapPin.mainPass material with
              | Some _ => MapPin.mkMaterial (Some (MapPin.mkPass MapPin.lightGreen))
              | None => material
              end)
    ∧ MapPin.materials visitedPin !! o0 = Some material
    ∧ MapPin.outlineImageComponent resetPin = Some (MapPin.mkImage (Some o1))
    ∧ o2 ≠ o1
    ∧ MapPin.outlineImageComponent again = Some (MapPin.mkImage (Some o2)).
Proof.
  intros Himg Hout Hm Hv visitedPin resetPin again.
  destruct (MapPin_outline_visit (MapPin.set_isVisited true this) current o0 material
              Himg Hout Hm) as (o1 & Hfresh & Hout1 & Ho1 & Ho0).
  destruct (MapPin_applyVisitedAppearance_original
              (MapPin.set_isVisited true this) current Himg) as [Horig [img1 Himg1]].
  assert (visitedPin = MapPin.applyVisitedAppearance (MapPin.set_isVisited true this))
    as Hvisited by (unfold visitedPin; by rewrite MapPin_setVisited_true).
  rewrite <- Hvisited in Hout1, Ho1, Ho0, Horig, Himg1.
  assert (MapPin._isVisited visitedPin = true) as Hv1
    by apply (MapPin_setVisited_frame true this).
  set (original := default current (MapPin.originalMaterial (MapPin.set_isVisited true this)))
    in Horig.
  assert (resetPin = MapPin.set_imageComponent (Some (MapPin.mkImage (Some original)))
                       (MapPin.set_isVisited false visitedPin)) as Hreset.
  { unfold resetPin. rewrite MapPin_setVisited_false by done.
    unfold MapPin.resetToOriginalAppearance.
    change (MapPin.originalMaterial (MapPin.set_isVisited false visitedPin))
      with (MapPin.originalMaterial visitedPin).
    change (MapPin.imageComponent (MapPin.set_isVisited false visitedPin))
      with (MapPin.imageComponent visitedPin).
    by rewrite Horig, Himg1. }
  destruct (MapPin_outline_visit (MapPin.set_isVisited true resetPin) original o1
              (match MapPin.mainPass material with
               | Some _ => MapPin.mkMaterial (Some (MapPin.mkPass MapPin.lightGreen))
               | None => material
               end))
    as (o2 & Hfresh2 & Hout2 & _).
  { by rewrite Hreset. }
  { rewrite Hreset. exact Hout1. }
  { rewrite Hreset. exact Ho1. }
  assert (again = MapPin.applyVisitedAppearance (MapPin.set_isVisited true resetPin))
    as Hagain.
  { unfold again. rewrite MapPin_setVisited_true; [done|]. by rewrite Hreset. }
  exists o1, o2.
  split; [exact Hfresh|]. split; [exact Hout1|]. split; [exact Ho1|].
  split; [exact Ho0|]. split; [by rewrite Hreset|]. split.
  - intros ->. rewrite Hreset in Hfresh2.
    change (MapPin.materials visitedPin !! o1 = None) in Hfresh2. congruence.
  - by rewrite Hagain.
Qed.

Lemma MapPin_reset_leaves_outline_witness :
  MapPin.outlineImageComponent
    (MapPin.setVisited false (MapPin.setVisited true pinA).1).1
  ≠ MapPin.outlineImageComponent pinA.
Proof.
  destruct (MapPin_reset_leaves_outline pinA 1%positive 2%positive
              (MapPin.mkMaterial (Some (MapPin.mkPass white))))
    as (o1 & o2 & Hfresh & _ & _ & _ & Hreset & _).
  - reflexivity.
  - reflexivity.
  - vm_compute. reflexivity.
  - reflexivity.
  - rewrite Hreset. intros Heq. injection Heq as ->.
    vm_compute in Hfresh. discriminate Hfresh.
Defined.

Lemma MapPin_updateVisitedState_same w this p :
  MapPin.place this = Some p → visited w p = MapPin._isVisited this →
  MapPin.updateVisitedState w this = (this, []).
Proof.
  intros Hp Hv. unfold MapPin.updateVisitedState. rewrite Hp.
  rewrite bool_decide_false; [done|]. intros Hne. by apply Hne.
Qed.

Lemma MapPin_updateVisitedState_differs w this p :
  MapPin.place this = Some p → visited w p ≠ MapPin._isVisited this →
  MapPin.updateVisitedState w this = MapPin.setVisited (visited w p) this.
Proof.
  intros Hp Hv. unfold MapPin.updateVisitedState. rewrite Hp.
  by rewrite bool_decide_true.
Qed.

(** X23: [updateVisitedState] brings the pin in line with its waypoint.
    After the call the pin's flag equals the waypoint's visited flag;
    [visitedEvent] fires exactly when the pin turns visited; and a second
    call while the waypoint is unchanged does nothing. *)
Theorem MapPin_updateVisitedState_syncs w this p :
  MapPin.place this = Some p →
  let r := MapPin.updateVisitedState w this in
  MapPin.isVisited r.1 = visited w p
  ∧ r.2 = (if visited w p && negb (MapPin.isVisited this)
           then [MapPin.VisitedEvent] else [])
  ∧ MapPin.updateVisitedState w r.1 = (r.1, []).
Proof.
  intros Hp r. subst r. unfold MapPin.isVisited.
  destruct (decide (visited w p = MapPin._isVisited this)) as [Hsame|Hdiff].
  - rewrite (MapPin_updateVisitedState_same w this p) by done. cbn [fst snd].
    split; [done|]. split.
    + rewrite Hsame. by destruct (MapPin._isVisited this).
    + by apply (MapPin_updateVisitedState_same w this p).
  - rewrite (MapPin_updateVisitedState_differs w this p) by done.
    destruct (MapPin_setVisited_frame (visited w p) this) as [Hv Hpl].
    split; [exact Hv|]. split.
    + unfold MapPin.setVisited. rewrite bool_decide_false by done.
      destruct (visited w p), (MapPin._isVisited this); done.
    + apply (MapPin_updateVisitedState_same w _ p); [by rewrite Hpl|by rewrite Hv].
Qed.

Lemma MapPin_updateVisitedState_syncs_witness :
  (MapPin.updateVisitedState (update userOnSpot twoWithASelected).1 pinA).2
  = [MapPin.VisitedEvent].
Proof.
  destruct (MapPin_updateVisitedState_syncs
              (update userOnSpot twoWithASelected).1 pinA refA) as (_ & Hev & _).
  - reflexivity.
  - rewrite Hev. vm_compute. reflexivity.
Defined.

(** X24: [setNextActive] without animation and [shouldBeVisible].  The
    call enables the pin's scene object, at its normal scale, exactly when
    the pin is the next one or is visited, and otherwise disables it at
    the hidden scale; [shouldBeVisible] then answers true for every pin
    left enabled, and also for the user's own pin. *)
Theorem MapPin_setNextActive_visible isActive this :
  let r := MapPin.setNextActive isActive this in
  MapPin.sceneObject_enabled r = isActive || MapPin.isVisited this
  ∧ MapPin.screenTransform_scale r
    = (if MapPin.sceneObject_enabled r
       then MapPin.normalScale this else MapPin.hiddenScale this)
  ∧ MapPin.shouldBeVisible r = MapPin.sceneObject_enabled r || MapPin.isUser this.
Proof.
  intros r. subst r. unfold MapPin.setNextActive, MapPin.shouldBeVisible, MapPin.isVisited.
  destruct this as [u v n om vm hs ns en sc pl img out s]. simpl.
  destruct isActive, v, u; done.
Qed.

(** ** WorldController: the statuses of the waypoint objects *)

(** What one frame leaves of a spawned object of the place [name]. *)
Lemma WorldController_visibilityStep_spec rel w j p c :
  let r := WorldController.visibilityStep rel w j p c in
  WorldController.spawnedPlaces r.1 = WorldController.spawnedPlaces c
  ∧ WorldController.lastVisitedIndex r.1 = WorldController.lastVisitedIndex c
  ∧ WorldController.smoothingFactor r.1 = WorldController.smoothingFactor c
  ∧ match WorldController.spawnedPlaces c !! p with
    | None => r = (c, [])
    | Some i =>
        WorldController.placeStatusMap r.1 !! i
        = Some (WorldController.statusAt (WorldController.lastVisitedIndex c) j
                  (WorldController.placeName w p))
        ∧ WorldController.scene r.1 !! i
          = (λ o, WorldController.mkInstance
                    (match WorldController.text3D o with
                     | Some _ => Some (WorldController.placeName w p)
                     | None => None
                     end)
                    (WorldController.tweens o)
                    (match rel p with
                     | Some target =>
                         vec3_lerp (WorldController.localPosition o) target
                           (WorldController.smoothingFactor c)
                     | None => WorldController.localPosition o
                     end)) <$> WorldController.scene c !! i
        ∧ (∀ k, k ≠ i →
                WorldController.placeStatusMap r.1 !! k
                = WorldController.placeStatusMap c !! k
                ∧ WorldController.scene r.1 !! k = WorldController.scene c !! k)
        ∧ (WorldController.placeStatusMap c !! i
           = Some (WorldController.statusAt (WorldController.lastVisitedIndex c) j
                     (WorldController.placeName w p)) →
           r.2 = [] ∧ WorldController.placeStatusMap r.1
                      = WorldController.placeStatusMap c)
    end.
Proof.
  intros r. subst r. unfold WorldController.visibilityStep.
  destruct (WorldController.spawnedPlaces c !! p) as [i|] eqn:Hi; [|done].
  cbv zeta.
  set (c0 := match rel p with
             | Some target => WorldController.moveTowards i target c
             | None => c
             end).
  assert (WorldController.spawnedPlaces c0 = WorldController.spawnedPlaces c
          ∧ WorldController.lastVisitedIndex c0 = WorldController.lastVisitedIndex c
          ∧ WorldController.smoothingFactor c0 = WorldController.smoothingFactor c
          ∧ WorldController.placeStatusMap c0 = WorldController.placeStatusMap c)
    as (Hsp0 & Hlast0 & Hsm0 & Hst0).
  { unfold c0. by destruct (rel p). }
  rewrite Hlast0.
  set (status := WorldController.statusAt _ _ _).
  set (c1 := WorldController.setPlaceText i (WorldController.placeName w p) c0).
  assert (WorldController.placeStatusMap c1 = WorldController.placeStatusMap c)
    as Hst1 by exact Hst0.
  assert (WorldController.scene c1 !! i
          = (λ o, WorldController.mkInstance
                    (match WorldController.text3D o with
                     | Some _ => Some (WorldController.placeName w p)
                     | None => None
                     end)
                    (WorldController.tweens o)
                    (match rel p with
                     | Some target =>
                         vec3_lerp (WorldController.localPosition o) target
                           (WorldController.smoothingFactor c)
                     | None => WorldController.localPosition o
                     end)) <$> WorldController.scene c !! i) as Hscene.
  { unfold c1, c0, WorldController.setPlaceText, WorldController.moveTowards.
    destruct (rel p) as [target|];
      cbn [WorldController.scene WorldController.set_scene];
      rewrite ?lookup_alter_eq;
      destruct (WorldController.scene c !! i) as [[t tw pos]|]; cbn; try done;
      by destruct t. }
  assert (∀ k, k ≠ i → WorldController.scene c1 !! k = WorldController.scene c !! k)
    as Hother.
  { intros k Hk. unfold c1, c0, WorldController.setPlaceText, WorldController.moveTowards.
    destruct (rel p) as [target|];
      cbn [WorldController.scene WorldController.set_scene];
      by rewrite ?lookup_alter_ne by done. }
  case_bool_decide as Hst; cbn [fst snd].
  - split; [done|]. split; [done|]. split; [done|].
    cbn [WorldController.placeStatusMap WorldController.set_placeStatusMap
         WorldController.scene].
    split; [by rewrite lookup_insert_eq|]. split; [done|]. split.
    + intros k Hk. rewrite lookup_insert_ne by done. rewrite Hst1.
      split; [done|by apply Hother].
    + intros Hsettled. rewrite Hst1 in Hst. done.
  - split; [done|]. split; [done|]. split; [done|].
    split; [done|]. split; [done|]. split.
    + intros k Hk. rewrite Hst1. split; [done|by apply Hother].
    + done.
Qed.

Lemma WorldController_visibilityLoop_spec rel w rest : ∀ k c,
  NoDup rest →
  (∀ p q i, p ∈ rest → q ∈ rest →
            WorldController.spawnedPlaces c !! p = Some i →
            WorldController.spawnedPlaces c !! q = Some i → p = q) →
  let r := WorldController.visibilityLoop rel w k rest c in
  WorldController.spawnedPlaces r.1 = WorldController.spawnedPlaces c
  ∧ WorldController.lastVisitedIndex r.1 = WorldController.lastVisitedIndex c
  ∧ WorldController.smoothingFactor r.1 = WorldController.smoothingFactor c
  ∧ (∀ j p i, rest !! j = Some p →
              WorldController.spawnedPlaces c !! p = Some i →
              WorldController.placeStatusMap r.1 !! i
              = Some (WorldController.statusAt (WorldController.lastVisitedIndex c)
                        (k + j) (WorldController.placeName w p))
              ∧ WorldController.scene r.1 !! i
                = (λ o, WorldController.mkInstance
                          (match WorldController.text3D o with
                           | Some _ => Some (WorldController.placeName w p)
                           | None => None
                           end)
                          (WorldController.tweens o)
                          (match rel p with
                           | Some target =>
                               vec3_lerp (WorldController.localPosition o) target
                                 (WorldController.smoothingFactor c)
                           | None => WorldController.localPosition o
                           end)) <$> WorldController.scene c !! i)
  ∧ (∀ i, (∀ p, p ∈ rest → WorldController.spawnedPlaces c !! p ≠ Some i) →
          WorldController.placeStatusMap r.1 !! i
          = WorldController.placeStatusMap c !! i
          ∧ WorldController.scene r.1 !! i = WorldController.scene c !! i).
Proof.
  induction rest as [|p rest IH]; intros k c Hnd Hinj.
  { cbn. split; [done|]. split; [done|]. split; [done|]. split; [|done].
    intros j p i Hj. by rewrite lookup_nil in Hj. }
  apply NoDup_cons in Hnd as [Hp Hnd].
  pose proof (WorldController_visibilityStep_spec rel w k p c) as Hstep.
  cbv zeta in Hstep. destruct Hstep as (Hsp0 & Hlast0 & Hsm0 & Hstep).
  set (r0 := WorldController.visibilityStep rel w k p c) in *.
  destruct (IH (S k) r0.1 Hnd) as (Hsp & Hlast & Hsm & Hin & Hout).
  { intros q1 q2 i Hq1 Hq2. rewrite Hsp0. apply Hinj; by right. }
  change (WorldController.visibilityLoop rel w k (p :: rest) c)
    with (let r' := WorldController.visibilityLoop rel w (S k) rest r0.1 in
          (r'.1, r0.2 ++ r'.2)).
  cbv zeta. cbn [fst snd].
  split; [by rewrite Hsp|]. split; [by rewrite Hlast|].
  split; [by rewrite Hsm|]. split.
  - intros j q i Hj Hq. destruct j as [|j].
    + injection Hj as <-. rewrite Hq in Hstep. destruct Hstep as (Hst & Hsc & _).
      destruct (Hout i) as [-> ->]; [|by rewrite Nat.add_0_r].
      intros q' Hq' Hq''. rewrite Hsp0 in Hq''.
      assert (q' = p) as -> by (apply (Hinj q' p i); [by right|by left|done..]).
      done.
    + cbn in Hj. destruct (Hin j q i Hj) as [Hst Hsc]; [by rewrite Hsp0|].
      rewrite Hst, Hsc, Hlast0, Hsm0.
      replace (S k + j) with (k + S j) by lia. split; [done|].
      f_equal.
      destruct (WorldController.spawnedPlaces c !! p) as [ip|] eqn:Hip.
      * destruct Hstep as (_ & _ & Hother & _).
        apply Hother. intros ->.
        assert (q = p) as ->.
        { apply (Hinj q p ip); [right; by eapply list_elem_of_lookup_2|by left|done..]. }
        apply Hp. by eapply list_elem_of_lookup_2.
      * by rewrite Hstep.
  - intros i Hi. destruct (Hout i) as [-> ->].
    { intros q Hq. rewrite Hsp0. apply Hi. by right. }
    destruct (WorldController.spawnedPlaces c !! p) as [ip|] eqn:Hip.
    + destruct Hstep as (_ & _ & Hother & _). apply Hother.
      intros ->. by apply (Hi p); [left|].
    + by rewrite Hstep.
Qed.

(** Once the statuses are recorded, a frame starts no tween and records
    nothing new. *)
Lemma WorldController_visibilityLoop_quiet rel w rest : ∀ k c,
  (∀ j p i, rest !! j = Some p →
            WorldController.spawnedPlaces c !! p = Some i →
            WorldController.placeStatusMap c !! i
            = Some (WorldController.statusAt (WorldController.lastVisitedIndex c)
                      (k + j) (WorldController.placeName w p))) →
  (WorldController.visibilityLoop rel w k rest c).2 = []
  ∧ WorldController.placeStatusMap (WorldController.visibilityLoop rel w k rest c).1
    = WorldController.placeStatusMap c.
Proof.
  induction rest as [|p rest IH]; intros k c Hok; [done|].
  pose proof (WorldController_visibilityStep_spec rel w k p c) as Hstep.
  cbv zeta in Hstep. destruct Hstep as (Hsp0 & Hlast0 & _ & Hstep).
  set (r0 := WorldController.visibilityStep rel w k p c) in *.
  assert (r0.2 = [] ∧ WorldController.placeStatusMap r0.1
                      = WorldController.placeStatusMap c) as [Hev0 Hst0].
  { destruct (WorldController.spawnedPlaces c !! p) as [i|] eqn:Hi.
    - destruct Hstep as (_ & _ & _ & Hquiet). apply Hquiet.
      rewrite <- (Nat.add_0_r k). by apply (Hok 0 p i).
    - by rewrite Hstep. }
  destruct (IH (S k) r0.1) as [Hev Hst].
  { intros j q i Hj Hq. rewrite Hst0, Hlast0.
    replace (S k + j) with (k + S j) by lia.
    apply (Hok (S j) q i); [done|by rewrite <- Hsp0]. }
  change (WorldController.visibilityLoop rel w k (p :: rest) c)
    with (let r' := WorldController.visibilityLoop rel w (S k) rest r0.1 in
          (r'.1, r0.2 ++ r'.2)).
  cbv zeta. cbn [fst snd]. by rewrite Hev0, Hev, Hst, Hst0.
Qed.

(** X25: one frame of [updateWaypointVisibility].  With distinct objects
    for the registered places, after the call every spawned object shows
    the name of its place (whatever text a handler had put there), has
    moved by the smoothing factor towards the relative position of its
    place (or stayed, when that is null), and is recorded with the status
    of its index: [onPassed] below [lastVisitedIndex], [onVisited] at it,
    [onSpawn] just after it, the place's name further on.  A second call
    moves the objects again, but starts no tween and records no new
    status. *)
Theorem WorldController_frame_settles rel rel' w c :
  NoDup (_places w) →
  (∀ p q i, p ∈ _places w → q ∈ _places w →
            WorldController.spawnedPlaces c !! p = Some i →
            WorldController.spawnedPlaces c !! q = Some i → p = q) →
  let r := WorldController.updateWaypointVisibility rel w c in
  let r2 := WorldController.updateWaypointVisibility rel' w r.1 in
  (∀ j p i, _places w !! j = Some p →
            WorldController.spawnedPlaces c !! p = Some i →
            WorldController.placeStatusMap r.1 !! i
            = Some (WorldController.statusAt (WorldController.lastVisitedIndex c) j
                      (WorldController.placeName w p))
            ∧ ∀ o, WorldController.scene c !! i = Some o →
                   WorldController.scene r.1 !! i
                   = Some (WorldController.mkInstance
                             (match WorldController.text3D o with
                              | Some _ => Some (WorldController.placeName w p)
                              | None => None
                              end)
                             (WorldController.tweens o)
                             (match rel p with
                              | Some target =>
                                  vec3_lerp (WorldController.localPosition o) target
                                    (WorldController.smoothingFactor c)
                              | None => WorldController.localPosition o
                              end)))
  ∧ WorldController.lastVisitedIndex r.1 = WorldController.lastVisitedIndex c
  ∧ r2.2 = []
  ∧ WorldController.placeStatusMap r2.1 = WorldController.placeStatusMap r.1.
Proof.
  intros Hnd Hinj r r2. subst r r2. unfold WorldController.updateWaypointVisibility.
  destruct (WorldController_visibilityLoop_spec rel w (_places w) 0 c Hnd Hinj)
    as (Hsp & Hlast & _ & Hin & _).
  split; [|split; [done|]].
  - intros j p i Hj Hp. destruct (Hin j p i Hj Hp) as [Hst Hsc].
    split; [done|]. intros o Ho. by rewrite Hsc, Ho.
  - apply WorldController_visibilityLoop_quiet.
    intros j p i Hj Hp. rewrite Hsp in Hp.
    destruct (Hin j p i Hj Hp) as [Hst _]. by rewrite Hlast.
Qed.

Lemma WorldController_frame_settles_witness :
  let r := WorldController.updateWaypointVisibility (λ _, Some (mkVec3 10 0 0))
             twoRegistered controllerAB in
  WorldController.placeStatusMap r.1 !! 1%positive = Some "onSpawn"%string
  ∧ WorldController.placeStatusMap r.1 !! 2%positive = Some "FINISH"%string
  ∧ WorldController.localPosition <$> WorldController.scene r.1 !! 1%positive
    = Some (vec3_lerp (mkVec3 0 0 0) (mkVec3 10 0 0) (1 # 10)).
Proof.
  destruct (WorldController_frame_settles (λ _, Some (mkVec3 10 0 0)) (λ _, None)
              twoRegistered controllerAB) as (Hst & _).
  - apply (inv_nodup _ (reachable_inv gridDistance _ twoRegistered_reachable)).
  - intros p q i Hp Hq.
    assert (∀ r, r ∈ _places twoRegistered → r = refA ∨ r = refB) as Hcases.
    { intros r Hr. vm_compute in Hr. apply elem_of_cons in Hr as [->|Hr]; [by left|].
      apply list_elem_of_singleton in Hr. by right. }
    destruct (Hcases p Hp) as [-> | ->], (Hcases q Hq) as [-> | ->];
      intros H1 H2; vm_compute in H1, H2; congruence.
  - cbv zeta. split; [|split].
    + by destruct (Hst 0 refA 1%positive) as [-> _].
    + by destruct (Hst 1 refB 2%positive) as [-> _].
    + destruct (Hst 0 refA 1%positive) as [_ Hsc]; [done|done|].
      by rewrite (Hsc waypointObject).
Defined.

Lemma WorldController_announce_frame inst status c :
  let r := WorldController.announce inst status c in
  WorldController.spawnedPlaces r.1 = WorldController.spawnedPlaces c
  ∧ WorldController.lastVisitedIndex r.1 = WorldController.lastVisitedIndex c
  ∧ ∀ k, WorldController.tweens <$> WorldController.scene r.1 !! k
         = WorldController.tweens <$> WorldController.scene c !! k.
Proof.
  destruct inst as [i|]; [|done]. cbn.
  split; [done|]. split; [done|]. intros k.
  destruct (decide (k = i)) as [->|Hk].
  - rewrite lookup_alter_eq.
    destruct (WorldController.scene c !! i) as [o|]; [|done]. cbn.
    by destruct (WorldController.text3D o).
  - by rewrite lookup_alter_ne.
Qed.

Lemma WorldController_onArrivedAtPlace_frame w place c :
  let r := WorldController.onArrivedAtPlace w place c in
  WorldController.spawnedPlaces r.1 = WorldController.spawnedPlaces c
  ∧ WorldController.lastVisitedIndex r.1 = indexOf (_places w) place
  ∧ ∀ k, WorldController.tweens <$> WorldController.scene r.1 !! k
         = WorldController.tweens <$> WorldController.scene c !! k.
Proof.
  intros r. subst r. unfold WorldController.onArrivedAtPlace. cbv zeta.
  set (r1 := if _ && _ then _ else _).
  assert (WorldController.spawnedPlaces r1.1 = WorldController.spawnedPlaces c
          ∧ ∀ k, WorldController.tweens <$> WorldController.scene r1.1 !! k
                 = WorldController.tweens <$> WorldController.scene c !! k) as [Hsp1 Htw1].
  { unfold r1. destruct (_ && _); [|done].
    destruct (WorldController_announce_frame
                (at_index (_places w) (WorldController.lastVisitedIndex c)
                   ≫= λ p, WorldController.spawnedPlaces c !! p) "onPassed" c)
      as (? & _ & ?). done. }
  cbn [fst snd].
  destruct (indexOf (_places w) place + 1 <? Z.of_nat (length (_places w)))%Z.
  - cbn [fst snd].
    set (a1 := WorldController.announce _ "onSpawn" r1.1).
    destruct (WorldController_announce_frame
                (at_index (_places w) (indexOf (_places w) place + 1)
                   ≫= λ p, WorldController.spawnedPlaces r1.1 !! p) "onSpawn" r1.1)
      as (Hsp2 & _ & Htw2).
    fold a1 in Hsp2, Htw2.
    destruct (WorldController_announce_frame
                (WorldController.spawnedPlaces a1.1 !! place) "onVisited" a1.1)
      as (Hsp3 & _ & Htw3).
    split; [|split; [done|]].
    + cbn. by rewrite Hsp3, Hsp2.
    + intros k. cbn. by rewrite Htw3, Htw2.
  - destruct (WorldController_announce_frame
                (WorldController.spawnedPlaces r1.1 !! place) "onPassed" r1.1)
      as (Hsp2 & _ & Htw2).
    split; [|split; [done|]].
    + cbn. by rewrite Hsp2.
    + intros k. cbn. by rewrite Htw2.
Qed.

(** X26: a repeated arrival plays [onPassed] on the place just reached.
    [onArrivedAtPlace] takes [lastVisitedIndex] for the waypoint before
    the one reached, but after the first notification of an arrival it is
    the index of that very waypoint.  When the same arrival is announced
    again (an update in which the selected place arrives emits
    [ArrivedAtPlace] three times), the handler starts by playing
    [onPassed] on the object of the place just reached. *)
Theorem WorldController_repeated_arrival w place i c inst o :
  NoDup (_places w) → _places w !! i = Some place →
  WorldController.spawnedPlaces c !! place = Some inst →
  WorldController.scene c !! inst = Some o →
  "onPassed" ∈ WorldController.tweens o →
  let r1 := WorldController.onArrivedAtPlace w place c in
  let r2 := WorldController.onArrivedAtPlace w place r1.1 in
  WorldController.lastVisitedIndex r1.1 = Z.of_nat i
  ∧ head r2.2 = Some (WorldController.StartTween inst "onPassed")
  ∧ WorldController.lastVisitedIndex r2.1 = Z.of_nat i.
Proof.
  intros Hnd Hi Hinst Ho Htween r1 r2.
  destruct (WorldController_onArrivedAtPlace_frame w place c) as (Hsp1 & Hlast1 & Htw1).
  destruct (WorldController_onArrivedAtPlace_frame w place r1.1) as (_ & Hlast2 & _).
  fold r1 in Hsp1, Hlast1, Htw1. fold r2 in Hlast2. clearbody r1.
  rewrite (indexOf_lookup _ _ _ Hnd Hi) in Hlast1, Hlast2.
  split; [done|]. split; [|done].
  unfold r2, WorldController.onArrivedAtPlace. cbv zeta. rewrite Hlast1.
  assert (i < length (_places w)) as Hlt by by eapply lookup_lt_Some.
  assert ((0 <=? Z.of_nat i)%Z && (Z.of_nat i <? Z.of_nat (length (_places w)))%Z = true)
    as ->.
  { apply andb_true_iff. split; [apply Z.leb_le|apply Z.ltb_lt]; lia. }
  rewrite at_index_of_nat, Hi. cbn [mbind option_bind]. rewrite Hsp1, Hinst.
  cbn [WorldController.announce fst snd].
  unfold WorldController.triggerTweenChain at 1.
  specialize (Htw1 inst). rewrite Ho in Htw1. cbn in Htw1.
  destruct (WorldController.scene r1.1 !! inst) as [o'|];
    cbn in Htw1; [|discriminate Htw1].
  injection Htw1 as ->.
  by rewrite bool_decide_true.
Qed.

Lemma WorldController_repeated_arrival_witness :
  head (WorldController.onArrivedAtPlace twoRegistered refA
          (WorldController.onArrivedAtPlace twoRegistered refA controllerAB).1).2
  = Some (WorldController.StartTween 1%positive "onPassed").
Proof.
  destruct (WorldController_repeated_arrival twoRegistered refA 0 controllerAB
              1%positive waypointObject) as (_ & Hhead & _).
  - apply (inv_nodup _ (reachable_inv gridDistance _ twoRegistered_reachable)).
  - reflexivity.
  - reflexivity.
  - reflexivity.
  - repeat constructor.
  - exact Hhead.
Defined.
